(** * The enumeration expansion engine and the declaration/signature parser

    A shallow embedding of [enumeration_expander.py], of
    [signature_parser.py] and of [inline_func_signatures] of
    [preprocessor.py], followed by the properties of the expansion engine
    and of the parsers that are built on it.

    Conventions of the embedding:
    - a Python [str] is a [list ascii] (code points below 256); string
      literals are written as Rocq strings and coerced;
    - an exception is a value of [exn]; a call that may raise returns a
      [result];
    - a generator that may raise in the middle of its run is a [gen]: the
      items it yields, then the exception that ends it, if any;
    - the token list that [Declaration] and [Declarator] consume in place
      is the store of the small state-and-error monad [M]. *)

From Stdlib Require Import Ascii String ZArith Lia Bool Arith List.
From Stdlib Require Import DecimalString DecimalPos Permutation.
Import ListNotations.
Local Open Scope string_scope.
Local Open Scope Z_scope.
Local Open Scope nat_scope.
Local Open Scope list_scope.

Set Implicit Arguments.

(** ** Strings *)

Definition str := list ascii.

Coercion list_ascii_of_string : string >-> list.

(** [lits] turns a list of literals into a list of [str]. *)
Definition lits (l : list string) : list str := map list_ascii_of_string l.

Definition str_eqb (a b : str) : bool :=
  if list_eq_dec ascii_dec a b then true else false.

Definition mem (c : ascii) (l : list ascii) : bool :=
  existsb (Ascii.eqb c) l.

(** [ord] and [chr], on the code points this model has. *)
Definition ord (c : ascii) : nat := nat_of_ascii c.
Definition chr (n : nat) : ascii := ascii_of_nat n.

(** [str.isspace] for one character: the whitespace of [str.strip] and of
    the regular expression class [\s]. *)
Definition is_space (c : ascii) : bool :=
  let n := ord c in
  ((9 <=? n) && (n <=? 13)) || ((28 <=? n) && (n <=? 32))
  || (n =? 133) || (n =? 160).

Fixpoint lstrip (s : str) : str :=
  match s with
  | c :: rest => if is_space c then lstrip rest else s
  | [] => []
  end.

Definition rstrip (s : str) : str := rev (lstrip (rev s)).

(** [s.strip()] *)
Definition strip (s : str) : str := rstrip (lstrip s).

(** [s.count(c)] for a one-character [c]. *)
Definition count (c : ascii) (s : str) : nat :=
  length (filter (Ascii.eqb c) s).

(** [sep.join(parts)] *)
Fixpoint join (sep : str) (parts : list str) : str :=
  match parts with
  | [] => []
  | [p] => p
  | p :: rest => p ++ sep ++ join sep rest
  end.

(** [s.split(c)] for a one-character separator: every occurrence splits,
    and the result is never empty. *)
Fixpoint split_char_loop (c : ascii) (s : str) (piece : str) : list str :=
  match s with
  | [] => [piece]
  | x :: rest =>
      if Ascii.eqb x c then piece :: split_char_loop c rest []
      else split_char_loop c rest (piece ++ [x])
  end.

Definition str_split (c : ascii) (s : str) : list str := split_char_loop c s [].

(** [s.find(c)], -1 when [c] does not occur. *)
Fixpoint find_from (c : ascii) (s : str) (i : Z) : Z :=
  match s with
  | [] => (-1)%Z
  | x :: rest => if Ascii.eqb x c then i else find_from c rest (i + 1)%Z
  end.

Definition str_find (c : ascii) (s : str) : Z := find_from c s 0%Z.

(** [s[lo:hi]] with Python's treatment of negative and oversized
    indices. *)
Definition clamp_index (len i : Z) : Z :=
  if (i <? 0)%Z then Z.max 0 (i + len) else Z.min i len.

Definition py_slice (A : Type) (lo hi : Z) (s : list A) : list A :=
  let len := Z.of_nat (length s) in
  let a := clamp_index len lo in
  let b := clamp_index len hi in
  firstn (Z.to_nat (b - a)) (skipn (Z.to_nat a) s).

(** [s[lo:]] *)
Definition py_slice_from (A : Type) (lo : Z) (s : list A) : list A :=
  py_slice lo (Z.of_nat (length s)) s.

(** [del l[:n]] for [n >= 0]. *)
Definition del_prefix (A : Type) (n : nat) (l : list A) : list A := skipn n l.

Fixpoint ends_with (suffix s : str) : bool :=
  str_eqb suffix s ||
  match s with
  | [] => false
  | _ :: rest => ends_with suffix rest
  end.

(** [enumerate(s)] *)
Definition enumerate (A : Type) (s : list A) : list (nat * A) :=
  combine (seq 0 (length s)) s.

(** ** Exceptions, results and generators *)

(** The constructs a [ParsingException] can name. *)
Inductive node_type :=
  | NVariant | NQualifier | NDeclarator | NDeclaration | NSignature.

(** [FuelExhausted] is not an exception of the program: it marks the
    bound of a recursion of the model, and no function of the model
    returns it (see [expand_variant_total] and [parse_pointers_total]). *)
Inductive exn :=
  | AssertionError
  | KeyError
  | IndexError
  | ValueError
  | FuelExhausted
  | ParsingException (node : node_type) (content : str) (note : str).

Inductive result (A : Type) :=
  | Ok (a : A)
  | Raise (e : exn).
Arguments Raise {A} e.

Definition rbind (A B : Type) (r : result A) (k : A -> result B) : result B :=
  match r with
  | Ok a => k a
  | Raise e => Raise e
  end.

Declare Scope result_scope.
Delimit Scope result_scope with result.
Notation "x <- r ;; k" := (rbind r (fun x => k))
  (at level 61, r at next level, right associativity) : result_scope.

(** Calls [f] on the items in order; the first exception ends the run. *)
Fixpoint mapM (A B : Type) (f : A -> result B) (l : list A) : result (list B) :=
  match l with
  | [] => Ok []
  | a :: rest =>
      match f a with
      | Raise e => Raise e
      | Ok b =>
          match mapM f rest with
          | Raise e => Raise e
          | Ok bs => Ok (b :: bs)
          end
      end
  end.

(** A generator run: the items yielded, then the exception that stopped
    the run when there is one. *)
Definition gen (A : Type) := (list A * option exn)%type.

Definition gen_cons (A : Type) (a : A) (g : gen A) : gen A :=
  (a :: fst g, snd g).

(** [list(g)], [tuple(g)]: everything, or the exception. *)
Definition collect (A : Type) (g : gen A) : result (list A) :=
  match snd g with
  | Some e => Raise e
  | None => Ok (fst g)
  end.

(** [(f(x) for x in g)] consumed by argument unpacking, where [f] runs
    eagerly on each item as it is pulled. *)
Definition gen_mapM (A B : Type) (f : A -> result B) (g : gen A) : result (list B) :=
  match mapM f (fst g) with
  | Raise e => Raise e
  | Ok bs =>
      match snd g with
      | Some e => Raise e
      | None => Ok bs
      end
  end.

(** [flatten(it)] over generators each of which either raises before its
    first item or yields all its items. *)
Fixpoint flatten_runs (A : Type) (runs : list (result (list A))) : gen A :=
  match runs with
  | [] => ([], None)
  | Raise e :: _ => ([], Some e)
  | Ok l :: rest =>
      let g := flatten_runs rest in (l ++ fst g, snd g)
  end.

(** A generator followed by the end of the one that fed it. *)
Definition gen_then (A : Type) (g : gen A) (tail : option exn) : gen A :=
  match snd g with
  | Some e => g
  | None => (fst g, tail)
  end.

(** ** The pieces of [itertools] the expander uses *)

(** [itertools.product] of the pools, by the algorithm its documentation
    gives: [result = [[]]], then for each pool
    [result = [x + [y] for x in result for y in pool]]. *)
Definition product (A : Type) (pools : list (list A)) : list (list A) :=
  fold_left
    (fun result pool => flat_map (fun x => map (fun y => x ++ [y]) pool) result)
    pools [[]].

(** [zip_longest(xs, ys, fillvalue=None)] *)
Fixpoint zip_longest (A : Type) (xs ys : list A) : list (option A * option A) :=
  match xs with
  | [] => map (fun y => (None, Some y)) ys
  | x :: xs' =>
      match ys with
      | [] => (Some x, None) :: zip_longest xs' []
      | y :: ys' => (Some x, Some y) :: zip_longest xs' ys'
      end
  end.

(** [takewhile(lambda val: val is not None, it)] *)
Fixpoint takewhile_not_None (A : Type) (l : list (option A)) : list A :=
  match l with
  | Some a :: rest => a :: takewhile_not_None rest
  | _ => []
  end.

(** [pairwise(l)] *)
Definition pairwise (A : Type) (l : list A) : list (A * A) :=
  combine l (tl l).

(** [islice(l, 0, None, 2)] *)
Fixpoint islice_step2 (A : Type) (l : list A) : list A :=
  match l with
  | a :: _ :: rest => a :: islice_step2 rest
  | [a] => [a]
  | [] => []
  end.

(** ** Iterator adapters *)

Definition flatten (A : Type) (it : list (list A)) : list A := concat it.

Definition interleave (A : Type) (xs ys : list A) : list A :=
  takewhile_not_None
    (flat_map (fun tup => [fst tup; snd tup]) (zip_longest xs ys)).

(** ** Enumeration parsing *)

Definition SEPARATOR_TOKEN_PAIRS : list (ascii * ascii) :=
  [("{"%char, "}"%char); ("["%char, "]"%char)].

Definition START_TOKENS : list ascii := map fst SEPARATOR_TOKEN_PAIRS.
Definition END_TOKENS : list ascii := map snd SEPARATOR_TOKEN_PAIRS.
Definition ALL_TOKENS : list ascii := START_TOKENS ++ END_TOKENS.

(** [d[key]] *)
Fixpoint dict_get (V : Type) (d : list (ascii * V)) (key : ascii) : result V :=
  match d with
  | [] => Raise KeyError
  | (k, v) :: rest => if Ascii.eqb k key then Ok v else dict_get rest key
  end.

Definition sep_matches (lhs rhs : ascii) : bool := Ascii.eqb lhs rhs.

(** [SEPARATOR_TOKEN_PAIRS[lhs] == rhs]; the scanner calls it with
    [start_sep], which is [None] until an opening token was seen, and
    [None] is not a key. *)
Definition sep_rmatches (lhs : option ascii) (rhs : ascii) : result bool :=
  match lhs with
  | None => Raise KeyError
  | Some l =>
      match dict_get SEPARATOR_TOKEN_PAIRS l with
      | Ok r => Ok (Ascii.eqb r rhs)
      | Raise e => Raise e
      end
  end.

(** The locals of [variant_enumeration_ranges]. *)
Record scan_state := mk_scan {
  scan_start : nat;
  scan_depth : Z;
  scan_start_sep : option ascii
}.

Definition scan_open (index : nat) (sep : ascii) (st : scan_state) : scan_state :=
  if mem sep START_TOKENS then
    let st' :=
      if (scan_depth st =? 0)%Z
      then mk_scan index (scan_depth st) (Some sep)
      else st in
    mk_scan (scan_start st') (scan_depth st' + 1)%Z (scan_start_sep st')
  else st.

Definition scan_close (sep : ascii) (st : scan_state) : scan_state :=
  if mem sep END_TOKENS
  then mk_scan (scan_start st) (scan_depth st - 1)%Z (scan_start_sep st)
  else st.

(** The body of the [for] loop, over the delimiter characters with their
    indices. *)
Fixpoint scan_loop (items : list (nat * ascii)) (st : scan_state) : gen (nat * nat) :=
  match items with
  | [] => ([], None)
  | (index, sep) :: rest =>
      let st := scan_close sep (scan_open index sep st) in
      match sep_rmatches (scan_start_sep st) sep with
      | Raise e => ([], Some e)
      | Ok matched =>
          if matched && (scan_depth st =? 0)%Z
          then gen_cons (scan_start st, index) (scan_loop rest st)
          else scan_loop rest st
      end
  end.

Definition variant_enumeration_ranges (variant : str) : gen (nat * nat) :=
  scan_loop
    (filter (fun index_char => mem (snd index_char) ALL_TOKENS) (enumerate variant))
    (mk_scan 0 0%Z None).

(** [chain([-1], flatten(ranges), [len(variant)])], cut short when the
    scan raises. *)
Definition range_bounds (variant : str) (ranges : gen (nat * nat)) : list Z :=
  [(-1)%Z]
  ++ flat_map (fun r => [Z.of_nat (fst r); Z.of_nat (snd r)]) (fst ranges)
  ++ match snd ranges with
     | None => [Z.of_nat (length variant)]
     | Some _ => []
     end.

Definition invert_variant_enumeration_ranges
    (variant : str) (ranges : gen (nat * nat)) : gen (Z * Z) :=
  (map (fun end_start => ((fst end_start + 1)%Z, snd end_start))
       (islice_step2 (pairwise (range_bounds variant ranges))),
   snd ranges).

Definition variant_enumerations (variant : str) : gen str :=
  let ranges := variant_enumeration_ranges variant in
  (map (fun range_ =>
          py_slice (Z.of_nat (fst range_)) (Z.of_nat (snd range_) + 1)%Z variant)
       (fst ranges),
   snd ranges).

Definition invert_variant_enumerations (variant : str) : gen str :=
  let ranges :=
    invert_variant_enumeration_ranges variant (variant_enumeration_ranges variant) in
  (map (fun range_ => py_slice (fst range_) (snd range_) variant) (fst ranges),
   snd ranges).

(** ** Enumeration expansion *)

(** [split_on_level(data, sep)] with the default [indents]. *)
Fixpoint split_on_level_loop (data : str) (sep : ascii)
    (items : list (nat * ascii)) (start : nat) (depth : Z) : list str :=
  match items with
  | [] => [py_slice_from (Z.of_nat start) data]
  | (index, char) :: rest =>
      let depth := if mem char (map fst SEPARATOR_TOKEN_PAIRS) then (depth + 1)%Z else depth in
      let depth := if mem char (map snd SEPARATOR_TOKEN_PAIRS) then (depth - 1)%Z else depth in
      if (depth =? 0)%Z && Ascii.eqb char sep
      then py_slice (Z.of_nat start) (Z.of_nat index) data
           :: split_on_level_loop data sep rest (index + 1) depth
      else split_on_level_loop data sep rest start depth
  end.

Definition split_on_level (data : str) (sep : ascii) : list str :=
  split_on_level_loop data sep (enumerate data) 0 0%Z.

(** The wrappers [All] and [Option] of a group's variants. *)
Definition All (variants : gen str) : gen str := variants.
Definition Option (variants : gen str) : gen str := gen_cons [] variants.

Definition SEPARATOR_ITER : list (ascii * (gen str -> gen str)) :=
  [("{"%char, All); ("["%char, Option)].

Section Expansion.

(** [expand] stands for the recursive call of [expand_variant]. *)
Variable expand : str -> result (list str).

(** The two assertions run when the function is called; the variants
    are produced when the returned iterator is consumed. *)
Definition enumeration_variants_with (enumeration : str) : result (gen str) :=
  match enumeration with
  | [] => Raise IndexError
  | first :: _ =>
      if negb (mem first START_TOKENS) then Raise AssertionError else
      (closing <- dict_get SEPARATOR_TOKEN_PAIRS first ;;
       if negb (count first enumeration =? count closing enumeration)
       then Raise AssertionError else
       (it <- dict_get SEPARATOR_ITER first ;;
        Ok (it (flatten_runs
                  (map (fun sub_variant => expand (strip sub_variant))
                       (split_on_level (py_slice 1 (-1) enumeration) ","%char))))))%result
  end.

(** The body of [expand_variant]: the arguments of [product] are built
    while the scan runs, then [product] drains each of them, then the
    static parts are listed. *)
Definition expand_variant_body (variant : str) : result (list str) :=
  (args <- gen_mapM enumeration_variants_with (variant_enumerations variant) ;;
   pools <- mapM (@collect str) args ;;
   static_variant_parts <- collect (invert_variant_enumerations variant) ;;
   Ok (map (fun expanded_sub_variants =>
              join [] (interleave static_variant_parts expanded_sub_variants))
           (product pools)))%result.

End Expansion.

(** The recursion of [expand_variant] through [enumeration_variants] is
    on ever shorter strings; [fuel] bounds its depth. The interpreter has a
    bound of its own on the depth of calls ([RecursionError], some hundreds
    of nested groups deep under the default limit); the embedding leaves it
    out, so it agrees with the source on fragments nested less deep than
    that. *)
Fixpoint expand_variant_fuel (fuel : nat) (variant : str) : result (list str) :=
  match fuel with
  | O => Raise FuelExhausted
  | S fuel' => expand_variant_body (expand_variant_fuel fuel') variant
  end.

Definition expand_variant (variant : str) : result (list str) :=
  expand_variant_fuel (S (length variant)) variant.

Definition enumeration_variants (enumeration : str) : result (gen str) :=
  enumeration_variants_with expand_variant enumeration.

(** A list of results as Rocq strings, for reading. *)
Definition show (r : result (list str)) : result (list string) :=
  match r with
  | Ok l => Ok (map string_of_list_ascii l)
  | Raise e => Raise e
  end.

(** ** [MultiIdent] *)

Record MultiIdent := mk_MultiIdent { name : str }.

(** [variant.split(" ") if " " in variant else variant]: the alternatives
    of one group, given without its delimiters. *)
Definition MultiIdent_enumeration_variants (variant : str) : list str :=
  if mem " "%char variant
  then str_split " "%char variant
  else map (fun c => [c]) variant.

Definition idents (self : MultiIdent) : result (list str) :=
  (enums <- collect (variant_enumerations (name self)) ;;
   let expended_enumerations :=
     product (map (fun enum => MultiIdent_enumeration_variants (py_slice 1 (-1) enum))
                  enums) in
   static_variant_parts <- collect (invert_variant_enumerations (name self)) ;;
   Ok (map (fun expanded_sub_variants =>
              join [] (interleave static_variant_parts expanded_sub_variants))
           expended_enumerations))%result.

(** ** The processing protocol and the plain enumeration [Variant] *)

(** [chars(c1, c2)] *)
Definition chars (c1 c2 : ascii) : list ascii :=
  map chr (seq (ord c1) (ord c2 + 1 - ord c1)).

Record VariantNode := mk_Variant { variants : list str }.

Definition variant_letter_set : list ascii :=
  chars "A" "Z" ++ list_ascii_of_string "_, " ++ ALL_TOKENS.

(** [Variant.expand]: every variant of the wrapped enumeration is
    expanded once more as it is produced. *)
Definition Variant_expand (enumeration : str) : gen str :=
  match enumeration_variants ("{" ++ enumeration ++ "}") with
  | Raise e => ([], Some e)
  | Ok sub_variants =>
      gen_then (flatten_runs (map expand_variant (fst sub_variants)))
               (snd sub_variants)
  end.

Definition Variant_check (variant : str) : bool :=
  forallb (fun letter => mem letter variant_letter_set) variant.

Definition Variant_parse (variant : str) : result VariantNode :=
  (l <- collect (Variant_expand variant) ;; Ok (mk_Variant l))%result.

(** [ParseAst.process]: [None] when [check] rejects. *)
Definition Variant_process (variant : str) : result (option VariantNode) :=
  if Variant_check variant
  then (node <- Variant_parse variant ;; Ok (Some node))%result
  else Ok None.

Definition Variant_str (self : VariantNode) : str := join ", " (variants self).

(** ** The token store *)

(** [Declaration] and [Declarator] work on the caller's token list in
    place; the list is the state, and it outlives an exception. *)
Definition M (A : Type) := list str -> result A * list str.

Definition ret (A : Type) (a : A) : M A := fun tokens => (Ok a, tokens).

Definition bind (A B : Type) (m : M A) (k : A -> M B) : M B :=
  fun tokens =>
    match m tokens with
    | (Ok a, tokens') => k a tokens'
    | (Raise e, tokens') => (Raise e, tokens')
    end.

Definition raise (A : Type) (e : exn) : M A := fun tokens => (Raise e, tokens).
Arguments raise {A} e.

Definition lift (A : Type) (r : result A) : M A := fun tokens => (r, tokens).

Definition get_tokens : M (list str) := fun tokens => (Ok tokens, tokens).

Declare Scope store_scope.
Delimit Scope store_scope with store.
Notation "x <- m ;; k" := (bind m (fun x => k))
  (at level 61, m at next level, right associativity) : store_scope.
Notation "m ;; k" := (bind m (fun _ => k))
  (at level 61, right associativity) : store_scope.

(** [tokens[0]] *)
Definition first_token : M str :=
  fun tokens =>
    match tokens with
    | [] => (Raise IndexError, tokens)
    | t :: _ => (Ok t, tokens)
    end.

(** [tokens.pop(0)] *)
Definition pop_first : M str :=
  fun tokens =>
    match tokens with
    | [] => (Raise IndexError, tokens)
    | t :: rest => (Ok t, rest)
    end.

(** [del tokens[:n]] *)
Definition del_tokens (n : nat) : M unit :=
  fun tokens => (Ok tt, del_prefix n tokens).

(** ** Qualifiers and pointers *)

(** The enumeration [_Qualifier] binds both of its names to the same
    value, [enum.auto] itself rather than a call of it, so it has the
    single member [Const], and [Volatile] is another name of it. *)
Inductive _Qualifier := Const.
Definition Volatile : _Qualifier := Const.

Definition _Qualifier_str (self : _Qualifier) : str :=
  match self with
  | Const => "const"
  end.

Record Qualifier := mk_Qualifier { qualifier : _Qualifier }.

Definition Qualifier_Const : str := "const".
Definition Qualifier_Volatile : str := "volatile".

Definition Qualifier_check (variant : str) : bool :=
  str_eqb variant Qualifier_Const || str_eqb variant Qualifier_Volatile.

Definition Qualifier_parse (variant : str) : result Qualifier :=
  if str_eqb variant Qualifier_Const then Ok (mk_Qualifier Const)
  else if str_eqb variant Qualifier_Volatile then Ok (mk_Qualifier Volatile)
  else Raise (ParsingException NQualifier variant []).

Definition Qualifier_process (variant : str) : result (option Qualifier) :=
  if Qualifier_check variant
  then (node <- Qualifier_parse variant ;; Ok (Some node))%result
  else Ok None.

Definition Qualifier_str (self : Qualifier) : str := _Qualifier_str (qualifier self).

Record Pointer := mk_Pointer { qualifiers : list Qualifier }.

Definition Pointer_str (self : Pointer) : str :=
  "*" ++ join " " (map Qualifier_str (qualifiers self)).

(** ** [Declarator] *)

Record Declarator := mk_Declarator {
  pointers : list Pointer;
  ident : MultiIdent
}.

Definition Declarator_check (variant : list str) : option (list str) :=
  if length variant =? 0 then None else Some variant.

(** [takewhile(lambda value: value is not None, map(Qualifier.process, l))] *)
Fixpoint take_qualifiers (l : list str) : result (list Qualifier) :=
  match l with
  | [] => Ok []
  | token :: rest =>
      match Qualifier_process token with
      | Raise e => Raise e
      | Ok None => Ok []
      | Ok (Some q) => (qs <- take_qualifiers rest ;; Ok (q :: qs))%result
      end
  end.

(** The [while] loop of [parse_pointers]; every turn deletes at least the
    ["*"], so [fuel] above the number of tokens is never used up. *)
Fixpoint parse_pointers_loop (fuel : nat) (pointers : list Pointer) : M (list Pointer) :=
  match fuel with
  | O => raise FuelExhausted
  | S fuel' =>
      (token <- first_token ;;
       if str_eqb token "*" then
         (tokens <- get_tokens ;;
          qualifiers <- lift (take_qualifiers (py_slice_from 1 tokens)) ;;
          del_tokens (length qualifiers + 1) ;;
          parse_pointers_loop fuel' (pointers ++ [mk_Pointer qualifiers]))
       else ret pointers)%store
  end.

Definition parse_pointers : M (list Pointer) :=
  (tokens <- get_tokens ;;
   if length tokens =? 0 then ret []
   else parse_pointers_loop (S (length tokens)) [])%store.

Definition Declarator_assemble : M Declarator :=
  (pointers <- parse_pointers ;;
   tokens <- get_tokens ;;
   match tokens with
   | [ident] => ret (mk_Declarator pointers (mk_MultiIdent ident))
   | _ => raise ValueError
   end)%store.

(** [ProcessedAst.process]: [check] hands back the very list it was
    given, so [assemble] works on the caller's list. *)
Definition Declarator_process : M (option Declarator) :=
  (tokens <- get_tokens ;;
   match Declarator_check tokens with
   | Some _ => (node <- Declarator_assemble ;; ret (Some node))
   | None => ret None
   end)%store.

Definition Declarator_str (self : Declarator) : str :=
  (if 0 <? length (pointers self)
   then join " " (map Pointer_str (pointers self)) ++ " "
   else [])
  ++ name (ident self).

(** ** [Declaration] *)

Record Declaration := mk_Declaration {
  type_qualifier : option Qualifier;
  type_specifier : MultiIdent;
  declarator : Declarator
}.

(** [re.split(Declaration.splitter, code)], where the splitter matches a
    run of whitespace or one star: the text between the separators and,
    as the pattern has a group, the separators too. [text] is the piece
    being read, [ws] the run of whitespace being matched after it. *)
Fixpoint re_split_loop (code : str) (text ws : str) : list str :=
  match code with
  | [] =>
      match ws with
      | [] => [text]
      | _ => [text; ws; []]
      end
  | c :: rest =>
      if is_space c then re_split_loop rest text (ws ++ [c])
      else
        match ws with
        | [] =>
            if Ascii.eqb c "*"
            then text :: ["*"%char] :: re_split_loop rest [] []
            else re_split_loop rest (text ++ [c]) []
        | _ =>
            text :: ws ::
            (if Ascii.eqb c "*"
             then [] :: ["*"%char] :: re_split_loop rest [] []
             else re_split_loop rest [c] [])
        end
  end.

Definition re_split (code : str) : list str := re_split_loop code [] [].

Definition tokenize (code : str) : list str :=
  filter (fun token => negb (str_eqb (strip token) [])) (re_split code).

Definition Declaration_check (tokens : list str) : option (list str) :=
  if 1 <? length tokens then Some tokens else None.

Definition Declaration_assemble : M Declaration :=
  (token <- first_token ;;
   type_qualifier <- lift (Qualifier_process token) ;;
   match type_qualifier with
   | Some _ => del_tokens 1
   | None => ret tt
   end ;;
   ident <- pop_first ;;
   declarator <- Declarator_process ;;
   match declarator with
   | None =>
       (tokens <- get_tokens ;;
        raise (ParsingException NDeclarator (join " " tokens) []))
   | Some declarator =>
       ret (mk_Declaration type_qualifier (mk_MultiIdent ident) declarator)
   end)%store.

Definition Declaration_process : M (option Declaration) :=
  (tokens <- get_tokens ;;
   match Declaration_check tokens with
   | Some _ => (node <- Declaration_assemble ;; ret (Some node))
   | None => ret None
   end)%store.

Definition Declaration_str (self : Declaration) : str :=
  join " "
    (match type_qualifier self with
     | Some q => [Qualifier_str q]
     | None => []
     end
     ++ [name (type_specifier self)]
     ++ [Declarator_str (declarator self)]).

(** ** [Signature] *)

Record Signature := mk_Signature {
  return_type_qualifier : option Qualifier;
  return_type : MultiIdent;
  return_declarator : Declarator;
  params : list (VariantNode + Declaration)
}.

Definition Signature_check (variant : str) : option (str * str) :=
  if negb (ends_with ");" variant) then None
  else
    let opening := str_find "(" variant in
    let closing := (-2)%Z in
    let prefix := py_slice 0 opening variant in
    let params := py_slice (opening + 1) closing variant in
    Some (prefix, params).

(** The head of [Signature.assemble], on its own token list. *)
Definition Signature_assemble_prefix : M (option Qualifier * MultiIdent * Declarator) :=
  (token <- first_token ;;
   type_qualifier <- lift (Qualifier_process token) ;;
   match type_qualifier with
   | Some _ => del_tokens 1
   | None => ret tt
   end ;;
   ret_type <- pop_first ;;
   declarator <- Declarator_process ;;
   match declarator with
   | None =>
       (prefix_tokens <- get_tokens ;;
        raise (ParsingException NDeclarator (join " " prefix_tokens) []))
   | Some declarator => ret (type_qualifier, mk_MultiIdent ret_type, declarator)
   end)%store.

(** The fragments the parameter loop runs over: [params.split(",")]. *)
Definition Signature_param_fragments (params : str) : list str :=
  str_split "," params.

(** One turn of the parameter loop. [param_tokens] is a fresh list that
    nothing reads after [Declaration.process]. *)
Definition Signature_assemble_param (param : str) : result (VariantNode + Declaration) :=
  let param_tokens := tokenize (strip param) in
  match fst (Declaration_process param_tokens) with
  | Raise e => Raise e
  | Ok (Some parsed) => Ok (inr parsed)
  | Ok None =>
      match Variant_process param with
      | Raise e => Raise e
      | Ok (Some parsed) => Ok (inl parsed)
      | Ok None => Raise (ParsingException NDeclaration param [])
      end
  end.

Definition Signature_assemble (data : str * str) : result Signature :=
  let (prefix, params) := data in
  let prefix_tokens := split_on_level prefix " " in
  (head <- fst (Signature_assemble_prefix prefix_tokens) ;;
   let '(type_qualifier, ret_type, declarator) := head in
   parsed_params <- mapM Signature_assemble_param (Signature_param_fragments params) ;;
   Ok (mk_Signature type_qualifier ret_type declarator parsed_params))%result.

(** [AssembleAst.process] *)
Definition Signature_process (variant : str) : result (option Signature) :=
  match Signature_check variant with
  | Some ir => (node <- Signature_assemble ir ;; Ok (Some node))%result
  | None => Ok None
  end.

Definition param_str (p : VariantNode + Declaration) : str :=
  match p with
  | inl v => Variant_str v
  | inr d => Declaration_str d
  end.

Definition Signature_str (self : Signature) : str :=
  join " "
    (match return_type_qualifier self with
     | Some q => [Qualifier_str q]
     | None => []
     end
     ++ [name (return_type self)]
     ++ [Declarator_str (return_declarator self)]
     ++ ["(" ++ join ", " (map param_str (params self)) ++ ");"]).

(** [TestSignatureParsing.parse_declaration_helper] of the tests. *)
Definition parse_declaration_helper (code : str) : result (option Declaration) :=
  fst (Declaration_process (tokenize code)).

(** A declarator with the pointers [p] and the identifier [n]. *)
Definition plain (p : list Pointer) (n : string) : Declarator :=
  mk_Declarator p (mk_MultiIdent n).

(** * Definitions used to state the properties *)

(** The product in the order the specification names: the choices of the
    first list are the outer loop, so the last list varies fastest. *)
Fixpoint lex_product (A : Type) (pools : list (list A)) : list (list A) :=
  match pools with
  | [] => [[]]
  | pool :: rest =>
      flat_map (fun x => map (cons x) (lex_product rest)) pool
  end.

(** [xs[0], ys[0], xs[1], ys[1], ...], ending with the element of [xs]
    that has no partner. *)
Fixpoint alternate (A : Type) (xs ys : list A) : list A :=
  match xs with
  | [] => []
  | x :: xs' =>
      x :: match ys with
           | [] => []
           | y :: ys' => y :: alternate xs' ys'
           end
  end.

(** Ranges that follow one another from [lo] on inside a string of
    length [len]: each opens before it closes, and the next one opens
    after it. *)
Fixpoint ordered_ranges (lo : nat) (ranges : list (nat * nat)) (len : nat) : Prop :=
  match ranges with
  | [] => lo <= len
  | (s, e) :: rest => lo <= s /\ s < e /\ e < len /\ ordered_ranges (S e) rest len
  end.

(** The delimiter characters the loop is fed: increasing indices from
    [pos] on, below [len]. *)
Fixpoint items_from (pos len : nat) (items : list (nat * ascii)) : Prop :=
  match items with
  | [] => True
  | (i, c) :: rest => pos <= i /\ i < len /\ items_from (S i) len rest
  end.

(** The ranges of the static parts, from the bounds of the groups: the
    computation of [invert_variant_enumeration_ranges]. *)
Definition static_ranges (bounds : list Z) : list (Z * Z) :=
  map (fun end_start => ((fst end_start + 1)%Z, snd end_start))
      (islice_step2 (pairwise bounds)).

(** [tuple(enumeration_variants(enum))]: the variant list of one group. *)
Definition group_variants (enumeration : str) : result (list str) :=
  rbind (enumeration_variants enumeration) (@collect str).

(** The characters the specification lists: [A]-[Z], underscore, comma,
    space and the four delimiters. *)
Definition allowed_char (c : ascii) : Prop :=
  (ord "A" <= ord c <= ord "Z")
  \/ c = "_"%char \/ c = ","%char \/ c = " "%char
  \/ c = "{"%char \/ c = "}"%char \/ c = "["%char \/ c = "]"%char.

(** The same as a test. *)
Definition allowed_charb (c : ascii) : bool :=
  ((ord "A" <=? ord c) && (ord c <=? ord "Z"))
  || Ascii.eqb c "_" || Ascii.eqb c "," || Ascii.eqb c " "
  || Ascii.eqb c "{" || Ascii.eqb c "}" || Ascii.eqb c "[" || Ascii.eqb c "]".

(** A digit or a lowercase letter. *)
Definition digit_or_lowercase (c : ascii) : Prop :=
  (ord "0" <= ord c <= ord "9") \/ (ord "a" <= ord c <= ord "z").

(** Case analysis on the 256 characters. *)
Ltac each_ascii c :=
  destruct c as [[|] [|] [|] [|] [|] [|] [|] [|]].

(** A result is a construct mismatch on [text] when it is the classified
    failure of the parsers, carrying [text] as the offending content. *)
Definition is_construct_mismatch (A : Type) (r : result A) (text : str) : Prop :=
  exists node note, r = Raise (ParsingException node text note).

(** Every string of [l1] occurs in [l2]. *)
Definition incl_b (l1 l2 : list str) : bool :=
  forallb (fun x => existsb (str_eqb x) l2) l1.

(** The sixteen identifiers in the order of the repository's test. *)
Definition Uniform_identifiers : list str :=
  lits ["Uniform1i"; "Uniform2i"; "Uniform3i"; "Uniform4i";
        "Uniform1f"; "Uniform2f"; "Uniform3f"; "Uniform4f";
        "Uniform1d"; "Uniform2d"; "Uniform3d"; "Uniform4d";
        "Uniform1ui"; "Uniform2ui"; "Uniform3ui"; "Uniform4ui"].

(** The prototype of the repository's signature test. *)
Definition DrawRangeElements : str :=
  "void DrawRangeElements(enum mode, uint start, uint end, sizei count, enum type, const void *indices);".

(** [Signature.process(str(node))] for the node of a first parse. *)
Definition reparse (r : result (option Signature)) : result (option Signature) :=
  match r with
  | Ok (Some node) => Signature_process (Signature_str node)
  | other => other
  end.

(** [str(node)] for the node of a parse. *)
Definition printed (r : result (option Signature)) : result string :=
  match r with
  | Ok (Some node) => Ok (string_of_list_ascii (Signature_str node))
  | Ok None => Ok ""%string
  | Raise e => Raise e
  end.

(** * Definitions used to state the further properties *)

(** The delimiter characters of a fragment, in order. *)
Definition delimiters (variant : str) : list ascii :=
  filter (fun c => mem c ALL_TOKENS) variant.

(** A string without any of the four delimiter characters. *)
Definition no_delimiter (s : str) : Prop :=
  forall c, In c s -> mem c ALL_TOKENS = false.

(** The nesting depth behind a character: an opening delimiter adds one
    level, a closing one takes one away. *)
Definition level_step (depth : Z) (c : ascii) : Z :=
  let depth := if mem c START_TOKENS then (depth + 1)%Z else depth in
  if mem c END_TOKENS then (depth - 1)%Z else depth.

(** The nesting depth behind a text. *)
Definition level_after (depth : Z) (s : str) : Z := fold_left level_step s depth.

(** No separator of the text stands at nesting depth zero. *)
Fixpoint separators_nested (sep : ascii) (depth : Z) (s : str) : bool :=
  match s with
  | [] => true
  | c :: rest =>
      negb ((level_step depth c =? 0)%Z && Ascii.eqb c sep)
      && separators_nested sep (level_step depth c) rest
  end.

(** An entry of a group: its commas are all inside nested groups, and it
    closes as many groups as it opens. *)
Definition level_entry (s : str) : bool :=
  separators_nested "," 0 s && (level_after 0 s =? 0)%Z.

(** [split_on_level] without the indices: the pieces of [s], the first of
    them begun with [piece]. *)
Fixpoint split_level_pieces (sep : ascii) (depth : Z) (piece s : str) : list str :=
  match s with
  | [] => [piece]
  | c :: rest =>
      if (level_step depth c =? 0)%Z && Ascii.eqb c sep
      then piece :: split_level_pieces sep (level_step depth c) [] rest
      else split_level_pieces sep (level_step depth c) (piece ++ [c]) rest
  end.

(** A word: not empty, without whitespace and without a star. *)
Definition is_word (t : str) : Prop :=
  t <> [] /\ forall c, In c t -> is_space c = false /\ c <> "*"%char.

(** What [tokenize] keeps of the pieces of [re.split]. *)
Definition keep_token (token : str) : bool := negb (str_eqb (strip token) []).

(** The pieces of [re.split]: the star, runs of whitespace, and texts free
    of both. *)
Inductive piece_kind (t : str) : Prop :=
  | piece_star : t = ["*"%char] -> piece_kind t
  | piece_space : (forall c, In c t -> is_space c = true) -> piece_kind t
  | piece_text : (forall c, In c t -> is_space c = false /\ c <> "*"%char) ->
                 piece_kind t.

(** The token lists of the declarator grammar: for each pointer level a
    star followed by the words of its qualifiers. *)
Definition pointer_tokens (levels : list (list str)) : list str :=
  flat_map (fun words => ["*"%char] :: words) levels.

(** The pointers that are built from these levels; every qualifier node
    holds the one member of [_Qualifier]. *)
Definition pointer_nodes (levels : list (list str)) : list Pointer :=
  map (fun words => mk_Pointer (map (fun _ => mk_Qualifier Const) words)) levels.

(** The token lists of the declaration grammar: an optional qualifier,
    the type, the pointer levels and the identifier. *)
Definition declaration_tokens
    (q : option str) (type : str) (levels : list (list str)) (identifier : str)
    : list str :=
  match q with
  | Some word => [word]
  | None => []
  end ++ [type] ++ pointer_tokens levels ++ [identifier].

(** The node of such a token list. *)
Definition declaration_node
    (q : option str) (type : str) (levels : list (list str)) (identifier : str)
    : Declaration :=
  mk_Declaration
    (match q with
     | Some _ => Some (mk_Qualifier Const)
     | None => None
     end)
    (mk_MultiIdent type)
    (mk_Declarator (pointer_nodes levels) (mk_MultiIdent identifier)).

(** The conditions under which the token list reads as the grammar says:
    the qualifier words are qualifiers, a type that stands first is not
    one, the identifier is not the star, and an identifier behind a
    pointer level is not a qualifier. *)
Definition grammar_conditions
    (q : option str) (type : str) (levels : list (list str)) (identifier : str)
    : Prop :=
  match q with
  | Some word => Qualifier_check word = true
  | None => Qualifier_check type = false
  end
  /\ Forall (Forall (fun word => Qualifier_check word = true)) levels
  /\ identifier <> ["*"%char]
  /\ (levels <> [] -> Qualifier_check identifier = false).

(** The pointer levels as they are printed: every qualifier as [const]. *)
Definition printed_levels (levels : list (list str)) : list (list str) :=
  map (map (fun _ => list_ascii_of_string "const")) levels.

(** * More of the source *)

(** [s.startswith(prefix)] *)
Fixpoint starts_with (prefix s : str) : bool :=
  match prefix, s with
  | [], _ => true
  | p :: prefix', c :: s' => Ascii.eqb p c && starts_with prefix' s'
  | _ :: _, [] => false
  end.

(** [s.removeprefix(prefix)] *)
Definition removeprefix (prefix s : str) : str :=
  if starts_with prefix s then skipn (length prefix) s else s.

(** [s.rfind(c)], -1 when [c] does not occur. *)
Fixpoint rfind_from (c : ascii) (s : str) (i last : Z) : Z :=
  match s with
  | [] => last
  | x :: rest => rfind_from c rest (i + 1)%Z (if Ascii.eqb x c then i else last)
  end.

Definition str_rfind (c : ascii) (s : str) : Z := rfind_from c s 0%Z (-1)%Z.

(** [s.find(sub)] for a string [sub], -1 when it does not occur. *)
Fixpoint find_sub_from (sub s : str) (i : Z) : Z :=
  if starts_with sub s then i
  else match s with
       | [] => (-1)%Z
       | _ :: rest => find_sub_from sub rest (i + 1)%Z
       end.

Definition str_find_sub (sub s : str) : Z := find_sub_from sub s 0%Z.

(** ** [AssociatedGet] *)

Record AssociatedGet := mk_AssociatedGet { param_name : str }.

Definition AssociatedGet_check (line : str) : bool :=
  starts_with "Enable/Disable/IsEnabled" line.

Definition AssociatedGet_parse (line : str) : AssociatedGet :=
  mk_AssociatedGet (py_slice (str_find "(" line + 1) (str_rfind ")" line) line).

(** [ParseAst.process] *)
Definition AssociatedGet_process (line : str) : option AssociatedGet :=
  if AssociatedGet_check line then Some (AssociatedGet_parse line) else None.

Definition AssociatedGet_str (self : AssociatedGet) : str :=
  "Enable/Disable/IsEnabled(" ++ param_name self ++ ");".

(** ** [SeeDelegation] and [SeeParamDelegation] *)

Record SeeDelegation := mk_SeeDelegation { multi_ident : MultiIdent }.

Definition SeeDelegation_check (variant : str) : option (list str) :=
  let tokens := str_split " " variant in
  if negb (length tokens =? 2) then None
  else
    match tokens with
    | [] => None
    | first :: _ => if negb (str_eqb first "See") then None else Some tokens
    end.

(** [tokens[1]] is there by the check; [IndexError] otherwise. *)
Definition SeeDelegation_assemble (tokens : list str) : result SeeDelegation :=
  match nth_error tokens 1 with
  | Some t => Ok (mk_SeeDelegation (mk_MultiIdent t))
  | None => Raise IndexError
  end.

(** [AssembleAst.process] *)
Definition SeeDelegation_process (variant : str) : result (option SeeDelegation) :=
  match SeeDelegation_check variant with
  | Some ir => (node <- SeeDelegation_assemble ir ;; Ok (Some node))%result
  | None => Ok None
  end.

Definition SeeDelegation_str (self : SeeDelegation) : str :=
  "See " ++ name (multi_ident self).

Record SeeParamDelegation := mk_SeeParamDelegation {
  param : MultiIdent;
  target : MultiIdent
}.

Definition SeeParamDelegation_check (variant : str) : option (list str) :=
  let tokens := str_split " " variant in
  if negb (length tokens =? 4) then None
  else
    match nth_error tokens 0, nth_error tokens 2 with
    | Some first, Some third =>
        if negb (str_eqb first "See") then None
        else if negb (str_eqb third "for") then None
        else Some tokens
    | _, _ => None
    end.

(** [[_, param, _, target] = tokens] *)
Definition SeeParamDelegation_assemble (tokens : list str) : result SeeParamDelegation :=
  match tokens with
  | [_; param; _; target] =>
      Ok (mk_SeeParamDelegation (mk_MultiIdent param) (mk_MultiIdent target))
  | _ => Raise ValueError
  end.

Definition SeeParamDelegation_process (variant : str) : result (option SeeParamDelegation) :=
  match SeeParamDelegation_check variant with
  | Some ir => (node <- SeeParamDelegation_assemble ir ;; Ok (Some node))%result
  | None => Ok None
  end.

Definition SeeParamDelegation_str (self : SeeParamDelegation) : str :=
  "See " ++ name (param self) ++ " for " ++ name (target self).

(** ** [Bitwise] *)

Record Bitwise := mk_Bitwise {
  all_flag : option str;
  flags : list str
}.

Definition Bitwise_check (variant : str) : bool :=
  starts_with "bitwise OR of" variant.

(** The exceptions of the constructs below: those of the expansion, as
    they come, and the [ParsingException] that names one of these
    constructs. *)
Inductive construct := CBitwise | CSectionNumber | CSectionNumbers.

Inductive failure :=
  | Propagated (e : exn)
  | ParsingFailure (node : construct) (content : str) (note : str).

Inductive outcome (A : Type) :=
  | Built (a : A)
  | Failed (f : failure).
Arguments Failed {A} f.

Definition Bitwise_parse (variant : str) : outcome Bitwise :=
  let inner := removeprefix "bitwise OR of " variant in
  let '(all_flag, inner) :=
    if starts_with "all " inner then
      let end_ := str_find_sub " specific " inner in
      (Some (py_slice 4 end_ inner), py_slice_from (end_ + 10) inner)
    else (None, inner) in
  match Variant_process inner with
  | Raise e => Failed (Propagated e)
  | Ok None => Failed (ParsingFailure CBitwise variant [])
  | Ok (Some result) => Built (mk_Bitwise all_flag (variants result))
  end.

Definition Bitwise_process (variant : str) : outcome (option Bitwise) :=
  if Bitwise_check variant
  then match Bitwise_parse variant with
       | Built node => Built (Some node)
       | Failed f => Failed f
       end
  else Built None.

Definition Bitwise_str (self : Bitwise) : str :=
  "bitwise OR of "
  ++ match all_flag self with
     | Some flag => "all " ++ flag ++ " specific "
     | None => []
     end
  ++ join ", " (flags self).

(** The characters of a flag name: the capital letters and the
    underscore. *)
Definition is_flag_char (c : ascii) : bool :=
  ((ord "A" <=? ord c) && (ord c <=? ord "Z")) || Ascii.eqb c "_".

Definition is_flag (flag : str) : bool := forallb is_flag_char flag.

(** ** The preprocessor: [inline_func_signatures] *)

(** The variables of the loop: [buffer], [result] and
    [look_for_matching_parenthesis]. *)
Definition inline_state : Type := list str * list str * bool.

(** One turn of the loop over the lines. *)
Definition inline_step (st : inline_state) (line : str) : inline_state :=
  let '(buffer, result, look_for_matching_parenthesis) := st in
  let look_for_matching_parenthesis :=
    if mem "(" line then true else look_for_matching_parenthesis in
  let '(buffer, result) :=
    if negb look_for_matching_parenthesis
    then (buffer, result ++ [line])
    else (buffer ++ [line], result) in
  if mem ")" line
  then ([], result ++ [join [] buffer], false)
  else (buffer, result, look_for_matching_parenthesis).

Definition inline_func_signatures (lines : list str) : list str :=
  let '(_, result, _) := fold_left inline_step lines ([], [], false) in
  result.

(** The lines in front of the first one that holds an opening
    parenthesis. *)
Fixpoint lines_before_opening (lines : list str) : list str :=
  match lines with
  | [] => []
  | line :: rest => if mem "(" line then [] else line :: lines_before_opening rest
  end.

(** The string form of a signature in front of its parameter list. *)
Definition Signature_head (self : Signature) : str :=
  join " "
    (match return_type_qualifier self with
     | Some q => [Qualifier_str q]
     | None => []
     end
     ++ [name (return_type self)]
     ++ [Declarator_str (return_declarator self)]).

(** ** Regular expressions *)

(** The patterns of the source, with the language they denote; [\d] is
    [Digit]. [fullmatch] decides the language by derivatives. *)
Inductive regex :=
  | Void
  | Eps
  | Chr (c : ascii)
  | Digit
  | Seq (r s : regex)
  | Alt (r s : regex)
  | Star (r : regex).

Definition Plus (r : regex) : regex := Seq r (Star r).
Definition Opt (r : regex) : regex := Alt r Eps.

Definition is_digit (c : ascii) : bool :=
  (ord "0" <=? ord c) && (ord c <=? ord "9").

Inductive matches : regex -> str -> Prop :=
  | m_eps : matches Eps []
  | m_chr c : matches (Chr c) [c]
  | m_digit c : is_digit c = true -> matches Digit [c]
  | m_seq r s u v : matches r u -> matches s v -> matches (Seq r s) (u ++ v)
  | m_alt_l r s u : matches r u -> matches (Alt r s) u
  | m_alt_r r s u : matches s u -> matches (Alt r s) u
  | m_star_nil r : matches (Star r) []
  | m_star_cons r u v : matches r u -> matches (Star r) v -> matches (Star r) (u ++ v).

Fixpoint nullable (r : regex) : bool :=
  match r with
  | Void | Chr _ | Digit => false
  | Eps | Star _ => true
  | Seq r s => nullable r && nullable s
  | Alt r s => nullable r || nullable s
  end.

Fixpoint deriv (c : ascii) (r : regex) : regex :=
  match r with
  | Void | Eps => Void
  | Chr x => if Ascii.eqb x c then Eps else Void
  | Digit => if is_digit c then Eps else Void
  | Seq r s =>
      if nullable r then Alt (Seq (deriv c r) s) (deriv c s)
      else Seq (deriv c r) s
  | Alt r s => Alt (deriv c r) (deriv c s)
  | Star r => Seq (deriv c r) (Star r)
  end.

(** [pattern.fullmatch(s) is not None] *)
Definition fullmatch (pattern : regex) (s : str) : bool :=
  nullable (fold_left (fun r c => deriv c r) s pattern).

(** ** [int] and [str] of an integer *)

(** The digits of [int(s)]: single underscores may stand between
    digits. *)
Fixpoint digits_value (s : str) (after_digit : bool) (acc : Z) : option Z :=
  match s with
  | [] => if after_digit then Some acc else None
  | c :: rest =>
      if is_digit c
      then digits_value rest true (10 * acc + (Z.of_nat (ord c) - Z.of_nat (ord "0")))%Z
      else if Ascii.eqb c "_" && after_digit then digits_value rest false acc
      else None
  end.

(** The largest number of digits that [int] reads and [str] writes
    ([sys.get_int_max_str_digits()], as the interpreter starts). *)
Definition int_max_str_digits : nat := 4300.

(** [int(s)]: surrounding whitespace and a sign are allowed; anything
    else, and more digits than the limit, raise [ValueError]. *)
Definition py_int (s : str) : result Z :=
  let '(sign, body) :=
    match strip s with
    | "+"%char :: body => (1%Z, body)
    | "-"%char :: body => ((-1)%Z, body)
    | body => (1%Z, body)
    end in
  match digits_value body false 0%Z with
  | Some v =>
      if int_max_str_digits <? length (filter is_digit body)
      then Raise ValueError
      else Ok (sign * v)%Z
  | None => Raise ValueError
  end.

(** The decimal digits of a natural number. *)
Definition decimal (n : Z) : str :=
  list_ascii_of_string (NilZero.string_of_int (Z.to_int (Z.abs n))).

(** [str(n)]: [ValueError] when there are more digits than the limit. *)
Definition int_str (n : Z) : result str :=
  if int_max_str_digits <? length (decimal n) then Raise ValueError
  else Ok ((if (n <? 0)%Z then ["-"%char] else []) ++ decimal n).

(** ** The results of the constructs below *)

Definition obind (A B : Type) (o : outcome A) (k : A -> outcome B) : outcome B :=
  match o with
  | Built a => k a
  | Failed f => Failed f
  end.

Definition of_result (A : Type) (r : result A) : outcome A :=
  match r with
  | Ok a => Built a
  | Raise e => Failed (Propagated e)
  end.

Fixpoint omapM (A B : Type) (f : A -> outcome B) (l : list A) : outcome (list B) :=
  match l with
  | [] => Built []
  | a :: rest =>
      obind (f a) (fun b => obind (omapM f rest) (fun bs => Built (b :: bs)))
  end.

(** [s.split(sep)] for a separator of one character or more: the pieces
    between the occurrences of [sep], found from the left. [skip] counts
    the characters of an occurrence that are still to pass. *)
Fixpoint split_str_loop (sep s piece : str) (skip : nat) : list str :=
  match s with
  | [] => [piece]
  | c :: rest =>
      match skip with
      | S k => split_str_loop sep rest piece k
      | O =>
          if starts_with sep s
          then piece :: split_str_loop sep rest [] (length sep - 1)
          else split_str_loop sep rest (piece ++ [c]) 0
      end
  end.

Definition str_split_str (sep s : str) : list str := split_str_loop sep s [] 0.

(** ** [SectionNumber] *)

(** An element of a path: an [int] or a [range]. *)
Inductive stage :=
  | StageInt (n : Z)
  | StageRange (start stop : Z).

Record SectionNumber := mk_SectionNumber { path : list stage }.

(** The pattern of [SectionNumber.matcher]: digits, then any number of
    groups of a dot, digits and optionally a hyphen and digits. *)
Definition SectionNumber_matcher : regex :=
  Seq (Plus Digit)
      (Star (Seq (Chr ".") (Seq (Plus Digit) (Opt (Seq (Chr "-") (Plus Digit)))))).

Definition SectionNumber_check (variant : str) : bool :=
  fullmatch SectionNumber_matcher variant.

Definition SectionNumber_parse_stage (s : str) : outcome stage :=
  match str_split "-" s with
  | [number] => obind (of_result (py_int number)) (fun n => Built (StageInt n))
  | [start; end_] =>
      obind (of_result (py_int start)) (fun a =>
      obind (of_result (py_int end_)) (fun b => Built (StageRange a b)))
  | _ => Failed (ParsingFailure CSectionNumber s [])
  end.

Definition SectionNumber_parse (variant : str) : outcome SectionNumber :=
  obind (omapM SectionNumber_parse_stage (str_split "." variant))
        (fun stages => Built (mk_SectionNumber stages)).

Definition SectionNumber_process (variant : str) : outcome (option SectionNumber) :=
  if SectionNumber_check variant
  then obind (SectionNumber_parse variant) (fun node => Built (Some node))
  else Built None.

Definition stage_str (elem : stage) : result str :=
  match elem with
  | StageInt n => int_str n
  | StageRange start stop =>
      (a <- int_str start ;; b <- int_str stop ;; Ok (a ++ "-" ++ b))%result
  end.

Definition SectionNumber_str (self : SectionNumber) : result str :=
  (stages <- mapM stage_str (path self) ;; Ok (join "." stages))%result.

(** ** [SectionNumbers] *)

Record SectionNumbers := mk_SectionNumbers { numbers : list SectionNumber }.

Definition SectionNumbers_check (variant : str) : option (list str) :=
  let tokens := str_split_str ", " variant in
  if existsb (fun number => negb (SectionNumber_check number)) tokens
  then None
  else Some tokens.

Definition SectionNumbers_assemble (stages : list str) : outcome SectionNumbers :=
  obind (omapM SectionNumber_parse stages)
        (fun nodes => Built (mk_SectionNumbers nodes)).

Definition SectionNumbers_process (variant : str) : outcome (option SectionNumbers) :=
  match SectionNumbers_check variant with
  | Some ir => obind (SectionNumbers_assemble ir) (fun node => Built (Some node))
  | None => Built None
  end.

Definition SectionNumbers_str (self : SectionNumbers) : result str :=
  (texts <- mapM SectionNumber_str (numbers self) ;; Ok (join ", " texts))%result.

(** ** [TableDelegation] *)

Record TableDelegation := mk_TableDelegation { table_numbers : SectionNumbers }.

Definition TableDelegation_check (variant : str) : bool :=
  if negb (starts_with "[Table" variant) then false
  else if negb (ends_with "]" variant) then false
  else true.

Definition TableDelegation_parse (variant : str) : outcome TableDelegation :=
  let trim := if starts_with "[Tables" variant then 8%Z else 7%Z in
  obind (SectionNumbers_process (py_slice trim (-1) variant)) (fun numbers =>
  match numbers with
  | None => Failed (ParsingFailure CSectionNumbers variant [])
  | Some numbers => Built (mk_TableDelegation numbers)
  end).

Definition TableDelegation_process (variant : str) : outcome (option TableDelegation) :=
  if TableDelegation_check variant
  then obind (TableDelegation_parse variant) (fun node => Built (Some node))
  else Built None.

Definition TableDelegation_str (self : TableDelegation) : result str :=
  (text <- SectionNumbers_str (table_numbers self) ;;
   Ok (if 1 <? length (numbers (table_numbers self))
       then "[Tables " ++ text ++ "]"
       else "[Table " ++ text ++ "]"))%result.

(** ** [SectionDeclaration] *)

Record SectionDeclaration := mk_SectionDeclaration {
  section_name : str;
  section_numbers : SectionNumbers
}.

Definition SectionDeclaration_check (variant : str) : option (str * str) :=
  if negb (forallb (fun section_sep => mem section_sep variant) ["["%char; "]"%char])
  then None
  else
    let name := py_slice 0 (str_find "[" variant - 1) variant in
    let number := py_slice (str_find "[" variant + 1) (-1) variant in
    Some (name, number).

Definition SectionDeclaration_assemble (name_numbers : str * str)
    : outcome SectionDeclaration :=
  let (name, numbers_str) := name_numbers in
  obind (SectionNumbers_process numbers_str) (fun numbers =>
  match numbers with
  | None => Failed (ParsingFailure CSectionNumbers numbers_str [])
  | Some numbers => Built (mk_SectionDeclaration name numbers)
  end).

Definition SectionDeclaration_process (variant : str)
    : outcome (option SectionDeclaration) :=
  match SectionDeclaration_check variant with
  | Some ir => obind (SectionDeclaration_assemble ir) (fun node => Built (Some node))
  | None => Built None
  end.

(** The string form of a declaration with its numbers. *)
Definition SectionDeclaration_str (self : SectionDeclaration) : result str :=
  (text <- SectionNumbers_str (section_numbers self) ;;
   Ok (section_name self ++ " [" ++ text ++ "]"))%result.

(** A number: one digit or more. *)
Definition is_number (s : str) : bool :=
  negb (length s =? 0) && forallb is_digit s.

(** A stage behind the first: a number, or two numbers with a hyphen
    between them. *)
Definition is_stage (s : str) : Prop :=
  is_number s = true
  \/ exists a b, s = a ++ "-" ++ b /\ is_number a = true /\ is_number b = true.

(** The value of a number. *)
Definition number_value (s : str) : Z :=
  fold_left (fun acc c => (10 * acc + (Z.of_nat (ord c) - Z.of_nat (ord "0")))%Z) s 0%Z.

(** The path element that a stage stands for. *)
Definition stage_of (s : str) : stage :=
  match str_split "-" s with
  | [start; end_] => StageRange (number_value start) (number_value end_)
  | _ => StageInt (number_value s)
  end.

(** The nodes whose string form reads back: no negative number, and a
    path that begins with a number. *)
Definition stage_ok (elem : stage) : Prop :=
  match elem with
  | StageInt n => (0 <= n)%Z
  | StageRange start stop => (0 <= start)%Z /\ (0 <= stop)%Z
  end.

Definition SectionNumber_ok (node : SectionNumber) : Prop :=
  match path node with
  | StageInt n :: rest => (0 <= n)%Z /\ Forall stage_ok rest
  | _ => False
  end.

Definition SectionNumbers_ok (node : SectionNumbers) : Prop :=
  numbers node <> [] /\ Forall SectionNumber_ok (numbers node).

(** Evaluates the digits that stand in a goal. *)
Ltac digit_value :=
  repeat match goal with
  | |- context [(Z.of_nat (ord ?c) - Z.of_nat (ord "0"%char))%Z] =>
      let v := eval vm_compute in (Z.of_nat (ord c) - Z.of_nat (ord "0"%char))%Z in
      change (Z.of_nat (ord c) - Z.of_nat (ord "0"%char))%Z with v
  end.

(** ** [LodLevel] and [parse_variant] *)

Inductive LodLevel := mk_LodLevel.

Definition LodLevel_check (variant : str) : bool := str_eqb variant "LOD level".

Definition LodLevel_parse (variant : str) : LodLevel := mk_LodLevel.

Definition LodLevel_process (variant : str) : option LodLevel :=
  if LodLevel_check variant then Some (LodLevel_parse variant) else None.

Definition LodLevel_str (self : LodLevel) : str := "LOD level".

(** [Enumeration]: the union of the node types. *)
Inductive Enumeration :=
  | EVariant (node : VariantNode)
  | ESeeParamDelegation (node : SeeParamDelegation)
  | ESeeDelegation (node : SeeDelegation)
  | ETableDelegation (node : TableDelegation)
  | EBitwise (node : Bitwise)
  | ELodLevel (node : LodLevel).

(** [node_type.process(variant)] of a node type, as a member of the
    union. *)
Definition processor (A : Type) (wrap : A -> Enumeration)
    (process : str -> outcome (option A)) (variant : str)
    : outcome (option Enumeration) :=
  obind (process variant) (fun r => Built (option_map wrap r)).

Definition node_types : list (str -> outcome (option Enumeration)) :=
  [ processor EVariant (fun v => of_result (Variant_process v));
    processor ESeeParamDelegation (fun v => of_result (SeeParamDelegation_process v));
    processor ESeeDelegation (fun v => of_result (SeeDelegation_process v));
    processor ETableDelegation TableDelegation_process;
    processor EBitwise Bitwise_process;
    processor ELodLevel (fun v => Built (LodLevel_process v)) ].

Definition unsupported_variant (variant : str) : outcome Enumeration :=
  Failed (Propagated (ParsingException NVariant variant [])).

(** The loop of [parse_variant] over the node types: the first node that
    a type builds is returned (every node is true as a condition). *)
Fixpoint parse_variant_loop
    (types : list (str -> outcome (option Enumeration)))
    (fallback : str -> outcome Enumeration) (variant : str) : outcome Enumeration :=
  match types with
  | [] => fallback variant
  | node_type :: rest =>
      obind (node_type variant) (fun result =>
      match result with
      | Some result => Built result
      | None => parse_variant_loop rest fallback variant
      end)
  end.

Definition parse_variant_with (fallback : str -> outcome Enumeration) (variant : str)
    : outcome Enumeration :=
  parse_variant_loop node_types fallback variant.

Definition parse_variant (variant : str) : outcome Enumeration :=
  parse_variant_with unsupported_variant variant.

(** * The tests of the repository, on the embedding *)

(** The example of the specification. *)
Example expand_two_groups :
  show (expand_variant "A{B,C}D{E,F}") = Ok ["ABDE"; "ABDF"; "ACDE"; "ACDF"]%string.
Proof. vm_compute. reflexivity. Qed.

(** [tests.py], the expander. *)
Example test_split :
  show (idents (mk_MultiIdent "Uniform{1234}{i f d ui}")) =
  Ok ["Uniform1i"; "Uniform1f"; "Uniform1d"; "Uniform1ui";
      "Uniform2i"; "Uniform2f"; "Uniform2d"; "Uniform2ui";
      "Uniform3i"; "Uniform3f"; "Uniform3d"; "Uniform3ui";
      "Uniform4i"; "Uniform4f"; "Uniform4d"; "Uniform4ui"]%string.
Proof. vm_compute. reflexivity. Qed.

Example test_nested_parsing :
  show (rbind (Variant_parse
    "[UN]PACK_{SWAP_BYTES, LSB_FIRST, ROW_LENGTH, SKIP_{IMAGES, PIXELS, ROWS}, ALIGNMENT, IMAGE_HEIGHT, COMPRESSED_BLOCK_WIDTH, COMPRESSED_BLOCK_{HEIGHT, DEPTH, SIZE}}")
    (fun node => Ok (variants node))) =
  Ok ["PACK_SWAP_BYTES"; "PACK_LSB_FIRST"; "PACK_ROW_LENGTH";
      "PACK_SKIP_IMAGES"; "PACK_SKIP_PIXELS"; "PACK_SKIP_ROWS";
      "PACK_ALIGNMENT"; "PACK_IMAGE_HEIGHT"; "PACK_COMPRESSED_BLOCK_WIDTH";
      "PACK_COMPRESSED_BLOCK_HEIGHT"; "PACK_COMPRESSED_BLOCK_DEPTH";
      "PACK_COMPRESSED_BLOCK_SIZE";
      "UNPACK_SWAP_BYTES"; "UNPACK_LSB_FIRST"; "UNPACK_ROW_LENGTH";
      "UNPACK_SKIP_IMAGES"; "UNPACK_SKIP_PIXELS"; "UNPACK_SKIP_ROWS";
      "UNPACK_ALIGNMENT"; "UNPACK_IMAGE_HEIGHT"; "UNPACK_COMPRESSED_BLOCK_WIDTH";
      "UNPACK_COMPRESSED_BLOCK_HEIGHT"; "UNPACK_COMPRESSED_BLOCK_DEPTH";
      "UNPACK_COMPRESSED_BLOCK_SIZE"]%string.
Proof. vm_compute. reflexivity. Qed.

Example test_bitflags_list :
  show (rbind (Variant_parse
    "TESS_{CONTROL, EVALUATION}_SHADER_BIT, {VERTEX, GEOMETRY, FRAGMENT}_SHADER_BIT, COMPUTE_SHADER_BIT")
    (fun node => Ok (variants node))) =
  Ok ["TESS_CONTROL_SHADER_BIT"; "TESS_EVALUATION_SHADER_BIT";
      "VERTEX_SHADER_BIT"; "GEOMETRY_SHADER_BIT"; "FRAGMENT_SHADER_BIT";
      "COMPUTE_SHADER_BIT"]%string.
Proof. vm_compute. reflexivity. Qed.

(** [tests.py], the declaration and signature parsers. *)
Example test_basic :
  parse_declaration_helper "int foo"
  = Ok (Some (mk_Declaration None (mk_MultiIdent "int") (plain [] "foo"))).
Proof. reflexivity. Qed.

Example test_const_return_multiple_pointers :
  parse_declaration_helper "const int *const **foo"
  = Ok (Some (mk_Declaration (Some (mk_Qualifier Const)) (mk_MultiIdent "int")
               (plain [mk_Pointer [mk_Qualifier Const]; mk_Pointer []; mk_Pointer []]
                      "foo"))).
Proof. reflexivity. Qed.

Example test_pointer :
  parse_declaration_helper "int* foo"
  = Ok (Some (mk_Declaration None (mk_MultiIdent "int") (plain [mk_Pointer []] "foo"))).
Proof. reflexivity. Qed.

Example test_enumerated_param :
  Signature_process "void GetIntegerv(TIMESTAMP, int *data);"
  = Ok (Some (mk_Signature None (mk_MultiIdent "void") (plain [] "GetIntegerv")
          [inl (mk_Variant (lits ["TIMESTAMP"]));
           inr (mk_Declaration None (mk_MultiIdent "int")
                  (plain [mk_Pointer []] "data"))])).
Proof. vm_compute. reflexivity. Qed.

Example test_multi_indent_func_name :
  rbind (Signature_process "void Uniform{1 2 3 4}{i f d ui}(int locaton, T value);")
        (fun s => match s with
                  | Some s => Ok (name (return_type s),
                                  name (ident (return_declarator s)),
                                  length (params s))
                  | None => Raise ValueError
                  end)
  = Ok ("void" : str, "Uniform{1 2 3 4}{i f d ui}" : str, 2).
Proof. vm_compute. reflexivity. Qed.

(** * Properties *)

(** ** Slices, splits and strips never grow a string *)

Lemma py_slice_length (A : Type) (lo hi : Z) (s : list A) :
  length (py_slice lo hi s) <= length s.
Proof.
  unfold py_slice. rewrite length_firstn, length_skipn.
  etransitivity; [apply Nat.le_min_r | apply Nat.le_sub_l].
Qed.

Lemma py_slice_whole (A : Type) (s : list A) :
  py_slice 0 (Z.of_nat (length s)) s = s.
Proof.
  unfold py_slice, clamp_index. simpl.
  destruct (Z.ltb_spec (Z.of_nat (length s)) 0); [lia|].
  rewrite Z.min_id, Z.min_l by lia. simpl.
  rewrite Z.sub_0_r, Nat2Z.id. apply firstn_all.
Qed.

Lemma py_slice_inner_length (A : Type) (s : list A) :
  s <> [] -> length (py_slice 1 (-1) s) < length s.
Proof.
  intros Hs. destruct s as [|a s]; [congruence|].
  unfold py_slice, clamp_index. rewrite length_firstn, length_skipn.
  cbn [length]. destruct (Z.ltb_spec 1 0); [lia|].
  rewrite Z.min_l by lia. change (Z.to_nat 1) with 1. lia.
Qed.

Lemma lstrip_length (s : str) : length (lstrip s) <= length s.
Proof.
  induction s as [|c s IH]; simpl; [lia|].
  destruct (is_space c); simpl; lia.
Qed.

Lemma strip_length (s : str) : length (strip s) <= length s.
Proof.
  unfold strip, rstrip. rewrite length_rev.
  etransitivity; [apply lstrip_length|].
  rewrite length_rev. apply lstrip_length.
Qed.

Lemma split_on_level_loop_length data sep items start depth :
  Forall (fun piece => length piece <= length data)
         (split_on_level_loop data sep items start depth).
Proof.
  revert start depth.
  induction items as [|[index char] rest IH]; intros start depth; simpl.
  - constructor; [apply py_slice_length | constructor].
  - match goal with |- context [if ?b then _ :: _ else _] => destruct b end.
    + constructor; [apply py_slice_length | apply IH].
    + apply IH.
Qed.

Lemma split_on_level_length data sep :
  Forall (fun piece => length piece <= length data) (split_on_level data sep).
Proof. apply split_on_level_loop_length. Qed.

(** ** [itertools.product] is the lexicographic product *)

Lemma product_step_prefix (A : Type) (pools : list (list A)) (acc : list (list A)) :
  fold_left
    (fun result pool => flat_map (fun x => map (fun y => x ++ [y]) pool) result)
    pools acc
  = flat_map (fun x => map (app x) (lex_product pools)) acc.
Proof.
  revert acc. induction pools as [|pool rest IH]; intros acc; simpl.
  - induction acc as [|x acc IHacc]; simpl; [reflexivity|].
    rewrite app_nil_r, <- IHacc. reflexivity.
  - rewrite IH. clear IH.
    induction acc as [|x acc IHacc]; simpl; [reflexivity|].
    rewrite flat_map_app, IHacc. f_equal. clear IHacc.
    induction pool as [|y pool IHpool]; simpl; [reflexivity|].
    rewrite map_app, IHpool. f_equal.
    rewrite map_map. apply map_ext. intros t.
    rewrite <- app_assoc. reflexivity.
Qed.

Lemma product_lex (A : Type) (pools : list (list A)) :
  product pools = lex_product pools.
Proof.
  unfold product. rewrite product_step_prefix. simpl.
  rewrite app_nil_r, map_id. reflexivity.
Qed.

Lemma lex_product_length (A : Type) (pools : list (list A)) (tup : list A) :
  In tup (lex_product pools) -> length tup = length pools.
Proof.
  revert tup. induction pools as [|pool rest IH]; intros tup; simpl.
  - intros [<-|[]]. reflexivity.
  - rewrite in_flat_map. intros (x & _ & Hin).
    rewrite in_map_iff in Hin. destruct Hin as (t & <- & Ht).
    simpl. f_equal. apply IH, Ht.
Qed.

(** ** [interleave] alternates its two arguments *)

Lemma interleave_alternate (A : Type) (xs ys : list A) :
  interleave xs ys = alternate xs ys.
Proof.
  unfold interleave. revert ys.
  induction xs as [|x xs IH]; intros ys.
  - destruct ys; reflexivity.
  - destruct ys as [|y ys]; simpl.
    + reflexivity.
    + f_equal. f_equal. apply IH.
Qed.

(** ** [expand_variant] satisfies the equation of its source *)

Lemma mapM_ext_in (A B : Type) (f g : A -> result B) (l : list A) :
  (forall a, In a l -> f a = g a) -> mapM f l = mapM g l.
Proof.
  induction l as [|a l IH]; intros H; simpl; [reflexivity|].
  rewrite (H a) by (left; reflexivity).
  rewrite IH by (intros; apply H; right; assumption).
  reflexivity.
Qed.

Lemma enumeration_variants_with_ext (f g : str -> result (list str)) (e : str) :
  (forall s, length s < length e -> f s = g s) ->
  enumeration_variants_with f e = enumeration_variants_with g e.
Proof.
  intros H. destruct e as [|first e]; [reflexivity|].
  unfold enumeration_variants_with.
  destruct (negb (mem first START_TOKENS)); [reflexivity|].
  destruct (dict_get SEPARATOR_TOKEN_PAIRS first) as [closing|]; [|reflexivity].
  cbn [rbind].
  destruct (negb (count first (first :: e) =? count closing (first :: e)));
    [reflexivity|].
  destruct (dict_get SEPARATOR_ITER first) as [it|]; [|reflexivity].
  cbn [rbind]. do 3 f_equal.
  apply map_ext_in. intros sub Hsub. apply H.
  pose proof (split_on_level_length (py_slice 1 (-1) (first :: e)) ","%char) as Hall.
  rewrite Forall_forall in Hall. specialize (Hall sub Hsub).
  pose proof (strip_length sub).
  pose proof (@py_slice_inner_length ascii (first :: e) ltac:(discriminate)).
  lia.
Qed.

Lemma variant_enumerations_length (variant enum : str) :
  In enum (fst (variant_enumerations variant)) -> length enum <= length variant.
Proof.
  unfold variant_enumerations. cbn [fst]. rewrite in_map_iff.
  intros (r & <- & _). apply py_slice_length.
Qed.

Lemma expand_variant_body_ext (f g : str -> result (list str)) (variant : str) :
  (forall s, length s < length variant -> f s = g s) ->
  expand_variant_body f variant = expand_variant_body g variant.
Proof.
  intros H. unfold expand_variant_body, gen_mapM.
  rewrite (@mapM_ext_in _ _ (enumeration_variants_with f) (enumeration_variants_with g)).
  - reflexivity.
  - intros enum Hin. apply enumeration_variants_with_ext.
    intros s Hs. apply H.
    pose proof (variant_enumerations_length _ _ Hin). lia.
Qed.

Lemma expand_variant_fuel_stable (n m : nat) (variant : str) :
  length variant < n -> length variant < m ->
  expand_variant_fuel n variant = expand_variant_fuel m variant.
Proof.
  revert m variant. induction n as [|n IH]; intros m variant Hn Hm; [lia|].
  destruct m as [|m]; [lia|]. simpl.
  apply expand_variant_body_ext. intros s Hs. apply IH; lia.
Qed.

(** The defining equation of the source: [expand_variant] is its body
    run with [expand_variant] itself for the nested expansions. *)
Lemma expand_variant_unfold (variant : str) :
  expand_variant variant = expand_variant_body expand_variant variant.
Proof.
  unfold expand_variant at 1. simpl.
  apply expand_variant_body_ext. intros s Hs.
  unfold expand_variant. apply expand_variant_fuel_stable; lia.
Qed.

(** ** What the scanner can raise *)

Lemma dict_get_raises (V : Type) (d : list (ascii * V)) (key : ascii) (e : exn) :
  dict_get d key = Raise e -> e = KeyError.
Proof.
  induction d as [|[k v] d IH]; simpl.
  - congruence.
  - destruct (Ascii.eqb k key); [discriminate | exact IH].
Qed.

Lemma scan_loop_raises items st e :
  snd (scan_loop items st) = Some e -> e = KeyError.
Proof.
  revert st. induction items as [|[index sep] rest IH]; intros st; simpl.
  - discriminate.
  - destruct (sep_rmatches _ sep) as [matched|e'] eqn:E.
    + destruct (matched && _); [apply IH | apply IH].
    + simpl. intros [= <-]. unfold sep_rmatches in E.
      destruct (scan_start_sep _); [|congruence].
      destruct (dict_get _ _) eqn:D; [discriminate|].
      injection E as <-. eapply dict_get_raises, D.
Qed.

Lemma variant_enumeration_ranges_raises variant e :
  snd (variant_enumeration_ranges variant) = Some e -> e = KeyError.
Proof. apply scan_loop_raises. Qed.

(** ** [expand_variant] never runs out of fuel *)

Lemma mapM_raises (A B : Type) (f : A -> result B) (l : list A) (e : exn) :
  mapM f l = Raise e -> exists a, In a l /\ f a = Raise e.
Proof.
  induction l as [|a l IH]; simpl; [discriminate|].
  destruct (f a) as [b|e'] eqn:Ea.
  - destruct (mapM f l) as [bs|e'']; [discriminate|].
    intros [= <-]. destruct (IH eq_refl) as (a' & Hin & Hf).
    exists a'. split; [right; assumption | assumption].
  - intros [= <-]. exists a. split; [left; reflexivity | assumption].
Qed.

Lemma mapM_ok_in (A B : Type) (f : A -> result B) (l : list A) (bs : list B) :
  mapM f l = Ok bs -> forall b, In b bs -> exists a, In a l /\ f a = Ok b.
Proof.
  revert bs. induction l as [|a l IH]; simpl; intros bs.
  - intros [= <-] b [].
  - destruct (f a) as [b0|] eqn:Ea; [|discriminate].
    destruct (mapM f l) as [bs0|]; [|discriminate].
    intros [= <-] b [<-|Hin].
    + exists a. split; [left; reflexivity | assumption].
    + destruct (IH bs0 eq_refl b Hin) as (a' & Ha' & Hf).
      exists a'. split; [right; assumption | assumption].
Qed.

Lemma flatten_runs_raises (A : Type) (runs : list (result (list A))) (e : exn) :
  snd (flatten_runs runs) = Some e -> In (Raise e) runs.
Proof.
  induction runs as [|[l|e'] runs IH]; simpl.
  - discriminate.
  - intros H. right. apply IH, H.
  - intros [= <-]. left. reflexivity.
Qed.

Lemma SEPARATOR_ITER_snd first it (g : gen str) :
  dict_get SEPARATOR_ITER first = Ok it -> snd (it g) = snd g.
Proof.
  unfold SEPARATOR_ITER. cbn [dict_get].
  destruct (Ascii.eqb "{" first); [intros [= <-]; reflexivity|].
  destruct (Ascii.eqb "[" first); [intros [= <-]; reflexivity|].
  discriminate.
Qed.

Lemma enumeration_variants_with_raises f enum e :
  enumeration_variants_with f enum = Raise e ->
  e = IndexError \/ e = AssertionError \/ e = KeyError.
Proof.
  destruct enum as [|first enum]; unfold enumeration_variants_with.
  - intros [= <-]. auto.
  - destruct (negb (mem first START_TOKENS)); [intros [= <-]; auto|].
    destruct (dict_get SEPARATOR_TOKEN_PAIRS first) as [closing|e'] eqn:D.
    + cbn [rbind].
      destruct (negb (_ =? _)); [intros [= <-]; auto|].
      destruct (dict_get SEPARATOR_ITER first) as [it|e''] eqn:D'.
      * discriminate.
      * cbn [rbind]. intros [= <-]. right. right. eapply dict_get_raises, D'.
    + cbn [rbind]. intros [= <-]. right. right. eapply dict_get_raises, D.
Qed.

Lemma enumeration_variants_with_stops f enum g e :
  enumeration_variants_with f enum = Ok g -> snd g = Some e ->
  exists sub, length sub < length enum /\ f sub = Raise e.
Proof.
  destruct enum as [|first enum]; [discriminate|].
  unfold enumeration_variants_with.
  destruct (negb (mem first START_TOKENS)); [discriminate|].
  destruct (dict_get SEPARATOR_TOKEN_PAIRS first) as [closing|]; [|discriminate].
  cbn [rbind]. destruct (negb (_ =? _)); [discriminate|].
  destruct (dict_get SEPARATOR_ITER first) as [it|] eqn:D; [|discriminate].
  cbn [rbind]. intros [= <-]. rewrite (@SEPARATOR_ITER_snd first it _ D).
  intros H. apply flatten_runs_raises in H.
  rewrite in_map_iff in H. destruct H as (sub & Hsub & Hin).
  exists (strip sub). split; [|assumption].
  pose proof (split_on_level_length (py_slice 1 (-1) (first :: enum)) ","%char) as Hall.
  rewrite Forall_forall in Hall. specialize (Hall sub Hin).
  pose proof (strip_length sub).
  pose proof (@py_slice_inner_length ascii (first :: enum) ltac:(discriminate)).
  lia.
Qed.

(** Whatever the body raises is an exception of the scanner or of the
    assertions, or comes from a nested expansion of a shorter string. *)
Lemma expand_variant_body_raises f variant e :
  expand_variant_body f variant = Raise e ->
  e = IndexError \/ e = AssertionError \/ e = KeyError
  \/ exists s, length s < length variant /\ f s = Raise e.
Proof.
  unfold expand_variant_body, gen_mapM.
  destruct (mapM (enumeration_variants_with f) _) as [args|e1] eqn:E1.
  - destruct (snd (variant_enumerations variant)) as [e2|] eqn:E2.
    + cbn [rbind]. intros [= <-].
      apply variant_enumeration_ranges_raises in E2. auto.
    + cbn [rbind].
      destruct (mapM (@collect str) args) as [pools|e3] eqn:E3.
      * cbn [rbind].
        destruct (collect (invert_variant_enumerations variant)) as [statics|e4] eqn:E4.
        -- discriminate.
        -- cbn [rbind]. intros [= <-]. unfold collect in E4.
           destruct (snd (invert_variant_enumerations variant)) eqn:E5; [|discriminate].
           injection E4 as <-.
           apply variant_enumeration_ranges_raises in E5. auto.
      * cbn [rbind]. intros [= <-].
        apply mapM_raises in E3. destruct E3 as (g & Hg & Hc).
        destruct (mapM_ok_in _ _ E1 _ Hg) as (enum & Henum & Hev).
        unfold collect in Hc. destruct (snd g) as [e5|] eqn:E5; [|discriminate].
        injection Hc as ->.
        destruct (enumeration_variants_with_stops _ _ Hev E5) as (s & Hs & Hf).
        right. right. right. exists s. split; [|assumption].
        pose proof (variant_enumerations_length _ _ Henum). lia.
  - cbn [rbind]. intros [= <-].
    apply mapM_raises in E1. destruct E1 as (enum & _ & Hev).
    apply enumeration_variants_with_raises in Hev. tauto.
Qed.

Lemma expand_variant_raises (variant : str) (e : exn) :
  expand_variant variant = Raise e ->
  e = IndexError \/ e = AssertionError \/ e = KeyError.
Proof.
  remember (length variant) as n eqn:Hn. revert variant Hn.
  induction n as [n IH] using lt_wf_ind. intros variant Hn.
  rewrite expand_variant_unfold. intros H.
  apply expand_variant_body_raises in H.
  destruct H as [H|[H|[H|(s & Hs & Hf)]]]; auto.
  eapply (IH (length s)); [lia | reflexivity | exact Hf].
Qed.

(** Totality: the expansion of every string is a list of strings or one
    of the program's exceptions. *)
Lemma expand_variant_total (variant : str) :
  expand_variant variant <> Raise FuelExhausted.
Proof.
  intros H. apply expand_variant_raises in H.
  destruct H as [H|[H|H]]; discriminate.
Qed.

(** ** The ranges of the scanner *)

Lemma items_from_weaken pos pos' len items :
  pos' <= pos -> items_from pos len items -> items_from pos' len items.
Proof.
  destruct items as [|[i c] rest]; simpl; [trivial|].
  intros H (H1 & H2 & H3). repeat split; [lia | lia | assumption].
Qed.

Lemma filter_enumerate_items (p : nat * ascii -> bool) (s : str) (n : nat) :
  items_from n (n + length s) (filter p (combine (seq n (length s)) s)).
Proof.
  revert n. induction s as [|c s IH]; intros n; simpl; [trivial|].
  specialize (IH (S n)). replace (S n + length s) with (n + S (length s)) in IH by lia.
  destruct (p (n, c)).
  - simpl. repeat split; [lia | lia | assumption].
  - eapply items_from_weaken; [|exact IH]. lia.
Qed.

Lemma sep_rmatches_true (l : option ascii) (sep : ascii) :
  sep_rmatches l sep = Ok true ->
  mem sep START_TOKENS = false /\ mem sep END_TOKENS = true.
Proof.
  destruct l as [a|]; [|discriminate].
  unfold sep_rmatches, SEPARATOR_TOKEN_PAIRS. cbn [dict_get].
  destruct (Ascii.eqb "{" a).
  - destruct (Ascii.eqb_spec "}" sep); [subst sep; split; reflexivity | discriminate].
  - destruct (Ascii.eqb "[" a); [|discriminate].
    destruct (Ascii.eqb_spec "]" sep); [subst sep; split; reflexivity | discriminate].
Qed.

Lemma scan_step_start (index : nat) (sep : ascii) (st : scan_state) (lo pos : nat) :
  lo <= pos -> pos <= index ->
  ((1 <= scan_depth st)%Z -> lo <= scan_start st < pos) ->
  let st' := scan_close sep (scan_open index sep st) in
  (1 <= scan_depth st')%Z -> lo <= scan_start st' < S index.
Proof.
  intros Hlo Hpos Hinv. unfold scan_close, scan_open.
  destruct (mem sep START_TOKENS), (mem sep END_TOKENS);
    destruct (Z.eqb_spec (scan_depth st) 0); cbn; lia.
Qed.

Lemma scan_loop_ordered (len : nat) (items : list (nat * ascii)) :
  forall (st : scan_state) (lo pos : nat),
    items_from pos len items -> lo <= pos -> pos <= len ->
    ((1 <= scan_depth st)%Z -> lo <= scan_start st < pos) ->
    ordered_ranges lo (fst (scan_loop items st)) len.
Proof.
  induction items as [|[index sep] rest IH]; intros st lo pos Hitems Hlo Hlen Hinv.
  - simpl. lia.
  - destruct Hitems as (Hpos & Hindex & Hrest).
    pose proof (@scan_step_start index sep st lo pos Hlo Hpos Hinv) as Hstep.
    cbn [scan_loop]. cbv zeta in Hstep.
    set (st' := scan_close sep (scan_open index sep st)) in *.
    destruct (sep_rmatches (scan_start_sep st') sep) as [matched|e] eqn:E.
    + destruct matched; cbn [andb].
      * destruct (Z.eqb_spec (scan_depth st') 0) as [Hzero|Hnz].
        -- apply sep_rmatches_true in E. destruct E as [Hs He].
           assert (Hst : scan_start st' = scan_start st
                         /\ scan_depth st = 1%Z).
           { subst st'. unfold scan_close, scan_open in *.
             rewrite Hs, He in *. cbn in *. split; [reflexivity | lia]. }
           destruct Hst as [Hstart Hdepth].
           cbn [gen_cons fst ordered_ranges]. rewrite Hstart.
           assert (lo <= scan_start st < pos) by (apply Hinv; lia).
           repeat split; try lia.
           apply (IH st' (S index) (S index)); try lia; assumption.
        -- apply (IH st' lo (S index)); try lia; assumption.
      * apply (IH st' lo (S index)); try lia; assumption.
    + cbn. lia.
Qed.

(** The scanner emits its ranges in source order, one after the other. *)
Lemma variant_enumeration_ranges_ordered (variant : str) :
  ordered_ranges 0 (fst (variant_enumeration_ranges variant)) (length variant).
Proof.
  unfold variant_enumeration_ranges, enumerate.
  apply scan_loop_ordered with (pos := 0).
  - apply (filter_enumerate_items _ variant 0).
  - lia.
  - lia.
  - cbn. lia.
Qed.

(** ** The static parts and the groups make up the fragment *)

Lemma py_slice_nat (A : Type) (a b : nat) (s : list A) :
  a <= length s -> b <= length s ->
  py_slice (Z.of_nat a) (Z.of_nat b) s = firstn (b - a) (skipn a s).
Proof.
  intros Ha Hb. unfold py_slice, clamp_index.
  destruct (Z.ltb_spec (Z.of_nat a) 0); [lia|].
  destruct (Z.ltb_spec (Z.of_nat b) 0); [lia|].
  rewrite !Z.min_l by lia. rewrite Nat2Z.id.
  replace (Z.to_nat (Z.of_nat b - Z.of_nat a)) with (b - a) by lia.
  reflexivity.
Qed.

Lemma firstn_skipn_segment (A : Type) (a b : nat) (s : list A) :
  a <= b -> firstn (b - a) (skipn a s) ++ skipn b s = skipn a s.
Proof.
  intros H. rewrite <- (firstn_skipn (b - a) (skipn a s)) at 2.
  rewrite skipn_skipn. do 2 f_equal. lia.
Qed.

Lemma static_ranges_cons (a s e : Z) (bounds : list Z) :
  static_ranges (a :: s :: e :: bounds) = ((a + 1)%Z, s) :: static_ranges (e :: bounds).
Proof. reflexivity. Qed.

Lemma alternate_parts (variant : str) (ranges : list (nat * nat)) :
  forall lo : nat,
    ordered_ranges lo ranges (length variant) ->
    concat
      (alternate
         (map (fun range_ => py_slice (fst range_) (snd range_) variant)
              (static_ranges
                 ((Z.of_nat lo - 1)%Z
                  :: flat_map (fun r => [Z.of_nat (fst r); Z.of_nat (snd r)]) ranges
                  ++ [Z.of_nat (length variant)])))
         (map (fun range_ =>
                 py_slice (Z.of_nat (fst range_)) (Z.of_nat (snd range_) + 1)%Z variant)
              ranges))
    = skipn lo variant.
Proof.
  induction ranges as [|[s e] rest IH]; intros lo Hord.
  - cbn in Hord. cbn.
    replace (Z.of_nat lo - 1 + 1)%Z with (Z.of_nat lo) by lia.
    rewrite py_slice_nat by lia. rewrite app_nil_r.
    rewrite firstn_all2; [reflexivity|]. rewrite length_skipn. lia.
  - destruct Hord as (Hlo & Hse & He & Hrest).
    specialize (IH (S e) Hrest).
    replace (Z.of_nat (S e) - 1)%Z with (Z.of_nat e) in IH by lia.
    cbn [flat_map app fst snd]. rewrite static_ranges_cons.
    cbn [map alternate concat fst snd]. rewrite IH.
    replace (Z.of_nat lo - 1 + 1)%Z with (Z.of_nat lo) by lia.
    replace (Z.of_nat e + 1)%Z with (Z.of_nat (S e)) by lia.
    rewrite !py_slice_nat by lia.
    rewrite (@firstn_skipn_segment _ s (S e) variant) by lia.
    apply firstn_skipn_segment. lia.
Qed.

(** When the scan completes, the static parts and the groups, taken in
    turn, are the fragment: the groups are disjoint substrings in source
    order and the static parts are what lies around them. *)
Lemma static_parts_and_groups (variant : str) (statics enums : list str) :
  collect (invert_variant_enumerations variant) = Ok statics ->
  collect (variant_enumerations variant) = Ok enums ->
  concat (alternate statics enums) = variant.
Proof.
  unfold collect, invert_variant_enumerations, invert_variant_enumeration_ranges,
    variant_enumerations, range_bounds.
  cbn [fst snd].
  destruct (snd (variant_enumeration_ranges variant)); [discriminate|].
  intros [= <-] [= <-].
  apply (@alternate_parts variant _ 0 (variant_enumeration_ranges_ordered variant)).
Qed.

(** ** The expansion is the lexicographic product of the groups *)

Lemma join_nil (parts : list str) : join [] parts = concat parts.
Proof.
  induction parts as [|p parts IH]; [reflexivity|].
  destruct parts as [|q parts].
  - simpl. rewrite app_nil_r. reflexivity.
  - change (join [] (p :: q :: parts)) with (p ++ [] ++ join [] (q :: parts)).
    rewrite IH. reflexivity.
Qed.

Lemma mapM_rbind_ok (A B C : Type) (f : A -> result B) (g : B -> result C)
    (l : list A) (cs : list C) :
  mapM (fun a => rbind (f a) g) l = Ok cs ->
  exists bs, mapM f l = Ok bs /\ mapM g bs = Ok cs.
Proof.
  revert cs. induction l as [|a l IH]; simpl; intros cs.
  - intros [= <-]. exists []. split; reflexivity.
  - destruct (f a) as [b|]; [|discriminate]. cbn [rbind].
    destruct (g b) as [c|] eqn:Eg; [|discriminate].
    destruct (mapM _ l) as [cs0|]; [|discriminate].
    intros [= <-]. destruct (IH cs0 eq_refl) as (bs & H1 & H2).
    exists (b :: bs). rewrite H1. split; [reflexivity|].
    simpl. rewrite Eg, H2. reflexivity.
Qed.

Lemma static_parts_count (a b : Z) (ranges : list (nat * nat)) :
  length (islice_step2 (pairwise
            (a :: flat_map (fun r => [Z.of_nat (fst r); Z.of_nat (snd r)]) ranges ++ [b])))
  = S (length ranges).
Proof.
  revert a. induction ranges as [|r ranges IH]; intros a; [reflexivity|].
  cbn -[islice_step2 pairwise]. unfold pairwise. cbn [tl combine islice_step2 length].
  f_equal. apply (IH (Z.of_nat (snd r))).
Qed.

(** The number of static parts is one more than the number of groups. *)
Lemma static_parts_length (variant : str) (enums : list str) :
  collect (variant_enumerations variant) = Ok enums ->
  collect (invert_variant_enumerations variant)
    = Ok (fst (invert_variant_enumerations variant))
  /\ length (fst (invert_variant_enumerations variant)) = S (length enums).
Proof.
  unfold collect, variant_enumerations, invert_variant_enumerations,
    invert_variant_enumeration_ranges, range_bounds.
  cbn [fst snd].
  destruct (snd (variant_enumeration_ranges variant)); [discriminate|].
  intros [= <-]. split; [reflexivity|].
  rewrite !length_map. apply static_parts_count.
Qed.

Lemma expand_variant_groups (variant : str) (enums : list str) (pools : list (list str)) :
  collect (variant_enumerations variant) = Ok enums ->
  mapM group_variants enums = Ok pools ->
  expand_variant variant
  = Ok (map (fun tup => concat (alternate (fst (invert_variant_enumerations variant)) tup))
            (lex_product pools)).
Proof.
  intros Henums Hpools.
  destruct (static_parts_length _ Henums) as [Hstatics _].
  rewrite expand_variant_unfold. unfold expand_variant_body, gen_mapM.
  unfold collect in Henums.
  destruct (snd (variant_enumerations variant)); [discriminate|].
  assert (Hen : fst (variant_enumerations variant) = enums) by congruence.
  rewrite Hen. clear Henums Hen.
  apply mapM_rbind_ok in Hpools. destruct Hpools as (args & Hargs & Hcollect).
  change (mapM (enumeration_variants_with expand_variant) enums)
    with (mapM enumeration_variants enums).
  rewrite Hargs. cbn [rbind].
  rewrite Hcollect. cbn [rbind]. rewrite Hstatics. cbn [rbind].
  f_equal. rewrite product_lex. apply map_ext. intros tup.
  rewrite join_nil, interleave_alternate. reflexivity.
Qed.

(** C1. For every fragment, when the scanner finds the top-level groups
    [enums] and their variant lists are [pools], there is one static part
    more than there are groups, the static parts and the groups taken in
    turn are the fragment (so the groups come in source order), and the
    expansion is the list, over the lexicographic product of [pools]
    (last group varying fastest), of the concatenations
    [static[0], tuple[0], static[1], ..., tuple[n-1], static[n]]. In particular
    ["A{B,C}D{E,F}"] expands to [ABDE, ABDF, ACDE, ACDF] in that order. *)
Theorem expand_variant_lexicographic :
  (forall (variant : str) (enums : list str) (pools : list (list str)),
      collect (variant_enumerations variant) = Ok enums ->
      mapM group_variants enums = Ok pools ->
      let statics := fst (invert_variant_enumerations variant) in
      length statics = S (length enums)
      /\ concat (alternate statics enums) = variant
      /\ expand_variant variant
         = Ok (map (fun tup => concat (alternate statics tup)) (lex_product pools)))
  /\ show (expand_variant "A{B,C}D{E,F}") = Ok ["ABDE"; "ABDF"; "ACDE"; "ACDF"].
Proof.
  split.
  - intros variant enums pools Henums Hpools statics.
    destruct (static_parts_length _ Henums) as [Hstatics Hlength].
    split; [exact Hlength|]. split.
    + apply static_parts_and_groups; assumption.
    + apply expand_variant_groups with (enums := enums); assumption.
  - vm_compute. reflexivity.
Qed.

Lemma expand_variant_lexicographic_witness :
  length (lits ["A"; "D"; ""]) = 3
  /\ concat (alternate (lits ["A"; "D"; ""]) (lits ["{B,C}"; "{E,F}"]))
     = list_ascii_of_string "A{B,C}D{E,F}"
  /\ expand_variant "A{B,C}D{E,F}"
     = Ok (map (fun tup => concat (alternate (lits ["A"; "D"; ""]) tup))
               (lex_product [lits ["B"; "C"]; lits ["E"; "F"]])).
Proof.
  apply (proj1 expand_variant_lexicographic "A{B,C}D{E,F}"
           (lits ["{B,C}"; "{E,F}"]) [lits ["B"; "C"]; lits ["E"; "F"]]).
  - vm_compute. reflexivity.
  - vm_compute. reflexivity.
Defined.

(** ** Fragments without groups *)

Lemma scan_no_delimiters (variant : str) :
  (forall c, In c variant -> mem c ALL_TOKENS = false) ->
  variant_enumeration_ranges variant = ([], None).
Proof.
  intros H. unfold variant_enumeration_ranges.
  replace (filter _ (enumerate variant)) with (@nil (nat * ascii)); [reflexivity|].
  symmetry. unfold enumerate. generalize 0.
  induction variant as [|c variant IH]; intros n; [reflexivity|].
  cbn [length seq combine filter snd].
  rewrite (H c) by (left; reflexivity).
  apply IH. intros c' Hc'. apply H. right. assumption.
Qed.

(** ** The structural check of the plain enumeration *)

Lemma letter_set_allowed (c : ascii) :
  mem c variant_letter_set = allowed_charb c.
Proof. each_ascii c; vm_compute; reflexivity. Qed.

Lemma allowed_charb_spec (c : ascii) : allowed_charb c = true <-> allowed_char c.
Proof.
  unfold allowed_charb, allowed_char.
  rewrite !orb_true_iff, andb_true_iff, !Nat.leb_le, !Ascii.eqb_eq.
  tauto.
Qed.

Lemma digit_or_lowercase_not_allowed (c : ascii) :
  digit_or_lowercase c -> allowed_charb c = false.
Proof.
  unfold digit_or_lowercase. intros H.
  assert (Hb : ((ord "0" <=? ord c) && (ord c <=? ord "9")
                || (ord "a" <=? ord c) && (ord c <=? ord "z")) = true).
  { rewrite orb_true_iff, !andb_true_iff, !Nat.leb_le. exact H. }
  clear H. revert Hb.
  each_ascii c; vm_compute; intros H; try reflexivity; discriminate H.
Qed.

(** C10. [Variant.check] accepts a fragment exactly when each of its
    characters is an uppercase letter, an underscore, a comma, a space or
    one of the four delimiters (so the empty fragment is accepted); a
    fragment with a digit or a lowercase letter is therefore answered by
    [process] with "no match", without an exception. *)
Theorem Variant_check_character_class :
  (forall variant : str,
      Variant_check variant = true <-> Forall allowed_char variant)
  /\ Variant_check [] = true
  /\ (forall (variant : str) (c : ascii),
      In c variant -> digit_or_lowercase c ->
      Variant_check variant = false /\ Variant_process variant = Ok None).
Proof.
  assert (Hiff : forall variant : str,
             Variant_check variant = true <-> Forall allowed_char variant).
  { intros variant. unfold Variant_check.
    rewrite forallb_forall, Forall_forall.
    split; intros H c Hc; specialize (H c Hc).
    - apply allowed_charb_spec. rewrite <- letter_set_allowed. exact H.
    - rewrite letter_set_allowed. apply allowed_charb_spec. exact H. }
  split; [exact Hiff|]. split; [reflexivity|].
  intros variant c Hin Hc.
  assert (Hcheck : Variant_check variant = false).
  { destruct (Variant_check variant) eqn:E; [|reflexivity].
    apply Hiff in E. rewrite Forall_forall in E.
    specialize (E c Hin). apply allowed_charb_spec in E.
    rewrite (digit_or_lowercase_not_allowed Hc) in E. discriminate. }
  split; [exact Hcheck|].
  unfold Variant_process. rewrite Hcheck. reflexivity.
Qed.

Lemma Variant_check_character_class_witness :
  Variant_check "Uniform1" = false /\ Variant_process "Uniform1" = Ok None.
Proof.
  apply (proj2 (proj2 Variant_check_character_class) "Uniform1" "1"%char).
  - simpl. tauto.
  - unfold digit_or_lowercase. vm_compute. left. split; repeat constructor.
Defined.

(** ** Unbalanced braces *)

Lemma count_cons (c x : ascii) (s : str) :
  count c (x :: s) = (if Ascii.eqb c x then 1 else 0) + count c s.
Proof. unfold count. simpl. destruct (Ascii.eqb c x); reflexivity. Qed.

Lemma count_app (c : ascii) (s t : str) :
  count c (s ++ t) = count c s + count c t.
Proof. unfold count. rewrite filter_app, length_app. reflexivity. Qed.

(** C4, as the code has it. For every fragment that passes the
    structural check and in which ["{"] and ["}"] do not occur equally
    often (an unmatched opening brace among them), processing it as a
    plain enumeration stops at the balance assertion of the expander: an
    [AssertionError], which is not a construct mismatch and carries no
    text. *)
Theorem Variant_process_unbalanced_braces (variant : str) :
  Variant_check variant = true ->
  count "{" variant <> count "}" variant ->
  Variant_process variant = Raise AssertionError
  /\ ~ is_construct_mismatch (Variant_process variant) variant.
Proof.
  intros Hcheck Hcount.
  assert (H : Variant_process variant = Raise AssertionError).
  { unfold Variant_process, Variant_parse, Variant_expand. rewrite Hcheck.
    unfold enumeration_variants.
    change ("{" ++ variant ++ "}") with ("{"%char :: variant ++ ["}"%char]).
    unfold enumeration_variants_with.
    change (mem "{" START_TOKENS) with true.
    change (dict_get SEPARATOR_TOKEN_PAIRS "{") with (Ok "}"%char : result ascii).
    cbn [negb rbind].
    assert (Hopen : count "{" ("{"%char :: variant ++ ["}"%char])
                    = S (count "{" variant)).
    { rewrite count_cons, count_app. change (count "{" ["}"%char]) with 0.
      cbn [Ascii.eqb Bool.eqb]. lia. }
    assert (Hclose : count "}" ("{"%char :: variant ++ ["}"%char])
                     = S (count "}" variant)).
    { rewrite count_cons, count_app. change (count "}" ["}"%char]) with 1.
      cbn [Ascii.eqb Bool.eqb]. lia. }
    rewrite Hopen, Hclose.
    replace (S (count "{" variant) =? S (count "}" variant)) with false.
    - reflexivity.
    - symmetry. apply Nat.eqb_neq. lia. }
  split; [exact H|].
  rewrite H. intros (node & note & Heq). discriminate Heq.
Qed.

Lemma Variant_process_unbalanced_braces_witness :
  Variant_process "GL_{A, B" = Raise AssertionError
  /\ ~ is_construct_mismatch (Variant_process "GL_{A, B") "GL_{A, B".
Proof.
  apply (@Variant_process_unbalanced_braces "GL_{A, B").
  - reflexivity.
  - vm_compute. discriminate.
Defined.

(** C4, as the specification has it, fails: an unmatched ["{"] gives an
    unclassified [AssertionError], and an unmatched ["["] gives no
    failure at all. *)
Lemma unmatched_opening_not_a_construct_mismatch :
  ~ is_construct_mismatch (Variant_process "{A") "{A"
  /\ Variant_process "{A" = Raise AssertionError
  /\ Variant_process "[A" = Ok (Some (mk_Variant (lits ["[A"]))).
Proof.
  split; [|split]; [|vm_compute; reflexivity..].
  intros (node & note & H). vm_compute in H. discriminate H.
Qed.

(** ** Multi-identifiers *)

Lemma str_eqb_eq (a b : str) : str_eqb a b = true <-> a = b.
Proof.
  unfold str_eqb. destruct (list_eq_dec ascii_dec a b); split; congruence.
Qed.

Lemma incl_b_incl (l1 l2 : list str) : incl_b l1 l2 = true -> incl l1 l2.
Proof.
  unfold incl_b. rewrite forallb_forall. intros H x Hx.
  specialize (H x Hx). rewrite existsb_exists in H.
  destruct H as (y & Hy & Heq). apply str_eqb_eq in Heq. subst. assumption.
Qed.

(** C6. For every identifier in which the scanner finds the groups
    [enums], the identifiers are the concatenations, without separator, of
    the static parts with the tuples of the lexicographic product of the
    groups' alternatives; the alternatives of a group are the
    space-separated tokens of its inner text when that has a space, and
    its characters otherwise. ["Uniform{1234}{i f d ui}"] yields the
    sixteen identifiers [Uniform1i] to [Uniform4ui], as a set. *)
Theorem MultiIdent_idents_product :
  (forall inner : str,
      (mem " " inner = true ->
       MultiIdent_enumeration_variants inner = str_split " " inner)
      /\ (mem " " inner = false ->
          MultiIdent_enumeration_variants inner = map (fun c => [c]) inner))
  /\ (forall (self : MultiIdent) (enums : list str),
      collect (variant_enumerations (name self)) = Ok enums ->
      idents self
      = Ok (map (fun tup =>
                   concat (alternate (fst (invert_variant_enumerations (name self))) tup))
                (lex_product
                   (map (fun enum => MultiIdent_enumeration_variants (py_slice 1 (-1) enum))
                        enums))))
  /\ (exists l : list str,
      idents (mk_MultiIdent "Uniform{1234}{i f d ui}") = Ok l
      /\ length l = 16 /\ NoDup l
      /\ forall x, In x l <-> In x Uniform_identifiers).
Proof.
  split; [|split].
  - intros inner. unfold MultiIdent_enumeration_variants.
    split; intros ->; reflexivity.
  - intros self enums Henums.
    destruct (static_parts_length _ Henums) as [Hstatics _].
    unfold idents. rewrite Henums, Hstatics. cbn [rbind].
    f_equal. rewrite product_lex. apply map_ext. intros tup.
    rewrite join_nil, interleave_alternate. reflexivity.
  - eexists. split; [vm_compute; reflexivity|].
    split; [reflexivity|]. split.
    + repeat (constructor; [simpl; intuition discriminate|]). constructor.
    + intros x. split; apply incl_b_incl; vm_compute; reflexivity.
Qed.

Lemma MultiIdent_idents_product_witness :
  idents (mk_MultiIdent "Vertex{12}{s f}")
  = Ok (map (fun tup => concat (alternate (lits ["Vertex"; ""; ""]) tup))
            (lex_product [lits ["1"; "2"]; lits ["s"; "f"]])).
Proof.
  apply (proj1 (proj2 MultiIdent_idents_product) (mk_MultiIdent "Vertex{12}{s f}")
           (lits ["{12}"; "{s f}"])).
  vm_compute. reflexivity.
Defined.

(** ** The declaration parser and the caller's token list *)

Lemma Qualifier_process_spec (variant : str) :
  Qualifier_process variant
  = Ok (if Qualifier_check variant then Some (mk_Qualifier Const) else None).
Proof.
  unfold Qualifier_process, Qualifier_check, Qualifier_parse.
  destruct (str_eqb variant Qualifier_Const); [reflexivity|].
  destruct (str_eqb variant Qualifier_Volatile); reflexivity.
Qed.

Lemma take_qualifiers_ok (l : list str) :
  exists qs, take_qualifiers l = Ok qs.
Proof.
  induction l as [|token rest [qs IH]]; simpl.
  - exists []. reflexivity.
  - rewrite Qualifier_process_spec.
    destruct (Qualifier_check token).
    + rewrite IH. eexists. reflexivity.
    + exists []. reflexivity.
Qed.

Lemma parse_pointers_loop_total (fuel : nat) (acc : list Pointer) (tokens : list str) :
  length tokens < fuel ->
  fst (parse_pointers_loop fuel acc tokens) <> Raise FuelExhausted.
Proof.
  revert acc tokens. induction fuel as [|fuel IH]; intros acc tokens Hlen; [lia|].
  cbn [parse_pointers_loop]. unfold bind, first_token.
  destruct tokens as [|token rest]; [discriminate|].
  destruct (str_eqb token "*"); [|discriminate].
  unfold get_tokens, lift.
  destruct (take_qualifiers_ok (py_slice_from 1 (token :: rest))) as [qs ->].
  unfold del_tokens, del_prefix. apply IH.
  rewrite length_skipn. cbn [length] in *. lia.
Qed.

(** The loop of [parse_pointers] always comes to its end. *)
Lemma parse_pointers_total (tokens : list str) :
  fst (parse_pointers tokens) <> Raise FuelExhausted.
Proof.
  unfold parse_pointers, bind, get_tokens.
  destruct (length tokens =? 0); [discriminate|].
  apply parse_pointers_loop_total. lia.
Qed.

Lemma Declarator_assemble_leaves (tokens final : list str) (node : Declarator) :
  Declarator_assemble tokens = (Ok node, final) -> final = [name (ident node)].
Proof.
  unfold Declarator_assemble, bind, get_tokens.
  destruct (parse_pointers tokens) as [[ps|e] rest]; [|discriminate].
  destruct rest as [|i [|j rest]]; [discriminate| |discriminate].
  cbn. intros [= <- <-]. reflexivity.
Qed.

Lemma Declarator_process_leaves (tokens final : list str) (node : Declarator) :
  Declarator_process tokens = (Ok (Some node), final) -> final = [name (ident node)].
Proof.
  unfold Declarator_process, bind, get_tokens.
  destruct (Declarator_check tokens); [|discriminate].
  destruct (Declarator_assemble tokens) as [[d|e] rest] eqn:E; [|discriminate].
  cbn. intros [= <- <-]. eapply Declarator_assemble_leaves, E.
Qed.

Lemma Declaration_assemble_leaves (tokens final : list str) (node : Declaration) :
  Declaration_assemble tokens = (Ok node, final) ->
  final = [name (ident (declarator node))].
Proof.
  unfold Declaration_assemble, bind, first_token.
  destruct tokens as [|token rest]; [discriminate|].
  unfold lift. rewrite Qualifier_process_spec.
  destruct (Qualifier_check token).
  - unfold del_tokens, del_prefix, pop_first. cbn [skipn].
    destruct rest as [|i rest]; [discriminate|].
    destruct (Declarator_process rest) as [[[d|]|e] store] eqn:E;
      [|discriminate..].
    cbn. intros [= <- <-]. cbn. eapply Declarator_process_leaves, E.
  - unfold ret, pop_first.
    destruct (Declarator_process rest) as [[[d|]|e] store] eqn:E;
      [|discriminate..].
    cbn. intros [= <- <-]. cbn. eapply Declarator_process_leaves, E.
Qed.

Lemma Declaration_process_rejects (tokens : list str) :
  length tokens <= 1 -> Declaration_process tokens = (Ok None, tokens).
Proof.
  intros H. unfold Declaration_process, bind, get_tokens, Declaration_check.
  destruct (Nat.ltb_spec 1 (length tokens)); [lia | reflexivity].
Qed.

(** The list after a call is what is left of the list before it. *)
Lemma skipn_skipn_suffix (A : Type) (j k : nat) (l : list A) :
  skipn j (skipn k l) = skipn (k + j) l.
Proof.
  revert l. induction k as [|k IH]; intros l; [reflexivity|].
  destruct l as [|x l]; [rewrite !skipn_nil; reflexivity|]. cbn [skipn Nat.add]. apply IH.
Qed.

Lemma parse_pointers_loop_store
    (fuel : nat) (acc : list Pointer) (tokens final : list str)
    (r : result (list Pointer)) :
  parse_pointers_loop fuel acc tokens = (r, final) ->
  (exists k, final = skipn k tokens)
  /\ (hd_error tokens <> Some (list_ascii_of_string "*") -> final = tokens)
  /\ (hd_error tokens = Some (list_ascii_of_string "*") -> 0 < fuel ->
      length final < length tokens).
Proof.
  revert acc tokens. induction fuel as [|fuel IH]; intros acc tokens.
  - cbn [parse_pointers_loop]. unfold raise. intros [= <- <-].
    split; [exists 0; reflexivity|]. split; [reflexivity | lia].
  - cbn [parse_pointers_loop]. unfold bind, first_token.
    destruct tokens as [|token rest].
    { intros [= <- <-]. split; [exists 0; reflexivity|].
      split; [reflexivity | discriminate]. }
    destruct (str_eqb token "*") eqn:Estar.
    + unfold get_tokens, lift.
      destruct (take_qualifiers_ok (py_slice_from 1 (token :: rest))) as [qs ->].
      unfold del_tokens, del_prefix.
      replace (length qs + 1) with (S (length qs)) by lia. cbn [skipn].
      intros H. destruct (IH _ _ H) as ((k & Hk) & _ & _).
      assert (Hlen : length final < length (token :: rest)).
      { rewrite Hk, !length_skipn. cbn [length]. lia. }
      split.
      * exists (S (length qs + k)). cbn [skipn]. rewrite Hk.
        apply skipn_skipn_suffix.
      * split; [|intros _ _; exact Hlen].
        intros Hne. exfalso. apply Hne. apply str_eqb_eq in Estar. subst token.
        reflexivity.
    + unfold ret. intros [= <- <-]. split; [exists 0; reflexivity|].
      split; [reflexivity|]. cbn [hd_error]. intros [= ->].
      rewrite (proj2 (str_eqb_eq _ _) eq_refl) in Estar. discriminate.
Qed.

Lemma Declarator_process_store
    (tokens final : list str) (r : result (option Declarator)) :
  Declarator_process tokens = (r, final) ->
  (exists k, final = skipn k tokens)
  /\ (final = tokens <-> hd_error tokens <> Some (list_ascii_of_string "*")).
Proof.
  unfold Declarator_process, bind at 1, get_tokens, Declarator_check.
  destruct tokens as [|token rest].
  { cbn. intros [= <- <-]. split; [exists 0; reflexivity|].
    split; [discriminate | reflexivity]. }
  cbn [length Nat.eqb]. unfold bind at 1, Declarator_assemble, bind at 1, parse_pointers.
  unfold bind at 1, get_tokens. cbn [length Nat.eqb].
  destruct (parse_pointers_loop (S (S (length rest))) [] (token :: rest))
    as [rp store] eqn:Eloop.
  destruct (parse_pointers_loop_store _ _ _ Eloop) as (Hsuffix & Hsame & Hshort).
  assert (Hfinal : final = store ->
            (exists k, final = skipn k (token :: rest))
            /\ (final = token :: rest
                <-> hd_error (token :: rest) <> Some (list_ascii_of_string "*"))).
  { intros ->. split; [exact Hsuffix|]. split.
    - intros E Hhd. specialize (Hshort Hhd ltac:(lia)). rewrite E in Hshort. lia.
    - exact Hsame. }
  destruct rp as [ps|e].
  - unfold bind at 1. destruct store as [|i [|j more]]; cbn;
      intros [= <- <-]; apply Hfinal; reflexivity.
  - intros [= <- <-]. apply Hfinal. reflexivity.
Qed.

Lemma Declaration_assemble_store
    (tokens final : list str) (r : result Declaration) :
  tokens <> [] ->
  Declaration_assemble tokens = (r, final) ->
  exists k, 0 < k /\ final = skipn k tokens.
Proof.
  intros Hne. unfold Declaration_assemble, bind at 1, first_token.
  destruct tokens as [|token rest]; [congruence|].
  unfold bind at 1, lift. rewrite Qualifier_process_spec.
  assert (Hdecl : forall (rest' : list str) (j : nat) (q : option Qualifier) (t : str),
             rest' = skipn j (token :: rest) -> 0 < j ->
             bind Declarator_process
               (fun declarator =>
                  match declarator with
                  | None =>
                      bind get_tokens (fun tokens =>
                        raise (ParsingException NDeclarator (join " " tokens) []))
                  | Some declarator =>
                      ret (mk_Declaration q (mk_MultiIdent t) declarator)
                  end) rest' = (r, final) ->
             exists k, 0 < k /\ final = skipn k (token :: rest)).
  { intros rest' j q t Hrest' Hj. unfold bind at 1.
    destruct (Declarator_process rest') as [rd store] eqn:Ed.
    destruct (Declarator_process_store _ Ed) as ((k & Hk) & _).
    assert (Estore : store = skipn (j + k) (token :: rest)).
    { rewrite Hk, Hrest'. apply skipn_skipn_suffix. }
    destruct rd as [[d|]|e]; cbn; intros [= <- <-];
      exists (j + k); (split; [lia | exact Estore]). }
  destruct (Qualifier_check token).
  - unfold bind at 1, bind at 1, del_tokens, del_prefix. cbn [skipn].
    unfold bind at 1, pop_first.
    destruct rest as [|type_name rest].
    + cbn. intros [= <- <-]. exists 1. split; [lia | reflexivity].
    + apply (Hdecl rest 2); [reflexivity | lia].
  - unfold bind at 1, bind at 1, ret. unfold bind at 1, pop_first.
    apply (Hdecl rest 1); [reflexivity | lia].
Qed.

Lemma Declaration_process_store
    (tokens final : list str) (r : result (option Declaration)) :
  Declaration_process tokens = (r, final) ->
  (exists k, final = skipn k tokens)
  /\ (final = tokens <-> length tokens <= 1)
  /\ (length tokens <= 1 -> r = Ok None).
Proof.
  unfold Declaration_process, bind at 1, get_tokens, Declaration_check.
  destruct (Nat.ltb_spec 1 (length tokens)) as [Hlen|Hlen].
  2:{ cbn. intros [= <- <-]. split; [exists 0; reflexivity|].
      split; [|reflexivity]. split; [intros _; exact Hlen | reflexivity]. }
  unfold bind at 1.
  destruct (Declaration_assemble tokens) as [ra store] eqn:Ea.
  destruct (@Declaration_assemble_store tokens store ra) as (k & Hk & Estore);
    [destruct tokens; [cbn in Hlen; lia | discriminate] | exact Ea |].
  assert (Hfinal : final = store ->
            (exists k, final = skipn k tokens)
            /\ (final = tokens <-> length tokens <= 1)
            /\ (length tokens <= 1 -> r = Ok None)).
  { intros ->. split; [exists k; exact Estore|]. split; [|lia].
    split; [|lia]. intros E. rewrite E in Estore.
    apply (f_equal (@length str)) in Estore. rewrite length_skipn in Estore. lia. }
  destruct ra as [d|e]; cbn; intros [= <- <-]; apply Hfinal; reflexivity.
Qed.

(** C9, as the code has it. [Declaration.process] and
    [Declarator.process] consume the caller's token list in place: after a
    call the list is what is left of it behind the tokens that were taken.
    When one of them builds a node, the list is left holding the identifier
    token of its declarator alone, which for a declaration is shorter than
    the list it was given; a two-token list of a type name and an
    identifier is parsed and left as the identifier alone.
    [Declaration.process] leaves the list as it was exactly when the
    structural check rejects it (fewer than two tokens): in every other
    case, a node or an exception, tokens are gone. [Declarator.process]
    leaves the list as it was exactly when the list does not begin with a
    star: the empty list, a lone identifier, and several tokens on which
    the unpacking raises. *)
Theorem Declaration_process_consumes_tokens :
  (forall (tokens final : list str) (node : Declaration),
      Declaration_process tokens = (Ok (Some node), final) ->
      final = [name (ident (declarator node))] /\ length final < length tokens)
  /\ (forall (tokens final : list str) (node : Declarator),
      Declarator_process tokens = (Ok (Some node), final) ->
      final = [name (ident node)])
  /\ (forall type_name identifier : str,
      Qualifier_check type_name = false ->
      identifier <> "*" ->
      Declaration_process [type_name; identifier]
      = (Ok (Some (mk_Declaration None (mk_MultiIdent type_name)
                     (mk_Declarator [] (mk_MultiIdent identifier)))),
         [identifier]))
  /\ (forall tokens : list str,
      length tokens <= 1 -> Declaration_process tokens = (Ok None, tokens))
  /\ (forall (tokens final : list str) (r : result (option Declaration)),
      Declaration_process tokens = (r, final) ->
      (exists k, final = skipn k tokens)
      /\ (final = tokens <-> length tokens <= 1))
  /\ (forall (tokens final : list str) (r : result (option Declarator)),
      Declarator_process tokens = (r, final) ->
      (exists k, final = skipn k tokens)
      /\ (final = tokens <-> hd_error tokens <> Some (list_ascii_of_string "*"))).
Proof.
  split; [|split; [|split; [|split; [|split]]]].
  - intros tokens final node.
    unfold Declaration_process, bind, get_tokens, Declaration_check.
    destruct (Nat.ltb_spec 1 (length tokens)) as [Hlen|Hlen]; [|discriminate].
    destruct (Declaration_assemble tokens) as [[d|e] store] eqn:E; [|discriminate].
    cbn. intros [= <- <-].
    rewrite (Declaration_assemble_leaves _ E). split; [reflexivity|].
    cbn [length]. lia.
  - intros tokens final node. apply Declarator_process_leaves.
  - intros type_name identifier Hq Hstar.
    unfold Declaration_process, bind, get_tokens, Declaration_check.
    cbn [length Nat.ltb Nat.leb].
    unfold Declaration_assemble, bind, first_token, lift.
    rewrite Qualifier_process_spec, Hq. cbn [ret pop_first].
    unfold Declarator_process, Declarator_check, bind, get_tokens.
    cbn [length Nat.eqb].
    unfold Declarator_assemble, parse_pointers, bind, get_tokens.
    cbn [length Nat.eqb parse_pointers_loop]. unfold bind, first_token.
    replace (str_eqb identifier "*") with false; [reflexivity|].
    symmetry. destruct (str_eqb identifier "*") eqn:E; [|reflexivity].
    apply str_eqb_eq in E. contradiction.
  - apply Declaration_process_rejects.
  - intros tokens final r H.
    destruct (Declaration_process_store _ H) as (Hk & Hsame & _).
    split; assumption.
  - intros tokens final r. apply Declarator_process_store.
Qed.

Lemma Declaration_process_consumes_tokens_witness :
  Declaration_process (lits ["int"; "foo"])
  = (Ok (Some (mk_Declaration None (mk_MultiIdent "int")
                 (mk_Declarator [] (mk_MultiIdent "foo")))),
     lits ["foo"])
  /\ (fst (Declarator_process (lits ["a"; "b"])) = Raise ValueError
      /\ snd (Declarator_process (lits ["a"; "b"])) = lits ["a"; "b"])
  /\ (snd (Declaration_process (lits ["int"; "*"])) = lits ["int"; "*"]
       <-> length (lits ["int"; "*"]) <= 1).
Proof.
  split; [|split; [split|]].
  - apply (proj1 (proj2 (proj2 Declaration_process_consumes_tokens)) "int" "foo").
    + reflexivity.
    + discriminate.
  - reflexivity.
  - apply (proj2 (proj2 (proj2 (proj2 (proj2 Declaration_process_consumes_tokens))))
             (lits ["a"; "b"]) (snd (Declarator_process (lits ["a"; "b"])))
             (fst (Declarator_process (lits ["a"; "b"])))); [reflexivity|].
    discriminate.
  - apply (proj1 (proj2 (proj2 (proj2 (proj2 Declaration_process_consumes_tokens))))
             (lits ["int"; "*"]) (snd (Declaration_process (lits ["int"; "*"])))
             (fst (Declaration_process (lits ["int"; "*"])))).
    reflexivity.
Defined.

(** C9, as the specification has it, fails: after [Declaration.process]
    the caller's list [["int"; "foo"]] is [["foo"]], and after
    [Declarator.process] the list [["*"; "foo"]] is [["foo"]]. *)
Lemma Declaration_process_changes_tokens :
  snd (Declaration_process (tokenize "int foo")) <> tokenize "int foo"
  /\ snd (Declaration_process (tokenize "int foo")) = lits ["foo"]
  /\ snd (Declarator_process (lits ["*"; "foo"])) = lits ["foo"].
Proof.
  split; [|split]; [|reflexivity..].
  vm_compute. discriminate.
Qed.

(** ** Failures of the declaration parser *)

(** C5, as the code has it. When the token list is a qualifier keyword
    followed by one more token, nothing is left for the declarator and
    [Declaration.process] raises the classified failure that names
    [Declarator], with the empty text; a list of fewer than two tokens is
    rejected by the structural check as "no match" and nothing is
    raised. *)
Theorem Declaration_process_empty_declarator :
  (forall qualifier_token type_name : str,
      Qualifier_check qualifier_token = true ->
      fst (Declaration_process [qualifier_token; type_name])
      = Raise (ParsingException NDeclarator [] []))
  /\ (forall tokens : list str,
      length tokens <= 1 -> fst (Declaration_process tokens) = Ok None).
Proof.
  split.
  - intros q t Hq.
    unfold Declaration_process, bind, get_tokens, Declaration_check.
    cbn [length Nat.ltb Nat.leb].
    unfold Declaration_assemble, bind, first_token, lift.
    rewrite Qualifier_process_spec, Hq. reflexivity.
  - intros tokens H. rewrite Declaration_process_rejects by assumption.
    reflexivity.
Qed.

Lemma Declaration_process_empty_declarator_witness :
  fst (Declaration_process (tokenize "const int"))
  = Raise (ParsingException NDeclarator [] []).
Proof.
  apply (proj1 Declaration_process_empty_declarator "const" "int").
  reflexivity.
Defined.

(** C5, as the specification has it, fails: with two tokens left for the
    declarator the unpacking of the single identifier raises an
    unclassified [ValueError], and a lone type name is "no match". *)
Lemma Declaration_process_unclassified_failure :
  ~ (exists content note,
        parse_declaration_helper "int foo bar"
        = Raise (ParsingException NDeclarator content note))
  /\ parse_declaration_helper "int foo bar" = Raise ValueError
  /\ parse_declaration_helper "int" = Ok None.
Proof.
  split; [|split]; [|reflexivity..].
  intros (content & note & H). vm_compute in H. discriminate H.
Qed.

(** ** The parameter list of a signature *)

Lemma split_char_loop_no_sep (c : ascii) (s piece p : str) :
  mem c piece = false ->
  In p (split_char_loop c s piece) -> mem c p = false.
Proof.
  revert piece. induction s as [|x s IH]; intros piece Hpiece; simpl.
  - intros [<-|[]]. assumption.
  - destruct (Ascii.eqb x c) eqn:E.
    + intros [<-|Hin]; [assumption|]. apply (IH []); [reflexivity | assumption].
    + apply IH. unfold mem. rewrite existsb_app. fold (mem c piece).
      rewrite Hpiece. simpl. rewrite Ascii.eqb_sym, E. reflexivity.
Qed.

(** The parameter loop runs over the pieces between all the commas of the
    parameter list: no fragment holds a comma, nested or not. *)
Lemma Signature_param_fragments_no_comma (params p : str) :
  In p (Signature_param_fragments params) -> mem "," p = false.
Proof. apply split_char_loop_no_sep. reflexivity. Qed.

(** C2 at the input [void f({A, B} x);]. The parameter list [{A, B} x] is
    cut at the comma inside the braces, into the fragments [{A] and
    [ B} x]; the first is not a declaration, is tried as a plain
    enumeration, and fails the balance assertion, so that the signature
    is not built. Splitting on the top level, as the prefix of the same
    signature is split, keeps the group in one fragment. *)
Theorem Signature_splits_nested_comma :
  Signature_check "void f({A, B} x);" = Some ("void f" : str, "{A, B} x" : str)
  /\ Signature_param_fragments "{A, B} x" = lits ["{A"; " B} x"]
  /\ split_on_level "{A, B} x" "," = lits ["{A, B} x"]
  /\ Signature_process "void f({A, B} x);" = Raise AssertionError.
Proof. repeat split; vm_compute; reflexivity. Qed.

(** ** Printing a signature and reading it back *)

(** C3 at the input [void f(int a);] and at the signature of the
    repository's test. The node is built; its string form has a space
    before the parenthesis, [void f (int a);]; read back, the prefix
    [void f ] splits into the tokens [void], [f] and the empty string, and
    the unpacking of the single identifier in [Declarator.assemble] raises
    [ValueError]: no node comes back. *)
Theorem Signature_round_trip_fails :
  Signature_process "void f(int a);"
  = Ok (Some (mk_Signature None (mk_MultiIdent "void") (plain [] "f")
                [inr (mk_Declaration None (mk_MultiIdent "int") (plain [] "a"))]))
  /\ printed (Signature_process "void f(int a);") = Ok "void f (int a);"%string
  /\ split_on_level "void f " " " = lits ["void"; "f"; ""]
  /\ reparse (Signature_process "void f(int a);") = Raise ValueError
  /\ printed (Signature_process DrawRangeElements)
     = Ok "void DrawRangeElements (enum mode, uint start, uint end, sizei count, enum type, const void * indices);"%string
  /\ reparse (Signature_process DrawRangeElements) = Raise ValueError.
Proof. repeat split; vm_compute; reflexivity. Qed.

(** The declarations of the repository's tests do come back from their
    string form, once it is tokenized again. *)
Example Declaration_round_trip :
  let node := mk_Declaration (Some (mk_Qualifier Const)) (mk_MultiIdent "int")
                (plain [mk_Pointer [mk_Qualifier Const]; mk_Pointer []; mk_Pointer []]
                       "foo") in
  parse_declaration_helper "const int *const **foo" = Ok (Some node)
  /\ string_of_list_ascii (Declaration_str node) = "const int *const * * foo"%string
  /\ parse_declaration_helper (Declaration_str node) = Ok (Some node).
Proof. repeat split; vm_compute; reflexivity. Qed.

(** * Further properties *)

(** ** The scanner: what it emits and when it fails *)

Lemma enumerate_nth (A : Type) (s : list A) (n i : nat) (c : A) :
  In (i, c) (combine (seq n (length s)) s) -> n <= i /\ nth_error s (i - n) = Some c.
Proof.
  revert n. induction s as [|x s IH]; intros n; simpl; [tauto|].
  intros [[= <- <-]|Hin].
  - rewrite Nat.sub_diag. split; [lia | reflexivity].
  - destruct (IH (S n) Hin) as [Hle Hnth]. split; [lia|].
    replace (i - n) with (S (i - S n)) by lia. exact Hnth.
Qed.

Lemma sep_rmatches_pair (l : option ascii) (sep : ascii) :
  sep_rmatches l sep = Ok true ->
  exists o, l = Some o /\ In (o, sep) SEPARATOR_TOKEN_PAIRS.
Proof.
  destruct l as [a|]; [|discriminate]. intros H. exists a. split; [reflexivity|].
  revert H. unfold sep_rmatches, SEPARATOR_TOKEN_PAIRS. cbn [dict_get].
  destruct (Ascii.eqb_spec "{" a) as [<-|_].
  - destruct (Ascii.eqb_spec "}" sep) as [<-|_]; [|discriminate].
    intros _. left. reflexivity.
  - destruct (Ascii.eqb_spec "[" a) as [<-|_]; [|discriminate].
    destruct (Ascii.eqb_spec "]" sep) as [<-|_]; [|discriminate].
    intros _. right. left. reflexivity.
Qed.

Lemma scan_loop_matching (variant : str) (items : list (nat * ascii)) :
  (forall i c, In (i, c) items -> nth_error variant i = Some c) ->
  forall st : scan_state,
    (forall o, scan_start_sep st = Some o ->
               nth_error variant (scan_start st) = Some o) ->
    forall s e, In (s, e) (fst (scan_loop items st)) ->
      exists o c, nth_error variant s = Some o /\ nth_error variant e = Some c
                  /\ In (o, c) SEPARATOR_TOKEN_PAIRS.
Proof.
  induction items as [|[index sep] rest IH]; intros Hitems st Hinv s e; [intros []|].
  cbn [scan_loop].
  set (st' := scan_close sep (scan_open index sep st)).
  assert (Hsep : nth_error variant index = Some sep)
    by (apply Hitems; left; reflexivity).
  assert (Hinv' : forall o, scan_start_sep st' = Some o ->
                            nth_error variant (scan_start st') = Some o).
  { subst st'. unfold scan_close, scan_open.
    destruct (mem sep START_TOKENS), (mem sep END_TOKENS);
      destruct (Z.eqb_spec (scan_depth st) 0); cbn; try exact Hinv;
      intros o [= <-]; exact Hsep. }
  assert (Hrest : forall i c, In (i, c) rest -> nth_error variant i = Some c)
    by (intros; apply Hitems; right; assumption).
  destruct (sep_rmatches (scan_start_sep st') sep) as [matched|err] eqn:E;
    [|intros []].
  destruct matched; cbn [andb]; [|apply (IH Hrest st' Hinv')].
  destruct (scan_depth st' =? 0)%Z; [|apply (IH Hrest st' Hinv')].
  cbn [gen_cons fst]. intros [[= <- <-]|Hin]; [|apply (IH Hrest st' Hinv' _ _ Hin)].
  apply sep_rmatches_pair in E. destruct E as (o & Ho & Hpair).
  exists o, sep. split; [apply Hinv', Ho|]. split; assumption.
Qed.

(** X1. The ranges the scanner emits lie inside the fragment, each opens
    before it closes, each begins after the one before it has ended, and
    each begins at an opening delimiter and ends at the closing delimiter
    paired with it. *)
Theorem scanner_ranges_well_formed (variant : str) :
  ordered_ranges 0 (fst (variant_enumeration_ranges variant)) (length variant)
  /\ forall s e, In (s, e) (fst (variant_enumeration_ranges variant)) ->
       exists o c, nth_error variant s = Some o /\ nth_error variant e = Some c
                   /\ In (o, c) SEPARATOR_TOKEN_PAIRS.
Proof.
  split; [apply variant_enumeration_ranges_ordered|].
  unfold variant_enumeration_ranges, enumerate.
  apply scan_loop_matching.
  - intros i c Hin. apply filter_In in Hin. destruct Hin as [Hin _].
    apply enumerate_nth in Hin. rewrite Nat.sub_0_r in Hin. apply Hin.
  - cbn. discriminate.
Qed.

Lemma filter_enumerate_snd (A : Type) (p : A -> bool) (s : list A) (n : nat) :
  map snd (filter (fun ic => p (snd ic)) (combine (seq n (length s)) s)) = filter p s.
Proof.
  revert n. induction s as [|c s IH]; intros n; simpl; [reflexivity|].
  destruct (p c); simpl; rewrite IH; reflexivity.
Qed.

Lemma scan_loop_opened (items : list (nat * ascii)) :
  forall st o, scan_start_sep st = Some o -> mem o START_TOKENS = true ->
               snd (scan_loop items st) = None.
Proof.
  induction items as [|[index sep] rest IH]; intros st o Ho Hstart; [reflexivity|].
  cbn [scan_loop].
  set (st' := scan_close sep (scan_open index sep st)).
  assert (Hst' : exists o', scan_start_sep st' = Some o' /\ mem o' START_TOKENS = true).
  { subst st'. unfold scan_close, scan_open.
    destruct (mem sep START_TOKENS) eqn:Es, (mem sep END_TOKENS);
      destruct (Z.eqb_spec (scan_depth st) 0); cbn; eauto. }
  destruct Hst' as (o' & Ho' & Hstart').
  rewrite Ho'. unfold sep_rmatches.
  assert (Hget : exists r, dict_get SEPARATOR_TOKEN_PAIRS o' = Ok r).
  { revert Hstart'. unfold mem, START_TOKENS, SEPARATOR_TOKEN_PAIRS.
    cbn [map fst existsb dict_get].
    rewrite (Ascii.eqb_sym o' "{"), (Ascii.eqb_sym o' "[").
    destruct (Ascii.eqb "{" o'); [eauto|].
    destruct (Ascii.eqb "[" o'); [eauto | discriminate]. }
  destruct Hget as [r ->].
  destruct (Ascii.eqb r sep && (scan_depth st' =? 0)%Z).
  - cbn [gen_cons snd]. apply (IH st' o' Ho' Hstart').
  - apply (IH st' o' Ho' Hstart').
Qed.

Lemma scanner_cases (variant : str) :
  match delimiters variant with
  | [] => variant_enumeration_ranges variant = ([], None)
  | c :: _ =>
      if mem c END_TOKENS
      then variant_enumeration_ranges variant = ([], Some KeyError)
      else snd (variant_enumeration_ranges variant) = None
  end.
Proof.
  unfold delimiters, variant_enumeration_ranges, enumerate.
  rewrite <- (filter_enumerate_snd (fun c => mem c ALL_TOKENS) variant 0).
  pose proof (fun ic (H : In ic (filter (fun ic => mem (snd ic) ALL_TOKENS)
                                         (combine (seq 0 (length variant)) variant)))
              => proj2 (proj1 (filter_In _ _ _) H)) as Hall.
  destruct (filter _ (combine _ variant)) as [|[index sep] rest]; [reflexivity|].
  specialize (Hall (index, sep) (or_introl eq_refl)). cbn [snd] in Hall.
  cbn [map snd scan_loop].
  assert (Hcases : sep = "{"%char \/ sep = "["%char \/ sep = "}"%char \/ sep = "]"%char).
  { revert Hall. unfold mem, ALL_TOKENS, START_TOKENS, END_TOKENS, SEPARATOR_TOKEN_PAIRS.
    cbn [map fst snd app existsb]. rewrite !orb_true_iff, !Ascii.eqb_eq.
    intuition discriminate. }
  destruct Hcases as [-> | [-> | [-> | ->]]]; cbn -[scan_loop];
    try reflexivity;
    eapply scan_loop_opened; cbn; reflexivity.
Qed.

(** X2. The scanner fails exactly when the first delimiter character of
    the fragment is a closing one: it then raises [KeyError] before it has
    emitted a range. On every other fragment the scan runs to its end. *)
Theorem scanner_fails_on_leading_close (variant : str) :
  match delimiters variant with
  | [] => variant_enumeration_ranges variant = ([], None)
  | c :: _ =>
      if mem c END_TOKENS
      then variant_enumeration_ranges variant = ([], Some KeyError)
      else snd (variant_enumeration_ranges variant) = None
  end.
Proof.
  exact (scanner_cases variant).
Qed.

(** ** Fragments whose first delimiter closes *)

Lemma expand_variant_no_range (variant : str) :
  variant_enumeration_ranges variant = ([], None) ->
  expand_variant variant = Ok [variant].
Proof.
  intros Hscan.
  rewrite (@expand_variant_groups variant [] []).
  - unfold invert_variant_enumerations, invert_variant_enumeration_ranges,
      range_bounds. rewrite Hscan. cbn.
    rewrite py_slice_whole, app_nil_r. reflexivity.
  - unfold collect, variant_enumerations. rewrite Hscan. reflexivity.
  - reflexivity.
Qed.

Lemma scan_leading_close (variant : str) (c : ascii) (rest : list ascii) :
  delimiters variant = c :: rest -> mem c END_TOKENS = true ->
  variant_enumeration_ranges variant = ([], Some KeyError).
Proof.
  intros Hd Hc. pose proof (scanner_cases variant) as H.
  rewrite Hd, Hc in H. exact H.
Qed.

Lemma expand_variant_leading_close (variant : str) (c : ascii) (rest : list ascii) :
  delimiters variant = c :: rest -> mem c END_TOKENS = true ->
  expand_variant variant = Raise KeyError.
Proof.
  intros Hd Hc. rewrite expand_variant_unfold.
  unfold expand_variant_body, gen_mapM, variant_enumerations.
  rewrite (scan_leading_close _ Hd Hc). reflexivity.
Qed.

(** C8. A fragment in which the scan ends without a range expands to the
    one-element list holding the fragment itself: so does every fragment
    without a delimiter character, and so does ["A{"], whose opening
    delimiter is never closed. A fragment whose first delimiter character
    is a closing one holds no group either, but the scanner looks up the
    opening delimiter it has not seen and the expansion raises [KeyError]:
    ["A}"] does not expand to itself. [Variant.process], which wraps the
    fragment in braces before anything else, fails on ["A}"] at the balance
    assertion and on ["}A{"], which balances, with the [KeyError] of the
    scanner. *)
Theorem expand_variant_without_groups :
  (forall variant : str,
      variant_enumeration_ranges variant = ([], None) ->
      expand_variant variant = Ok [variant])
  /\ (forall variant : str,
      (forall c, In c variant -> mem c ALL_TOKENS = false) ->
      expand_variant variant = Ok [variant])
  /\ (forall (variant : str) (c : ascii) (rest : list ascii),
      delimiters variant = c :: rest -> mem c END_TOKENS = true ->
      fst (variant_enumeration_ranges variant) = []
      /\ expand_variant variant = Raise KeyError)
  /\ expand_variant "A{" = Ok (lits ["A{"])
  /\ expand_variant "A}" = Raise KeyError
  /\ Variant_process "A}" = Raise AssertionError
  /\ Variant_process "}A{" = Raise KeyError.
Proof.
  split; [exact expand_variant_no_range|].
  split; [intros variant Hfree; apply expand_variant_no_range, scan_no_delimiters, Hfree|].
  split.
  - intros variant c rest Hd Hc. split.
    + rewrite (scan_leading_close _ Hd Hc). reflexivity.
    + apply (expand_variant_leading_close _ Hd Hc).
  - repeat split; vm_compute; reflexivity.
Qed.

Lemma expand_variant_without_groups_witness :
  expand_variant "GetIntegerv{" = Ok (lits ["GetIntegerv{"])
  /\ expand_variant "TIMESTAMP" = Ok (lits ["TIMESTAMP"])
  /\ (fst (variant_enumeration_ranges "GL_}A{B}") = []
      /\ expand_variant "GL_}A{B}" = Raise KeyError).
Proof.
  split; [|split].
  - apply (proj1 expand_variant_without_groups "GetIntegerv{"). reflexivity.
  - apply (proj1 (proj2 expand_variant_without_groups) "TIMESTAMP").
    intros c Hc. simpl in Hc.
    repeat (destruct Hc as [<-|Hc]; [reflexivity|]). destruct Hc.
  - apply (proj1 (proj2 (proj2 expand_variant_without_groups))
             "GL_}A{B}" "}"%char (list_ascii_of_string "{}")); reflexivity.
Defined.

(** ** The expansion: what it raises, and how many variants it gives *)

Lemma ordered_ranges_in (lo len : nat) (ranges : list (nat * nat)) (s e : nat) :
  ordered_ranges lo ranges len -> In (s, e) ranges -> lo <= s /\ s < e /\ e < len.
Proof.
  revert lo. induction ranges as [|[s' e'] rest IH]; intros lo; simpl; [tauto|].
  intros (H1 & H2 & H3 & H4) [[= -> ->]|Hin]; [lia|].
  destruct (IH _ H4 Hin). lia.
Qed.

Lemma variant_enumerations_nonempty (variant enum : str) :
  In enum (fst (variant_enumerations variant)) -> 2 <= length enum.
Proof.
  unfold variant_enumerations. cbn [fst]. rewrite in_map_iff.
  intros ([s e] & <- & Hin). cbn [fst snd].
  destruct (@ordered_ranges_in _ _ _ s e (variant_enumeration_ranges_ordered variant) Hin)
    as (_ & Hse & He).
  replace (Z.of_nat e + 1)%Z with (Z.of_nat (S e)) by lia.
  rewrite py_slice_nat by lia.
  rewrite length_firstn, length_skipn. lia.
Qed.

Lemma enumeration_variants_with_raises_nonempty f (enum : str) (e : exn) :
  enum <> [] ->
  enumeration_variants_with f enum = Raise e ->
  e = AssertionError \/ e = KeyError.
Proof.
  intros Hne H. destruct (enumeration_variants_with_raises _ _ H) as [-> | [-> | ->]]; auto.
  destruct enum as [|first enum]; [congruence|]. exfalso. revert H.
  unfold enumeration_variants_with.
  destruct (negb (mem first START_TOKENS)); [discriminate|].
  destruct (dict_get SEPARATOR_TOKEN_PAIRS first) as [closing|e'] eqn:D.
  - cbn [rbind]. destruct (negb (_ =? _)); [discriminate|].
    destruct (dict_get SEPARATOR_ITER first) as [it|e''] eqn:D'; [discriminate|].
    cbn [rbind]. intros [= ->]. apply dict_get_raises in D'. discriminate.
  - cbn [rbind]. intros [= ->]. apply dict_get_raises in D. discriminate.
Qed.

Lemma expand_variant_body_raises_unclassified f (variant : str) (e : exn) :
  expand_variant_body f variant = Raise e ->
  e = AssertionError \/ e = KeyError
  \/ exists s, length s < length variant /\ f s = Raise e.
Proof.
  unfold expand_variant_body, gen_mapM.
  destruct (mapM (enumeration_variants_with f) _) as [args|e1] eqn:E1.
  - destruct (snd (variant_enumerations variant)) as [e2|] eqn:E2.
    + cbn [rbind]. intros [= <-].
      apply variant_enumeration_ranges_raises in E2. auto.
    + cbn [rbind]. destruct (mapM (@collect str) args) as [pools|e3] eqn:E3.
      * cbn [rbind].
        destruct (collect (invert_variant_enumerations variant)) as [st|e4] eqn:E4;
          [discriminate|].
        cbn [rbind]. intros [= <-]. unfold collect in E4.
        destruct (snd (invert_variant_enumerations variant)) eqn:E5; [|discriminate].
        injection E4 as <-. apply variant_enumeration_ranges_raises in E5. auto.
      * cbn [rbind]. intros [= <-].
        apply mapM_raises in E3. destruct E3 as (g & Hg & Hc).
        destruct (mapM_ok_in _ _ E1 _ Hg) as (enum & Henum & Hev).
        unfold collect in Hc. destruct (snd g) as [e5|] eqn:E5; [|discriminate].
        injection Hc as ->.
        destruct (enumeration_variants_with_stops _ _ Hev E5) as (s & Hs & Hf).
        right. right. exists s. split; [|assumption].
        pose proof (variant_enumerations_length _ _ Henum). lia.
  - cbn [rbind]. intros [= <-].
    apply mapM_raises in E1. destruct E1 as (enum & Hin & Hev).
    apply enumeration_variants_with_raises_nonempty in Hev; [tauto|].
    pose proof (variant_enumerations_nonempty _ _ Hin).
    destruct enum; [simpl in *; lia | discriminate].
Qed.

Lemma expand_variant_raises_kinds (variant : str) (e : exn) :
  expand_variant variant = Raise e -> e = AssertionError \/ e = KeyError.
Proof.
  remember (length variant) as n eqn:Hn. revert variant Hn.
  induction n as [n IH] using lt_wf_ind. intros variant Hn.
  rewrite expand_variant_unfold. intros H.
  apply expand_variant_body_raises_unclassified in H.
  destruct H as [H|[H|(s & Hs & Hf)]]; auto.
  eapply (IH (length s)); [lia | reflexivity | exact Hf].
Qed.

Lemma Variant_process_raises_kinds (variant : str) (e : exn) :
  Variant_process variant = Raise e -> e = AssertionError \/ e = KeyError.
Proof.
  unfold Variant_process, Variant_parse.
  destruct (Variant_check variant); [|discriminate].
  destruct (collect (Variant_expand variant)) as [l|e'] eqn:E; [discriminate|].
  cbn [rbind]. intros [= <-]. revert E. unfold collect, Variant_expand.
  destruct (enumeration_variants _) as [sub|e1] eqn:E1.
  - unfold gen_then.
    destruct (snd (flatten_runs (map expand_variant (fst sub)))) as [e2|] eqn:E2.
    + rewrite E2. intros [= <-]. apply flatten_runs_raises in E2.
      rewrite in_map_iff in E2. destruct E2 as (x & Hx & _).
      eapply expand_variant_raises_kinds, Hx.
    + cbn [snd]. destruct (snd sub) as [e3|] eqn:E3; [|discriminate].
      intros [= <-].
      destruct (enumeration_variants_with_stops _ _ E1 E3) as (s & _ & Hs).
      eapply expand_variant_raises_kinds, Hs.
  - cbn [snd]. intros [= <-].
    eapply enumeration_variants_with_raises_nonempty; [|exact E1]. discriminate.
Qed.

(** X3. [expand_variant] and [Variant.process] never raise a classified
    parse failure, an index error or a value error: a fragment they cannot
    expand escapes with an exception of another kind. (Of the exceptions of
    the embedding these are [AssertionError], for delimiters that do not
    balance, and [KeyError], for a closing delimiter ahead of every opening
    one.) *)
Theorem expansion_raises_unclassified :
  (forall (variant : str) (e : exn),
      expand_variant variant = Raise e ->
      e <> IndexError /\ e <> ValueError
      /\ forall (node : node_type) (content note : str),
           e <> ParsingException node content note)
  /\ (forall (variant : str) (e : exn),
      Variant_process variant = Raise e ->
      e <> IndexError /\ e <> ValueError
      /\ forall (node : node_type) (content note : str),
           e <> ParsingException node content note).
Proof.
  split; intros variant e H.
  - destruct (expand_variant_raises_kinds _ H) as [-> | ->];
      repeat split; try discriminate; intros; discriminate.
  - destruct (Variant_process_raises_kinds _ H) as [-> | ->];
      repeat split; try discriminate; intros; discriminate.
Qed.

Lemma expansion_raises_unclassified_witness :
  (KeyError <> IndexError /\ KeyError <> ValueError
   /\ forall (node : node_type) (content note : str),
        KeyError <> ParsingException node content note)
  /\ (AssertionError <> IndexError /\ AssertionError <> ValueError
      /\ forall (node : node_type) (content note : str),
           AssertionError <> ParsingException node content note).
Proof.
  split.
  - apply (proj1 expansion_raises_unclassified "A}" KeyError).
    vm_compute. reflexivity.
  - apply (proj2 expansion_raises_unclassified "{A" AssertionError).
    vm_compute. reflexivity.
Defined.

Lemma split_on_level_loop_nonempty data sep items start depth :
  split_on_level_loop data sep items start depth <> [].
Proof.
  revert start depth.
  induction items as [|[index char] rest IH]; intros start depth; simpl.
  - discriminate.
  - match goal with |- context [if ?b then _ :: _ else _] => destruct b end.
    + discriminate.
    + apply IH.
Qed.

Lemma lex_product_nonempty (A : Type) (pools : list (list A)) :
  Forall (fun pool => pool <> []) pools -> lex_product pools <> [].
Proof.
  induction 1 as [|pool rest Hpool _ IH]; simpl; [discriminate|].
  destruct pool as [|x pool]; [congruence|]. simpl.
  destruct (lex_product rest); [congruence | discriminate].
Qed.

Lemma lex_product_count (A : Type) (pools : list (list A)) :
  length (lex_product pools) = fold_right Nat.mul 1 (map (@length A) pools).
Proof.
  induction pools as [|pool rest IH]; simpl; [reflexivity|].
  rewrite <- IH. clear IH.
  induction pool as [|x pool IHp]; simpl; [reflexivity|].
  rewrite length_app, length_map, IHp. reflexivity.
Qed.

Lemma flatten_runs_first (A : Type) (r : result (list A)) (runs : list (result (list A))) :
  snd (flatten_runs (r :: runs)) = None ->
  exists l, r = Ok l /\ fst (flatten_runs (r :: runs)) = l ++ fst (flatten_runs runs).
Proof.
  destruct r as [l|e]; simpl; [|discriminate].
  intros _. exists l. split; reflexivity.
Qed.

Lemma enumeration_variants_with_pool f (enum : str) (g : gen str) :
  (forall s l, length s < length enum -> f s = Ok l -> l <> []) ->
  enumeration_variants_with f enum = Ok g -> snd g = None -> fst g <> [].
Proof.
  intros Hf. destruct enum as [|first enum]; [discriminate|].
  unfold enumeration_variants_with.
  destruct (negb (mem first START_TOKENS)); [discriminate|].
  destruct (dict_get SEPARATOR_TOKEN_PAIRS first) as [closing|]; [|discriminate].
  cbn [rbind]. destruct (negb (_ =? _)); [discriminate|].
  destruct (dict_get SEPARATOR_ITER first) as [it|] eqn:D; [|discriminate].
  cbn [rbind]. intros [= <-]. rewrite (@SEPARATOR_ITER_snd first it _ D).
  remember (split_on_level (py_slice 1 (-1) (first :: enum)) ",") as subs eqn:Hsubs.
  assert (Hlen : Forall (fun sub => length (strip sub) < length (first :: enum)) subs).
  { subst subs.
    pose proof (split_on_level_length (py_slice 1 (-1) (first :: enum)) ","%char) as Hall.
    pose proof (@py_slice_inner_length ascii (first :: enum) ltac:(discriminate)).
    eapply Forall_impl; [|exact Hall]. intros sub Hsub. cbv beta in Hsub.
    pose proof (strip_length sub). lia. }
  assert (Hne : subs <> []) by (subst subs; apply split_on_level_loop_nonempty).
  destruct subs as [|sub subs]; [congruence|]. cbn [map].
  intros Hnone. apply flatten_runs_first in Hnone.
  destruct Hnone as (l & Hl & Hfst).
  assert (l <> []) by (eapply Hf; [|exact Hl]; inversion Hlen; assumption).
  revert D. unfold SEPARATOR_ITER. cbn [dict_get].
  destruct (Ascii.eqb "{" first).
  - intros [= <-]. unfold All. rewrite Hfst. destruct l; [congruence | discriminate].
  - destruct (Ascii.eqb "[" first); [|discriminate].
    intros [= <-]. discriminate.
Qed.

Lemma expand_variant_body_nonempty f (variant : str) (l : list str) :
  (forall s l, length s < length variant -> f s = Ok l -> l <> []) ->
  expand_variant_body f variant = Ok l -> l <> [].
Proof.
  intros Hf. unfold expand_variant_body, gen_mapM.
  destruct (mapM (enumeration_variants_with f) _) as [args|] eqn:E1; [|discriminate].
  destruct (snd (variant_enumerations variant)); [discriminate|].
  cbn [rbind]. destruct (mapM (@collect str) args) as [pools|] eqn:E3; [|discriminate].
  cbn [rbind]. destruct (collect (invert_variant_enumerations variant)); [|discriminate].
  cbn [rbind]. intros [= <-]. rewrite product_lex.
  assert (Hpools : Forall (fun pool => pool <> []) pools).
  { rewrite Forall_forall. intros pool Hpool.
    destruct (mapM_ok_in _ _ E3 _ Hpool) as (g & Hg & Hc).
    destruct (mapM_ok_in _ _ E1 _ Hg) as (enum & Henum & Hev).
    unfold collect in Hc. destruct (snd g) eqn:Es; [discriminate|].
    injection Hc as <-.
    eapply enumeration_variants_with_pool; [|exact Hev|exact Es].
    intros s l Hs. apply Hf.
    pose proof (variant_enumerations_length _ _ Henum). lia. }
  apply lex_product_nonempty in Hpools.
  destruct (lex_product pools); [congruence | discriminate].
Qed.

(** X4. An expansion that succeeds is never empty: every fragment has at
    least one variant. *)
Theorem expand_variant_nonempty (variant : str) (l : list str) :
  expand_variant variant = Ok l -> l <> [].
Proof.
  remember (length variant) as n eqn:Hn. revert variant l Hn.
  induction n as [n IH] using lt_wf_ind. intros variant l Hn.
  rewrite expand_variant_unfold. apply expand_variant_body_nonempty.
  intros s l' Hs. apply (IH (length s)); [lia | reflexivity].
Qed.

Lemma expand_variant_nonempty_witness :
  lits ["ABDE"; "ABDF"; "ACDE"; "ACDF"] <> [].
Proof.
  apply (@expand_variant_nonempty "A{B,C}D{E,F}"). vm_compute. reflexivity.
Defined.

(** X5. The number of variants of a fragment is the product of the
    numbers of variants of its top-level groups. *)
Theorem expand_variant_count (variant : str) (enums : list str) (pools : list (list str)) :
  collect (variant_enumerations variant) = Ok enums ->
  mapM group_variants enums = Ok pools ->
  exists l, expand_variant variant = Ok l
            /\ length l = fold_right Nat.mul 1 (map (@length str) pools).
Proof.
  intros Henums Hpools. eexists. split.
  - apply expand_variant_groups with (enums := enums); eassumption.
  - rewrite length_map. apply lex_product_count.
Qed.

Lemma expand_variant_count_witness :
  exists l, expand_variant "[UN]PACK_{ROW_LENGTH, SKIP_{IMAGES, PIXELS, ROWS}, ALIGNMENT}" = Ok l
            /\ length l = 2 * (5 * 1).
Proof.
  apply (@expand_variant_count
           "[UN]PACK_{ROW_LENGTH, SKIP_{IMAGES, PIXELS, ROWS}, ALIGNMENT}"
           (lits ["[UN]"; "{ROW_LENGTH, SKIP_{IMAGES, PIXELS, ROWS}, ALIGNMENT}"])
           [lits [""; "UN"];
            lits ["ROW_LENGTH"; "SKIP_IMAGES"; "SKIP_PIXELS"; "SKIP_ROWS"; "ALIGNMENT"]]).
  - vm_compute. reflexivity.
  - vm_compute. reflexivity.
Defined.

(** ** Splitting on a nesting level *)

Lemma join_cons (sep p : str) (parts : list str) :
  parts <> [] -> join sep (p :: parts) = p ++ sep ++ join sep parts.
Proof. destruct parts; [congruence | reflexivity]. Qed.

Lemma skipn_cons_inv (A : Type) (i : nat) (l rest : list A) (c : A) :
  skipn i l = c :: rest ->
  i < length l /\ nth_error l i = Some c /\ skipn (S i) l = rest.
Proof.
  revert l. induction i as [|i IH]; intros l H.
  - destruct l; [discriminate|]. injection H as -> ->.
    simpl. repeat split. lia.
  - destruct l as [|x l]; [discriminate|]. simpl in H.
    destruct (IH l H) as (H1 & H2 & H3). simpl. repeat split; [lia | assumption..].
Qed.

Lemma py_slice_from_nat (A : Type) (start : nat) (s : list A) :
  start <= length s -> py_slice_from (Z.of_nat start) s = skipn start s.
Proof.
  intros H. unfold py_slice_from. rewrite py_slice_nat by lia.
  apply firstn_all2. rewrite length_skipn. lia.
Qed.

Lemma split_on_level_loop_join (data : str) (sep : ascii) (suffix : str) :
  forall (i start : nat) (depth : Z),
    skipn i data = suffix -> start <= i -> i <= length data ->
    join [sep]
      (split_on_level_loop data sep (combine (seq i (length suffix)) suffix) start depth)
    = skipn start data.
Proof.
  induction suffix as [|c rest IH]; intros i start depth Hskip Hstart Hlen.
  - cbn. rewrite py_slice_from_nat by lia. reflexivity.
  - destruct (skipn_cons_inv _ _ Hskip) as (Hi & Hnth & Hrest).
    cbn [length seq combine split_on_level_loop].
    match goal with |- context [if ?b then _ :: _ else _] => destruct b eqn:Hb end.
    + rewrite join_cons by apply split_on_level_loop_nonempty.
      rewrite Nat.add_1_r, (IH (S i) (S i)) by (assumption || lia).
      apply andb_true_iff in Hb. destruct Hb as [_ Hb]. apply Ascii.eqb_eq in Hb.
      subst c. rewrite py_slice_nat by lia.
      change ([sep] ++ skipn (S i) data) with (sep :: skipn (S i) data).
      rewrite Hrest, <- Hskip. apply firstn_skipn_segment. lia.
    + apply (IH (S i)); (assumption || lia).
Qed.

(** X6. [split_on_level] loses nothing: it always yields at least one
    piece, and the pieces joined with the separator are the data. *)
Theorem split_on_level_join (data : str) (sep : ascii) :
  split_on_level data sep <> []
  /\ join [sep] (split_on_level data sep) = data.
Proof.
  split; [apply split_on_level_loop_nonempty|].
  unfold split_on_level, enumerate.
  apply (@split_on_level_loop_join data sep data 0 0 0%Z); [reflexivity | lia | lia].
Qed.

Lemma firstn_snoc (A : Type) (k : nat) (l : list A) (c : A) :
  nth_error l k = Some c -> firstn (S k) l = firstn k l ++ [c].
Proof.
  revert l. induction k as [|k IH]; intros [|x l] H; try discriminate.
  - injection H as ->. reflexivity.
  - simpl in *. f_equal. apply IH, H.
Qed.

Lemma no_delimiter_levels (c : ascii) :
  mem c ALL_TOKENS = false ->
  mem c (map fst SEPARATOR_TOKEN_PAIRS) = false
  /\ mem c (map snd SEPARATOR_TOKEN_PAIRS) = false.
Proof.
  unfold mem, ALL_TOKENS, START_TOKENS, END_TOKENS. rewrite existsb_app.
  apply orb_false_iff.
Qed.

Lemma split_on_level_loop_plain (data : str) (sep : ascii) (suffix : str) :
  forall i start : nat,
    skipn i data = suffix -> start <= i -> i <= length data ->
    no_delimiter suffix ->
    split_on_level_loop data sep (combine (seq i (length suffix)) suffix) start 0
    = split_char_loop sep suffix (firstn (i - start) (skipn start data)).
Proof.
  induction suffix as [|c rest IH]; intros i start Hskip Hstart Hlen Hplain.
  - cbn. rewrite py_slice_from_nat by lia.
    assert (length data <= i).
    { apply (f_equal (@length ascii)) in Hskip. rewrite length_skipn in Hskip.
      simpl in Hskip. lia. }
    f_equal. symmetry. apply firstn_all2. rewrite length_skipn. lia.
  - destruct (skipn_cons_inv _ _ Hskip) as (Hi & Hnth & Hrest).
    assert (Hrest_plain : no_delimiter rest)
      by (intros x Hx; apply Hplain; right; assumption).
    destruct (no_delimiter_levels c (Hplain c (or_introl eq_refl))) as [Ho Hc].
    cbn [length seq combine split_on_level_loop split_char_loop].
    rewrite Ho, Hc. cbn [Z.eqb andb].
    destruct (Ascii.eqb c sep).
    + rewrite py_slice_nat by lia. f_equal.
      rewrite Nat.add_1_r, (IH (S i) (S i)) by (assumption || lia).
      rewrite Nat.sub_diag. reflexivity.
    + rewrite (IH (S i) start) by (assumption || lia). f_equal.
      replace (S i - start) with (S (i - start)) by lia.
      apply firstn_snoc. rewrite nth_error_skipn.
      replace (start + (i - start)) with i by lia. assumption.
Qed.

Lemma split_on_level_plain (data : str) (sep : ascii) :
  no_delimiter data -> split_on_level data sep = str_split sep data.
Proof.
  intros H. unfold split_on_level, enumerate, str_split.
  rewrite (@split_on_level_loop_plain data sep data 0 0) by (trivial || lia).
  reflexivity.
Qed.

(** X7. On data without any delimiter character [split_on_level] is
    [str.split]: every occurrence of the separator splits. *)
Theorem split_on_level_without_delimiters (data : str) (sep : ascii) :
  (forall c, In c data -> mem c ALL_TOKENS = false) ->
  split_on_level data sep = str_split sep data.
Proof. apply split_on_level_plain. Qed.

Lemma split_on_level_without_delimiters_witness :
  split_on_level "enum mode, uint start" "," = str_split "," "enum mode, uint start".
Proof.
  apply (@split_on_level_without_delimiters "enum mode, uint start" ",").
  intros c Hc. simpl in Hc.
  repeat (destruct Hc as [<-|Hc]; [reflexivity|]). destruct Hc.
Defined.

(** ** The entries of a group *)

Lemma split_on_level_loop_pieces (data : str) (sep : ascii) (suffix : str) :
  forall (i start : nat) (depth : Z),
    skipn i data = suffix -> start <= i -> i <= length data ->
    split_on_level_loop data sep (combine (seq i (length suffix)) suffix) start depth
    = split_level_pieces sep depth (firstn (i - start) (skipn start data)) suffix.
Proof.
  induction suffix as [|c rest IH]; intros i start depth Hskip Hstart Hlen.
  - cbn. rewrite py_slice_from_nat by lia.
    assert (length data <= i).
    { apply (f_equal (@length ascii)) in Hskip. rewrite length_skipn in Hskip.
      simpl in Hskip. lia. }
    f_equal. symmetry. apply firstn_all2. rewrite length_skipn. lia.
  - destruct (skipn_cons_inv _ _ Hskip) as (Hi & Hnth & Hrest).
    cbn [length seq combine split_on_level_loop split_level_pieces].
    change (if mem c (map snd SEPARATOR_TOKEN_PAIRS)
            then ((if mem c (map fst SEPARATOR_TOKEN_PAIRS)
                   then (depth + 1)%Z else depth) - 1)%Z
            else if mem c (map fst SEPARATOR_TOKEN_PAIRS)
                 then (depth + 1)%Z else depth)
      with (level_step depth c).
    destruct ((level_step depth c =? 0)%Z && Ascii.eqb c sep).
    + rewrite py_slice_nat by lia. f_equal.
      rewrite Nat.add_1_r, (IH (S i) (S i)) by (assumption || lia).
      rewrite Nat.sub_diag. reflexivity.
    + rewrite (IH (S i) start) by (assumption || lia). f_equal.
      replace (S i - start) with (S (i - start)) by lia.
      apply firstn_snoc. rewrite nth_error_skipn.
      replace (start + (i - start)) with i by lia. assumption.
Qed.

Lemma split_on_level_pieces (data : str) (sep : ascii) :
  split_on_level data sep = split_level_pieces sep 0 [] data.
Proof.
  unfold split_on_level, enumerate.
  rewrite (@split_on_level_loop_pieces data sep data 0 0) by (trivial || lia).
  reflexivity.
Qed.

Lemma split_level_pieces_nested (sep : ascii) (entry : str) :
  forall (depth : Z) (piece rest : str),
    separators_nested sep depth entry = true ->
    split_level_pieces sep depth piece (entry ++ rest)
    = split_level_pieces sep (level_after depth entry) (piece ++ entry) rest.
Proof.
  induction entry as [|c entry IH]; intros depth piece rest H.
  - cbn. rewrite app_nil_r. reflexivity.
  - cbn [separators_nested] in H. apply andb_true_iff in H. destruct H as [Hc H].
    apply negb_true_iff in Hc.
    cbn [app split_level_pieces]. rewrite Hc, (@IH _ _ _ H).
    rewrite <- app_assoc. reflexivity.
Qed.

Lemma split_level_pieces_entries (entries : list str) :
  entries <> [] ->
  Forall (fun entry => level_entry entry = true) entries ->
  split_level_pieces "," 0 [] (join "," entries) = entries.
Proof.
  intros Hne Hall. induction Hall as [|entry entries Hentry Hall IH]; [congruence|].
  unfold level_entry in Hentry. apply andb_true_iff in Hentry.
  destruct Hentry as [Hnested Hlevel]. apply Z.eqb_eq in Hlevel.
  destruct entries as [|next entries].
  - cbn [join]. rewrite <- (app_nil_r entry) at 1.
    rewrite (@split_level_pieces_nested _ _ _ _ _ Hnested). reflexivity.
  - rewrite join_cons by discriminate.
    rewrite (@split_level_pieces_nested _ _ _ _ _ Hnested), Hlevel.
    change (list_ascii_of_string "," ++ join "," (next :: entries))
      with (","%char :: join "," (next :: entries)).
    cbn [split_level_pieces app]. change (level_step 0 ",") with 0%Z.
    rewrite Ascii.eqb_refl. cbn [Z.eqb andb]. f_equal.
    apply IH. discriminate.
Qed.

Lemma split_on_level_entries (entries : list str) :
  entries <> [] ->
  Forall (fun entry => level_entry entry = true) entries ->
  split_on_level (join "," entries) "," = entries.
Proof.
  intros Hne Hall. rewrite split_on_level_pieces.
  apply split_level_pieces_entries; assumption.
Qed.

(** ** Plain lists and plain identifiers *)

Lemma expand_variant_plain (variant : str) :
  no_delimiter variant -> expand_variant variant = Ok [variant].
Proof.
  intros H. apply expand_variant_no_range, scan_no_delimiters, H.
Qed.

Lemma lstrip_in (c : ascii) (s : str) : In c (lstrip s) -> In c s.
Proof.
  induction s as [|x s IH]; simpl; [tauto|].
  destruct (is_space x); [right; apply IH; assumption | trivial].
Qed.

Lemma strip_in (c : ascii) (s : str) : In c (strip s) -> In c s.
Proof.
  unfold strip, rstrip. intros H.
  apply in_rev, lstrip_in in H. apply in_rev in H. apply lstrip_in, H.
Qed.

Lemma split_char_loop_in (sep c : ascii) (s piece p : str) :
  In p (split_char_loop sep s piece) -> In c p -> In c s \/ In c piece.
Proof.
  revert piece. induction s as [|x s IH]; intros piece; simpl.
  - intros [<-|[]] Hc. right. assumption.
  - destruct (Ascii.eqb x sep).
    + intros [<-|Hin] Hc; [right; assumption|].
      destruct (IH [] Hin Hc) as [H|[]]. left. right. assumption.
    + intros Hin Hc. destruct (IH _ Hin Hc) as [H|H]; [left; right; assumption|].
      apply in_app_or in H. destruct H as [H|[<-|[]]]; [right; assumption|].
      left. left. reflexivity.
Qed.

Lemma flatten_runs_singletons (l : list str) :
  flatten_runs (map (fun x => Ok [x]) l) = (l, None).
Proof.
  induction l as [|x l IH]; [reflexivity|].
  cbn [map flatten_runs]. rewrite IH. reflexivity.
Qed.

Lemma py_slice_inner_wrap (A : Type) (a b : A) (s : list A) :
  py_slice 1 (-1) (a :: s ++ [b]) = s.
Proof.
  unfold py_slice, clamp_index. cbn [length].
  rewrite length_app. cbn [length].
  destruct (Z.ltb_spec 1 0); [lia|]. destruct (Z.ltb_spec (-1) 0); [|lia].
  rewrite Z.min_l by lia. rewrite Z.max_r by lia.
  change (Z.to_nat 1) with 1. cbn [skipn].
  replace (Z.to_nat (-1 + Z.of_nat (S (length s + 1)) - 1)) with (length s) by lia.
  rewrite firstn_app, firstn_all, Nat.sub_diag. cbn. apply app_nil_r.
Qed.

Lemma count_no_delimiter (c : ascii) (s : str) :
  mem c ALL_TOKENS = true -> no_delimiter s -> count c s = 0.
Proof.
  intros Hc H. unfold count. induction s as [|x s IH]; [reflexivity|].
  simpl. destruct (Ascii.eqb_spec c x) as [<-|_].
  - rewrite (H c (or_introl eq_refl)) in Hc. discriminate.
  - apply IH. intros y Hy. apply H. right. assumption.
Qed.

Lemma Variant_process_plain (variant : str) :
  (forall c, In c variant -> mem c ALL_TOKENS = false) ->
  Variant_check variant = true ->
  Variant_process variant
  = Ok (Some (mk_Variant (map strip (str_split "," variant)))).
Proof.
  intros Hplain Hcheck. unfold Variant_process, Variant_parse, Variant_expand.
  rewrite Hcheck. unfold enumeration_variants.
  change ("{" ++ variant ++ "}") with ("{"%char :: variant ++ ["}"%char]).
  unfold enumeration_variants_with.
  change (mem "{" START_TOKENS) with true.
  change (dict_get SEPARATOR_TOKEN_PAIRS "{") with (Ok "}"%char : result ascii).
  change (dict_get SEPARATOR_ITER "{") with (Ok All : result (gen str -> gen str)).
  assert (Hopen : count "{" ("{"%char :: variant ++ ["}"%char]) = 1).
  { rewrite count_cons, count_app.
    rewrite (@count_no_delimiter "{" variant) by (reflexivity || exact Hplain).
    reflexivity. }
  assert (Hclose : count "}" ("{"%char :: variant ++ ["}"%char]) = 1).
  { rewrite count_cons, count_app.
    rewrite (@count_no_delimiter "}" variant) by (reflexivity || exact Hplain).
    reflexivity. }
  cbn [negb rbind]. rewrite Hopen, Hclose. cbn [Nat.eqb negb rbind].
  rewrite py_slice_inner_wrap.
  rewrite split_on_level_plain by exact Hplain.
  assert (Hpieces : forall sub, In sub (str_split "," variant) ->
                      expand_variant (strip sub) = Ok [strip sub]).
  { intros sub Hsub. apply expand_variant_plain. intros c Hc.
    apply strip_in in Hc.
    destruct (@split_char_loop_in _ c _ _ sub Hsub Hc) as [H|[]]. apply Hplain, H. }
  unfold All.
  rewrite (map_ext_in _ (fun sub => Ok [strip sub]) _ Hpieces).
  rewrite <- (map_map strip (fun x => Ok [x])), flatten_runs_singletons.
  cbn [fst snd].
  rewrite (map_ext_in expand_variant (fun x => Ok [x])).
  - rewrite flatten_runs_singletons. reflexivity.
  - intros x Hx. rewrite in_map_iff in Hx. destruct Hx as (sub & <- & Hsub).
    apply Hpieces, Hsub.
Qed.

(** X8. A fragment without delimiters that passes the structural check is
    a plain comma-separated list: [Variant.process] yields its entries,
    split at every comma and stripped of surrounding whitespace. *)
Theorem Variant_process_plain_list (variant : str) :
  (forall c, In c variant -> mem c ALL_TOKENS = false) ->
  Variant_check variant = true ->
  Variant_process variant
  = Ok (Some (mk_Variant (map strip (str_split "," variant)))).
Proof. apply Variant_process_plain. Qed.

Lemma Variant_process_plain_list_witness :
  Variant_process "TIMESTAMP, DEPTH_TEST"
  = Ok (Some (mk_Variant (map strip (str_split "," "TIMESTAMP, DEPTH_TEST")))).
Proof.
  apply (@Variant_process_plain_list "TIMESTAMP, DEPTH_TEST"); [|reflexivity].
  intros c Hc. simpl in Hc.
  repeat (destruct Hc as [<-|Hc]; [reflexivity|]). destruct Hc.
Defined.

(** ** Optional groups *)

Lemma flatten_runs_map_ok (A B : Type) (f : A -> result (list B))
    (entries : list A) (lists : list (list B)) :
  Forall2 (fun entry expansion => f entry = Ok expansion) entries lists ->
  flatten_runs (map f entries) = (concat lists, None).
Proof.
  induction 1 as [|entry expansion entries lists Hf _ IH]; [reflexivity|].
  cbn [map flatten_runs concat]. rewrite Hf, IH. reflexivity.
Qed.

Lemma flatten_runs_map_stops (A B : Type) (f : A -> result (list B)) (k : nat) :
  forall (entries : list A) (lists : list (list B)) (entry : A) (e : exn),
    Forall2 (fun entry expansion => f entry = Ok expansion) (firstn k entries) lists ->
    nth_error entries k = Some entry ->
    f entry = Raise e ->
    flatten_runs (map f entries) = (concat lists, Some e).
Proof.
  induction k as [|k IH]; intros entries lists entry e Hfirst Hnth Hf;
    destruct entries as [|x entries]; try discriminate.
  - injection Hnth as ->. cbn [firstn] in Hfirst. inversion Hfirst.
    cbn [map flatten_runs concat]. rewrite Hf. reflexivity.
  - cbn [firstn] in Hfirst. inversion Hfirst as [|x' l ? lists' Hx Hrest]; subst.
    cbn [nth_error] in Hnth.
    cbn [map flatten_runs concat]. rewrite Hx, (IH _ _ _ _ Hrest Hnth Hf).
    reflexivity.
Qed.

Lemma optional_enumeration_variants (enumeration : str) :
  hd_error enumeration = Some "["%char ->
  count "[" enumeration = count "]" enumeration ->
  enumeration_variants enumeration
  = Ok (Option (flatten_runs
                  (map (fun sub_variant => expand_variant (strip sub_variant))
                       (split_on_level (py_slice 1 (-1) enumeration) ",")))).
Proof.
  intros Hhd Hcount.
  destruct enumeration as [|first rest]; [discriminate|].
  injection Hhd as ->.
  unfold enumeration_variants, enumeration_variants_with.
  change (mem "[" START_TOKENS) with true.
  change (dict_get SEPARATOR_TOKEN_PAIRS "[") with (Ok "]"%char : result ascii).
  change (dict_get SEPARATOR_ITER "[") with (Ok Option : result (gen str -> gen str)).
  cbn [negb rbind]. rewrite Hcount, Nat.eqb_refl. reflexivity.
Qed.

(** C7. The variants of an optional group. For every enumeration that
    opens with ["["] and passes the balance assertion, the first variant is
    the empty string. When every entry of the group (the inner text split
    at its top-level commas, each piece stripped) expands, the variants are
    the empty string followed by the expansions of the entries one after
    the other, in the order of the entries. When an entry fails, the
    variants produced before the exception are the empty string and the
    expansions of the entries ahead of it. The entries are what the group
    was written from: for texts that close the groups they open and hold
    commas inside nested groups only, the group ["[e1,...,en]"] that passes
    the balance assertion has the empty string followed by the expansions
    of [e1], ..., [en]. In a group whose inner text has no delimiter the
    variants are the empty string followed by the stripped pieces between
    the commas. So ["[X, Y]"] gives ["", "X", "Y"], and ["[X, {A, B}_C]"]
    gives ["", "X", "A_C", "B_C"]. *)
Theorem optional_group_starts_with_empty :
  (forall enumeration : str,
      hd_error enumeration = Some "["%char ->
      count "[" enumeration = count "]" enumeration ->
      (exists (items : list str) (stop : option exn),
          enumeration_variants enumeration = Ok ([] :: items, stop))
      /\ (forall lists : list (list str),
             Forall2 (fun entry expansion => expand_variant (strip entry) = Ok expansion)
                     (split_on_level (py_slice 1 (-1) enumeration) ",") lists ->
             enumeration_variants enumeration = Ok ([] :: concat lists, None)
             /\ group_variants enumeration = Ok ([] :: concat lists))
      /\ (forall (k : nat) (entry : str) (lists : list (list str)) (e : exn),
             Forall2 (fun entry expansion => expand_variant (strip entry) = Ok expansion)
                     (firstn k (split_on_level (py_slice 1 (-1) enumeration) ",")) lists ->
             nth_error (split_on_level (py_slice 1 (-1) enumeration) ",") k = Some entry ->
             expand_variant (strip entry) = Raise e ->
             enumeration_variants enumeration = Ok ([] :: concat lists, Some e)
             /\ group_variants enumeration = Raise e))
  /\ (forall (entries : list str) (lists : list (list str)),
      entries <> [] ->
      Forall (fun entry => level_entry entry = true) entries ->
      count "[" (join "," entries) = count "]" (join "," entries) ->
      Forall2 (fun entry expansion => expand_variant (strip entry) = Ok expansion)
              entries lists ->
      group_variants ("[" ++ join "," entries ++ "]") = Ok ([] :: concat lists))
  /\ (forall inner : str,
      (forall c, In c inner -> mem c ALL_TOKENS = false) ->
      group_variants ("[" ++ inner ++ "]")
      = Ok ([] :: map strip (str_split "," inner)))
  /\ show (group_variants "[X, Y]") = Ok [""; "X"; "Y"]
  /\ show (group_variants "[X, {A, B}_C]") = Ok [""; "X"; "A_C"; "B_C"].
Proof.
  split; [|split; [|split; [|split; vm_compute; reflexivity]]].
  - intros enumeration Hhd Hcount.
    pose proof (optional_enumeration_variants _ Hhd Hcount) as Hev.
    unfold group_variants. rewrite Hev. unfold Option, gen_cons.
    split; [|split].
    + eexists. eexists. reflexivity.
    + intros lists Hlists.
      rewrite (flatten_runs_map_ok (fun sub_variant => expand_variant (strip sub_variant))
                 Hlists).
      split; reflexivity.
    + intros k entry lists e Hfirst Hnth Hentry.
      rewrite (@flatten_runs_map_stops _ _
                 (fun sub_variant => expand_variant (strip sub_variant))
                 k _ _ _ _ Hfirst Hnth Hentry).
      split; reflexivity.
  - intros entries lists Hne Hlevel Hcount Hlists. unfold group_variants.
    change ("[" ++ join "," entries ++ "]")
      with ("["%char :: join "," entries ++ ["]"%char]).
    rewrite optional_enumeration_variants.
    + rewrite py_slice_inner_wrap, (split_on_level_entries Hne Hlevel).
      rewrite (flatten_runs_map_ok (fun sub_variant => expand_variant (strip sub_variant))
                 Hlists).
      reflexivity.
    + reflexivity.
    + rewrite !count_cons, !count_app, Hcount. cbn. lia.
  - intros inner Hplain. unfold group_variants.
    change ("[" ++ inner ++ "]") with ("["%char :: inner ++ ["]"%char]).
    rewrite optional_enumeration_variants.
    + rewrite py_slice_inner_wrap.
      rewrite split_on_level_plain by exact Hplain.
      rewrite (map_ext_in _ (fun sub => Ok [strip sub])).
      * rewrite <- (map_map strip (fun x => Ok [x])), flatten_runs_singletons.
        reflexivity.
      * intros sub Hsub. apply expand_variant_plain. intros c Hc.
        apply strip_in in Hc.
        destruct (@split_char_loop_in _ c _ _ sub Hsub Hc) as [H|[]].
        apply Hplain, H.
    + reflexivity.
    + rewrite !count_cons, !count_app.
      rewrite (@count_no_delimiter "[" inner) by (reflexivity || exact Hplain).
      rewrite (@count_no_delimiter "]" inner) by (reflexivity || exact Hplain).
      reflexivity.
Qed.

Lemma optional_group_starts_with_empty_witness :
  group_variants "[X, Y]" = Ok (lits [""; "X"; "Y"])
  /\ enumeration_variants "[X, }A{, Y]" = Ok (lits [""; "X"], Some KeyError)
  /\ group_variants "[X, {A, B}_C]" = Ok (lits [""; "X"; "A_C"; "B_C"])
  /\ group_variants "[RED, GREEN]"
     = Ok ([] :: map strip (str_split "," "RED, GREEN")).
Proof.
  split; [|split; [|split]].
  - refine (proj2 (proj1 (proj2 (proj1 optional_group_starts_with_empty
                                   "[X, Y]" eq_refl eq_refl))
                     [lits ["X"]; lits ["Y"]] _)).
    replace (split_on_level (py_slice 1 (-1) "[X, Y]") ",")
      with (lits ["X"; " Y"]) by reflexivity.
    apply Forall2_cons; [reflexivity|].
    apply Forall2_cons; [reflexivity|].
    apply Forall2_nil.
  - refine (proj1 (proj2 (proj2 (proj1 optional_group_starts_with_empty
                                   "[X, }A{, Y]" eq_refl eq_refl))
                     1 (list_ascii_of_string " }A{") [lits ["X"]] KeyError _ _ _)).
    + replace (firstn 1 (split_on_level (py_slice 1 (-1) "[X, }A{, Y]") ","))
        with (lits ["X"]) by reflexivity.
      apply Forall2_cons; [reflexivity|].
      apply Forall2_nil.
    + reflexivity.
    + reflexivity.
  - refine (proj1 (proj2 optional_group_starts_with_empty)
              (lits ["X"; " {A, B}_C"]) [lits ["X"]; lits ["A_C"; "B_C"]] _ _ _ _).
    + discriminate.
    + apply Forall_cons; [reflexivity|].
      apply Forall_cons; [reflexivity|].
      apply Forall_nil.
    + reflexivity.
    + apply Forall2_cons; [reflexivity|].
      apply Forall2_cons; [reflexivity|].
      apply Forall2_nil.
  - apply (proj1 (proj2 (proj2 optional_group_starts_with_empty)) "RED, GREEN").
    intros c Hc. simpl in Hc.
    repeat (destruct Hc as [<-|Hc]; [reflexivity|]). destruct Hc.
Defined.

(** ** Tokens *)

Lemma lstrip_spaces (s : str) :
  (forall c, In c s -> is_space c = true) -> lstrip s = [].
Proof.
  induction s as [|x s IH]; intros H; [reflexivity|]. simpl.
  rewrite (H x (or_introl eq_refl)). apply IH. intros c Hc. apply H. right. assumption.
Qed.

Lemma keep_token_spaces (s : str) :
  (forall c, In c s -> is_space c = true) -> keep_token s = false.
Proof.
  intros H. unfold keep_token, strip. rewrite lstrip_spaces by assumption. reflexivity.
Qed.

Lemma lstrip_no_space (s : str) :
  (forall c, In c s -> is_space c = false) -> lstrip s = s.
Proof.
  destruct s as [|x s]; intros H; [reflexivity|]. simpl.
  rewrite (H x (or_introl eq_refl)). reflexivity.
Qed.

Lemma strip_no_space (s : str) :
  (forall c, In c s -> is_space c = false) -> strip s = s.
Proof.
  intros H. unfold strip, rstrip. rewrite (lstrip_no_space s H).
  rewrite lstrip_no_space, rev_involutive; [reflexivity|].
  intros c Hc. apply H. apply in_rev. assumption.
Qed.

Lemma keep_token_no_space (s : str) :
  s <> [] -> (forall c, In c s -> is_space c = false) -> keep_token s = true.
Proof.
  intros Hne H. unfold keep_token. rewrite strip_no_space by assumption.
  destruct s; [congruence | reflexivity].
Qed.

Lemma tokenize_keep (code : str) :
  tokenize code = filter keep_token (re_split code).
Proof. reflexivity. Qed.

Lemma re_split_loop_pieces (code : str) :
  forall text ws : str,
    (forall c, In c text -> is_space c = false /\ c <> "*"%char) ->
    (forall c, In c ws -> is_space c = true) ->
    Forall piece_kind (re_split_loop code text ws).
Proof.
  induction code as [|c code IH]; intros text ws Htext Hws.
  - cbn. destruct ws.
    + constructor; [apply piece_text, Htext | constructor].
    + constructor; [apply piece_text, Htext|].
      constructor; [apply piece_space, Hws|].
      constructor; [|constructor]. apply piece_space. intros x [].
  - cbn [re_split_loop]. destruct (is_space c) eqn:Ec.
    + apply IH; [assumption|]. intros x Hx. apply in_app_or in Hx.
      destruct Hx as [Hx|[<-|[]]]; [apply Hws, Hx | assumption].
    + assert (Hnil : forall x : ascii, In x [] -> is_space x = false /\ x <> "*"%char)
        by (intros x []).
      assert (Hnone : forall x : ascii, In x [] -> is_space x = true) by (intros x []).
      destruct ws as [|w ws]; destruct (Ascii.eqb_spec c "*") as [->|Hc].
      * constructor; [apply piece_text, Htext|].
        constructor; [apply piece_star; reflexivity|]. apply IH; assumption.
      * apply IH; [|assumption]. intros x Hx. apply in_app_or in Hx.
        destruct Hx as [Hx|[<-|[]]]; [apply Htext, Hx | split; assumption].
      * constructor; [apply piece_text, Htext|].
        constructor; [apply piece_space, Hws|].
        constructor; [apply piece_text, Hnil|].
        constructor; [apply piece_star; reflexivity|]. apply IH; assumption.
      * constructor; [apply piece_text, Htext|].
        constructor; [apply piece_space, Hws|].
        apply IH; [|assumption]. intros x [<-|[]]. split; assumption.
Qed.

Lemma re_split_loop_concat (code : str) :
  forall text ws : str,
    concat (re_split_loop code text ws) = text ++ ws ++ code.
Proof.
  induction code as [|c code IH]; intros text ws.
  - cbn. destruct ws; cbn; rewrite ?app_nil_r; reflexivity.
  - cbn [re_split_loop]. destruct (is_space c).
    + rewrite IH. rewrite <- !app_assoc. reflexivity.
    + destruct ws as [|w ws]; destruct (Ascii.eqb_spec c "*") as [->|Hc];
        cbn [concat]; rewrite IH; cbn; rewrite <- ?app_assoc; reflexivity.
Qed.

Lemma filter_concat_pieces (pieces : list str) :
  Forall piece_kind pieces ->
  concat (filter keep_token pieces)
  = filter (fun c => negb (is_space c)) (concat pieces).
Proof.
  induction 1 as [|t pieces Ht _ IH]; [reflexivity|].
  cbn [filter concat]. rewrite filter_app, <- IH.
  assert (Hsame : forall s : str, (forall c, In c s -> is_space c = false) ->
                    filter (fun c => negb (is_space c)) s = s).
  { induction s as [|x s IHs]; intros Hs; [reflexivity|]. simpl.
    rewrite (Hs x (or_introl eq_refl)). simpl. f_equal. apply IHs.
    intros c Hc. apply Hs. right. assumption. }
  assert (Hnone : forall s : str, (forall c, In c s -> is_space c = true) ->
                    filter (fun c => negb (is_space c)) s = []).
  { induction s as [|x s IHs]; intros Hs; [reflexivity|]. simpl.
    rewrite (Hs x (or_introl eq_refl)). simpl. apply IHs.
    intros c Hc. apply Hs. right. assumption. }
  destruct Ht as [-> | Hsp | Htx].
  - reflexivity.
  - rewrite keep_token_spaces, Hnone by assumption. reflexivity.
  - assert (Hns : forall c, In c t -> is_space c = false) by (intros c Hc; apply Htx, Hc).
    rewrite (Hsame t Hns). destruct t as [|x t]; [reflexivity|].
    rewrite keep_token_no_space by (assumption || discriminate). reflexivity.
Qed.

(** X9. Every token of [tokenize] is the star or a word: not empty, free
    of whitespace and of stars. The tokens, put together, are the code
    without its whitespace. *)
Theorem tokenize_tokens (code : str) :
  (forall t, In t (tokenize code) -> t = ["*"%char] \/ is_word t)
  /\ concat (tokenize code) = filter (fun c => negb (is_space c)) code.
Proof.
  assert (Hpieces : Forall piece_kind (re_split code)).
  { apply re_split_loop_pieces; intros c []. }
  split.
  - intros t Ht. rewrite tokenize_keep in Ht. apply filter_In in Ht.
    destruct Ht as [Hin Hkeep]. rewrite Forall_forall in Hpieces.
    destruct (Hpieces t Hin) as [-> | Hsp | Htx].
    + left. reflexivity.
    + rewrite keep_token_spaces in Hkeep by assumption. discriminate.
    + right. split; [|assumption]. intros ->. discriminate.
  - rewrite tokenize_keep, filter_concat_pieces by assumption.
    unfold re_split. rewrite re_split_loop_concat. reflexivity.
Qed.

(** ** The grammar of declarations *)

Lemma py_slice_from_tail (A : Type) (a : A) (l : list A) :
  py_slice_from 1 (a :: l) = l.
Proof.
  change 1%Z with (Z.of_nat 1). rewrite py_slice_from_nat by (simpl; lia).
  reflexivity.
Qed.

Lemma take_qualifiers_app (words next : list str) :
  Forall (fun word => Qualifier_check word = true) words ->
  (forall t, hd_error next = Some t -> Qualifier_check t = false) ->
  take_qualifiers (words ++ next) = Ok (map (fun _ => mk_Qualifier Const) words).
Proof.
  intros Hwords Hnext. induction Hwords as [|w words Hw _ IH]; simpl.
  - destruct next as [|t next]; [reflexivity|]. simpl.
    rewrite Qualifier_process_spec, (Hnext t eq_refl). reflexivity.
  - rewrite Qualifier_process_spec, Hw, IH. reflexivity.
Qed.

Lemma take_qualifiers_inv (l : list str) (qs : list Qualifier) :
  take_qualifiers l = Ok qs ->
  exists words next,
    l = words ++ next
    /\ Forall (fun word => Qualifier_check word = true) words
    /\ qs = map (fun _ => mk_Qualifier Const) words
    /\ (forall t, hd_error next = Some t -> Qualifier_check t = false).
Proof.
  revert qs. induction l as [|t l IH]; intros qs; simpl.
  - intros [= <-]. exists [], []. repeat split; [constructor | discriminate].
  - rewrite Qualifier_process_spec. destruct (Qualifier_check t) eqn:Et.
    + destruct (take_qualifiers l) as [qs'|]; [|discriminate].
      cbn [rbind]. intros [= <-].
      destruct (IH qs' eq_refl) as (words & next & -> & Hw & -> & Hn).
      exists (t :: words), next. repeat split; [constructor; assumption | assumption].
    + intros [= <-]. exists [], (t :: l). repeat split; [constructor|].
      intros t' [= <-]. assumption.
Qed.

Lemma str_eqb_refl (s : str) : str_eqb s s = true.
Proof. apply str_eqb_eq. reflexivity. Qed.

Lemma str_eqb_neq (a b : str) : a <> b -> str_eqb a b = false.
Proof.
  intros H. destruct (str_eqb a b) eqn:E; [|reflexivity].
  apply str_eqb_eq in E. contradiction.
Qed.

Lemma pointer_tokens_length (levels : list (list str)) (rest : list str) :
  length rest <= length (pointer_tokens levels ++ rest).
Proof. rewrite length_app. lia. Qed.

Lemma pointer_tokens_cons (words : list str) (levels : list (list str)) (rest : list str) :
  pointer_tokens (words :: levels) ++ rest
  = ["*"%char] :: words ++ (pointer_tokens levels ++ rest).
Proof.
  unfold pointer_tokens. cbn [flat_map]. rewrite <- app_assoc. reflexivity.
Qed.

Lemma parse_pointers_loop_grammar (levels : list (list str)) :
  forall (fuel : nat) (acc : list Pointer) (rest : list str),
    length (pointer_tokens levels ++ rest) < fuel ->
    Forall (Forall (fun word => Qualifier_check word = true)) levels ->
    (forall t, hd_error rest = Some t ->
               t <> ["*"%char] /\ (levels <> [] -> Qualifier_check t = false)) ->
    parse_pointers_loop fuel acc (pointer_tokens levels ++ rest)
    = match rest with
      | [] => (Raise IndexError, [])
      | _ => (Ok (acc ++ pointer_nodes levels), rest)
      end.
Proof.
  induction levels as [|words levels IH]; intros fuel acc rest Hfuel Hq Hrest;
    (destruct fuel as [|fuel]; [lia|]).
  - cbn [pointer_tokens flat_map app parse_pointers_loop].
    unfold bind, first_token. destruct rest as [|t rest]; [reflexivity|].
    destruct (Hrest t eq_refl) as [Hstar _].
    change (list_ascii_of_string "*") with ["*"%char].
    rewrite (str_eqb_neq Hstar). cbn. rewrite app_nil_r. reflexivity.
  - inversion Hq as [|? ? Hwords Hlevels]; subst.
    rewrite pointer_tokens_cons in *.
    cbn [parse_pointers_loop]. unfold bind at 1. unfold first_token.
    change (list_ascii_of_string "*") with ["*"%char]. rewrite str_eqb_refl.
    unfold bind at 1. unfold get_tokens. unfold bind at 1. unfold lift.
    rewrite py_slice_from_tail.
    rewrite take_qualifiers_app.
    + unfold bind at 1. unfold del_tokens, del_prefix.
      rewrite length_map, Nat.add_1_r. cbn [skipn].
      rewrite skipn_app, skipn_all, Nat.sub_diag. cbn [skipn app].
      rewrite IH.
      * destruct rest; [reflexivity|].
        cbn [pointer_nodes map]. rewrite <- app_assoc. reflexivity.
      * cbn [length] in Hfuel. rewrite length_app in Hfuel. lia.
      * assumption.
      * intros t Ht. destruct (Hrest t Ht) as [Hs Hc]. split; [assumption|].
        intros _. apply Hc. discriminate.
    + assumption.
    + intros t Ht. destruct levels as [|words' levels].
      * apply (Hrest t Ht). discriminate.
      * injection Ht as <-. reflexivity.
Qed.

Lemma Declarator_process_grammar (levels : list (list str)) (rest : list str) :
  Forall (Forall (fun word => Qualifier_check word = true)) levels ->
  (forall t, hd_error rest = Some t ->
             t <> ["*"%char] /\ (levels <> [] -> Qualifier_check t = false)) ->
  Declarator_process (pointer_tokens levels ++ rest)
  = match rest with
    | [] => match levels with
            | [] => (Ok None, [])
            | _ => (Raise IndexError, [])
            end
    | [identifier] =>
        (Ok (Some (mk_Declarator (pointer_nodes levels) (mk_MultiIdent identifier))),
         [identifier])
    | _ => (Raise ValueError, rest)
    end.
Proof.
  intros Hq Hrest.
  cbv [Declarator_process Declarator_assemble parse_pointers bind get_tokens
       Declarator_check ret raise].
  destruct (length (pointer_tokens levels ++ rest) =? 0) eqn:Hz.
  - apply Nat.eqb_eq, length_zero_iff_nil, app_eq_nil in Hz. destruct Hz as [Hl ->].
    destruct levels; [reflexivity | discriminate].
  - match goal with
    | |- context [if ?b then _ else _] =>
        replace b with false by (symmetry; exact Hz)
    end.
    rewrite parse_pointers_loop_grammar by (assumption || lia).
    destruct rest as [|identifier [|t rest]].
    + destruct levels; [discriminate | reflexivity].
    + reflexivity.
    + reflexivity.
Qed.

Lemma parse_pointers_loop_inv (fuel : nat) :
  forall (acc : list Pointer) (tokens : list str) (ps : list Pointer) (final : list str),
    parse_pointers_loop fuel acc tokens = (Ok ps, final) ->
    exists levels,
      tokens = pointer_tokens levels ++ final
      /\ ps = acc ++ pointer_nodes levels
      /\ Forall (Forall (fun word => Qualifier_check word = true)) levels
      /\ exists t rest, final = t :: rest /\ t <> ["*"%char]
                        /\ (levels <> [] -> Qualifier_check t = false).
Proof.
  induction fuel as [|fuel IH]; intros acc tokens ps final; [discriminate|].
  cbn [parse_pointers_loop]. unfold bind at 1. unfold first_token.
  destruct tokens as [|t tokens]; [discriminate|].
  change (list_ascii_of_string "*") with ["*"%char].
  destruct (str_eqb t ["*"%char]) eqn:Estar.
  - apply str_eqb_eq in Estar. subst t.
    unfold bind at 1. unfold get_tokens. unfold bind at 1. unfold lift.
    rewrite py_slice_from_tail.
    destruct (take_qualifiers tokens) as [qs|e] eqn:Eq; [|discriminate].
    destruct (take_qualifiers_inv _ Eq) as (words & next & -> & Hwords & -> & Hnext).
    unfold bind at 1. unfold del_tokens, del_prefix.
    rewrite length_map, Nat.add_1_r. cbn [skipn].
    rewrite skipn_app, skipn_all, Nat.sub_diag. cbn [skipn app].
    intros H. apply IH in H.
    destruct H as (levels & -> & -> & Hlevels & t & rest & -> & Ht & Hc).
    exists (words :: levels). rewrite pointer_tokens_cons.
    split; [reflexivity|]. split; [cbn [pointer_nodes map]; rewrite <- app_assoc; reflexivity|].
    split; [constructor; assumption|].
    exists t, rest. split; [reflexivity|]. split; [assumption|].
    intros _. destruct levels as [|w' levels]; [apply Hnext; reflexivity|].
    apply Hc. discriminate.
  - cbn. intros [= <- <-]. exists []. cbn. rewrite app_nil_r.
    split; [reflexivity|]. split; [reflexivity|]. split; [constructor|].
    exists t, tokens. split; [reflexivity|]. split; [|congruence].
    intros ->. rewrite str_eqb_refl in Estar. discriminate.
Qed.

Lemma Declarator_process_inv (tokens final : list str) (node : Declarator) :
  Declarator_process tokens = (Ok (Some node), final) ->
  exists levels identifier,
    tokens = pointer_tokens levels ++ [identifier]
    /\ node = mk_Declarator (pointer_nodes levels) (mk_MultiIdent identifier)
    /\ Forall (Forall (fun word => Qualifier_check word = true)) levels
    /\ identifier <> ["*"%char]
    /\ (levels <> [] -> Qualifier_check identifier = false)
    /\ final = [identifier].
Proof.
  unfold Declarator_process, bind at 1, get_tokens, Declarator_check.
  destruct tokens as [|t0 tokens]; [discriminate|].
  cbn [length Nat.eqb]. unfold bind at 1, Declarator_assemble, bind at 1.
  unfold parse_pointers, bind at 1, get_tokens. cbn [length Nat.eqb].
  destruct (parse_pointers_loop _ [] (t0 :: tokens)) as [[ps|e] rest] eqn:E;
    [|discriminate].
  apply parse_pointers_loop_inv in E.
  destruct E as (levels & Htok & -> & Hlevels & t & rest' & -> & Ht & Hc).
  unfold bind at 1, get_tokens.
  destruct rest' as [|t' rest']; [|discriminate].
  cbn. intros [= <- <-].
  exists levels, t. repeat split; assumption.
Qed.

Lemma Declaration_process_checked (tokens : list str) :
  1 < length tokens ->
  Declaration_process tokens
  = match Declaration_assemble tokens with
    | (Ok node, final) => (Ok (Some node), final)
    | (Raise e, final) => (Raise e, final)
    end.
Proof.
  intros H. unfold Declaration_process, bind, get_tokens, Declaration_check, ret.
  destruct (Nat.ltb_spec 1 (length tokens)); [|lia].
  destruct (Declaration_assemble tokens) as [[node|e] final]; reflexivity.
Qed.

Lemma Declaration_process_grammar
    (q : option str) (type : str) (levels : list (list str)) (identifier : str) :
  grammar_conditions q type levels identifier ->
  Declaration_process (declaration_tokens q type levels identifier)
  = (Ok (Some (declaration_node q type levels identifier)), [identifier]).
Proof.
  intros (Hq & Hlevels & Hstar & Hident).
  assert (Hrest : forall t, hd_error [identifier] = Some t ->
                    t <> ["*"%char] /\ (levels <> [] -> Qualifier_check t = false))
    by (intros t [= <-]; split; assumption).
  rewrite Declaration_process_checked.
  - unfold declaration_tokens, declaration_node, Declaration_assemble.
    destruct q as [word|]; cbn [app].
    + unfold bind at 1, first_token, bind at 1, lift.
      rewrite Qualifier_process_spec, Hq.
      unfold bind at 1, bind at 1, del_tokens, del_prefix. cbn [skipn].
      unfold bind at 1, pop_first, bind at 1.
      rewrite (@Declarator_process_grammar levels [identifier] Hlevels Hrest). reflexivity.
    + unfold bind at 1, first_token, bind at 1, lift.
      rewrite Qualifier_process_spec, Hq.
      unfold bind at 1, bind at 1, ret.
      unfold bind at 1, pop_first, bind at 1.
      rewrite (@Declarator_process_grammar levels [identifier] Hlevels Hrest). reflexivity.
  - unfold declaration_tokens. rewrite !length_app. cbn [length]. lia.
Qed.

(** X10. [Declaration.process] reads the grammar of declarations: on the
    tokens of an optional qualifier, a type, pointer levels (a star and
    the qualifiers behind it) and an identifier it builds the node with
    that type, those pointer levels and that identifier, and leaves the
    identifier in the token list. *)
Theorem Declaration_process_accepts_grammar
    (q : option str) (type : str) (levels : list (list str)) (identifier : str) :
  grammar_conditions q type levels identifier ->
  Declaration_process (declaration_tokens q type levels identifier)
  = (Ok (Some (declaration_node q type levels identifier)), [identifier]).
Proof. apply Declaration_process_grammar. Qed.

Lemma Declaration_process_accepts_grammar_witness :
  Declaration_process (lits ["const"; "void"; "*"; "const"; "*"; "indices"])
  = (Ok (Some (declaration_node (Some (list_ascii_of_string "const")) "void"
                 [lits ["const"]; []] "indices")),
     lits ["indices"]).
Proof.
  apply (@Declaration_process_accepts_grammar (Some (list_ascii_of_string "const")) "void"
           [lits ["const"]; []] "indices").
  unfold grammar_conditions. split; [reflexivity|]. split.
  - repeat constructor.
  - split; [discriminate | reflexivity].
Defined.

Lemma Declaration_process_inv
    (tokens final : list str) (node : Declaration) :
  Declaration_process tokens = (Ok (Some node), final) ->
  exists q type levels identifier,
    tokens = declaration_tokens q type levels identifier
    /\ node = declaration_node q type levels identifier
    /\ grammar_conditions q type levels identifier
    /\ final = [identifier].
Proof.
  unfold Declaration_process, bind at 1, get_tokens, Declaration_check.
  destruct (1 <? length tokens); [|discriminate].
  unfold bind at 1.
  destruct (Declaration_assemble tokens) as [[d|e] store] eqn:E; [|discriminate].
  cbn. intros [= <- <-]. revert E.
  unfold Declaration_assemble, bind at 1, first_token.
  destruct tokens as [|token rest]; [discriminate|].
  unfold bind at 1, lift. rewrite Qualifier_process_spec.
  destruct (Qualifier_check token) eqn:Eq.
  - unfold bind at 1, bind at 1, del_tokens, del_prefix. cbn [skipn].
    unfold bind at 1, pop_first.
    destruct rest as [|type rest]; [discriminate|].
    unfold bind at 1.
    destruct (Declarator_process rest) as [[[dn|]|e] store'] eqn:Ed; [|discriminate..].
    cbn. intros [= <- <-].
    destruct (Declarator_process_inv _ Ed)
      as (levels & identifier & -> & -> & Hl & Hs & Hc & ->).
    exists (Some token), type, levels, identifier.
    repeat split; assumption.
  - unfold bind at 1, bind at 1, ret. unfold bind at 1, pop_first, bind at 1.
    destruct (Declarator_process rest) as [[[dn|]|e] store'] eqn:Ed; [|discriminate..].
    cbn. intros [= <- <-].
    destruct (Declarator_process_inv _ Ed)
      as (levels & identifier & -> & -> & Hl & Hs & Hc & ->).
    exists None, token, levels, identifier.
    repeat split; assumption.
Qed.

(** X11. [Declaration.process] reads nothing but that grammar: whenever it
    builds a node, the token list was an optional qualifier word, a type,
    pointer levels of qualifier words and an identifier that is not the
    star, and the node is the one of these parts. *)
Theorem Declaration_process_only_grammar
    (tokens final : list str) (node : Declaration) :
  Declaration_process tokens = (Ok (Some node), final) ->
  exists q type levels identifier,
    tokens = declaration_tokens q type levels identifier
    /\ node = declaration_node q type levels identifier
    /\ grammar_conditions q type levels identifier
    /\ final = [identifier].
Proof. apply Declaration_process_inv. Qed.

Lemma Declaration_process_only_grammar_witness :
  exists q type levels identifier,
    tokenize "int *const foo" = declaration_tokens q type levels identifier
    /\ mk_Declaration None (mk_MultiIdent "int")
         (mk_Declarator [mk_Pointer [mk_Qualifier Const]] (mk_MultiIdent "foo"))
       = declaration_node q type levels identifier
    /\ grammar_conditions q type levels identifier
    /\ lits ["foo"] = [identifier].
Proof.
  apply (@Declaration_process_only_grammar (tokenize "int *const foo")).
  reflexivity.
Defined.

(** X12. What [Declarator.process] does with a token list that begins
    with pointer levels: with nothing behind them it raises [IndexError]
    (it is "no match" only for the empty list), with exactly one token
    behind them it builds the declarator, and with more than one it raises
    [ValueError]. Nothing of this is a classified parse failure. *)
Theorem Declarator_process_outcomes (levels : list (list str)) (rest : list str) :
  Forall (Forall (fun word => Qualifier_check word = true)) levels ->
  (forall t, hd_error rest = Some t ->
             t <> ["*"%char] /\ (levels <> [] -> Qualifier_check t = false)) ->
  Declarator_process (pointer_tokens levels ++ rest)
  = match rest with
    | [] => match levels with
            | [] => (Ok None, [])
            | _ => (Raise IndexError, [])
            end
    | [identifier] =>
        (Ok (Some (mk_Declarator (pointer_nodes levels) (mk_MultiIdent identifier))),
         [identifier])
    | _ => (Raise ValueError, rest)
    end.
Proof. apply Declarator_process_grammar. Qed.

Lemma Declarator_process_outcomes_witness :
  Declarator_process (lits ["*"; "const"; "*"]) = (Raise IndexError, [])
  /\ Declarator_process (lits ["*"; "foo"; "bar"]) = (Raise ValueError, lits ["foo"; "bar"]).
Proof.
  split.
  - apply (@Declarator_process_outcomes [lits ["const"]; []] []).
    + repeat constructor.
    + discriminate.
  - apply (@Declarator_process_outcomes [[]] (lits ["foo"; "bar"])).
    + repeat constructor.
    + intros t [= <-]. split; [discriminate | reflexivity].
Defined.

(** ** Printing a declaration and reading it back *)

Lemma tokenize_shape (code t : str) :
  In t (tokenize code) -> t = ["*"%char] \/ is_word t.
Proof.
  intros Ht. rewrite tokenize_keep in Ht. apply filter_In in Ht.
  destruct Ht as [Hin Hkeep].
  assert (Hpieces : Forall piece_kind (re_split code))
    by (apply re_split_loop_pieces; intros c []).
  rewrite Forall_forall in Hpieces.
  destruct (Hpieces t Hin) as [-> | Hsp | Htx].
  - left. reflexivity.
  - rewrite keep_token_spaces in Hkeep by assumption. discriminate.
  - right. split; [|assumption]. intros ->. discriminate.
Qed.

Lemma re_split_loop_word (w rest text : str) :
  (forall c, In c w -> is_space c = false /\ c <> "*"%char) ->
  re_split_loop (w ++ rest) text [] = re_split_loop rest (text ++ w) [].
Proof.
  revert text. induction w as [|x w IH]; intros text Hw.
  - rewrite app_nil_r. reflexivity.
  - destruct (Hw x (or_introl eq_refl)) as [Hsp Hst].
    cbn [app re_split_loop]. rewrite Hsp.
    destruct (Ascii.eqb_spec x "*"); [contradiction|].
    rewrite IH by (intros c Hc; apply Hw; right; assumption).
    rewrite <- app_assoc. reflexivity.
Qed.

Lemma re_split_loop_after_space (rest : str) :
  forall text ws : str,
    ws <> [] -> (forall c, In c ws -> is_space c = true) ->
    filter keep_token (re_split_loop rest text ws)
    = filter keep_token [text] ++ filter keep_token (re_split_loop rest [] []).
Proof.
  induction rest as [|c rest IH]; intros text ws Hne Hws.
  - destruct ws as [|w ws]; [congruence|].
    cbn [re_split_loop filter]. rewrite (keep_token_spaces (w :: ws)) by assumption.
    change (keep_token []) with false. cbn. rewrite app_nil_r. reflexivity.
  - cbn [re_split_loop]. destruct (is_space c) eqn:Ec.
    + change ([] ++ [c]) with [c]. rewrite IH.
      * rewrite (IH [] [c]); [reflexivity | discriminate |].
        intros x [<-|[]]. assumption.
      * destruct ws; discriminate.
      * intros x Hx. apply in_app_or in Hx.
        destruct Hx as [Hx|[<-|[]]]; [apply Hws, Hx | assumption].
    + destruct ws as [|w ws]; [congruence|].
      destruct (Ascii.eqb c "*"); cbn [filter];
        rewrite (keep_token_spaces (w :: ws)) by assumption;
        change (keep_token []) with false; cbn [app];
        destruct (keep_token text); reflexivity.
Qed.

Lemma tokenize_space (c : ascii) (rest : str) :
  is_space c = true -> tokenize (c :: rest) = tokenize rest.
Proof.
  intros Hc. rewrite !tokenize_keep. unfold re_split.
  cbn [re_split_loop]. rewrite Hc. cbn [app].
  rewrite re_split_loop_after_space; [reflexivity | discriminate |].
  intros x [<-|[]]. assumption.
Qed.

Lemma tokenize_star (rest : str) :
  tokenize ("*"%char :: rest) = ["*"%char] :: tokenize rest.
Proof. reflexivity. Qed.

Lemma is_word_keep (w : str) : is_word w -> keep_token w = true.
Proof.
  intros [Hne Hw]. apply keep_token_no_space; [assumption|].
  intros c Hc. apply Hw, Hc.
Qed.

Lemma tokenize_word_space (w : str) (c : ascii) (rest : str) :
  is_word w -> is_space c = true ->
  tokenize (w ++ c :: rest) = w :: tokenize rest.
Proof.
  intros Hw Hc. rewrite !tokenize_keep. unfold re_split.
  rewrite re_split_loop_word by apply Hw. cbn [app re_split_loop]. rewrite Hc.
  cbn [app]. rewrite re_split_loop_after_space.
  - cbn [filter]. rewrite (is_word_keep Hw). reflexivity.
  - discriminate.
  - intros x [<-|[]]. assumption.
Qed.

Lemma tokenize_word (w : str) : is_word w -> tokenize w = [w].
Proof.
  intros Hw. rewrite tokenize_keep. unfold re_split.
  rewrite <- (app_nil_r w) at 1. rewrite re_split_loop_word by apply Hw.
  cbn. rewrite (is_word_keep Hw). reflexivity.
Qed.

Lemma tokenize_token_space (t rest : str) :
  t = ["*"%char] \/ is_word t ->
  tokenize (t ++ " "%char :: rest) = t :: tokenize rest.
Proof.
  intros [->|Hw].
  - cbn [app]. rewrite tokenize_star, tokenize_space by reflexivity. reflexivity.
  - apply tokenize_word_space; [assumption | reflexivity].
Qed.

Lemma is_word_const : is_word (list_ascii_of_string "const").
Proof.
  split; [discriminate|]. intros c Hc. simpl in Hc.
  repeat (destruct Hc as [<-|Hc]; [split; [reflexivity | discriminate]|]).
  destruct Hc.
Qed.

Lemma Qualifier_str_const (q : Qualifier) :
  Qualifier_str q = list_ascii_of_string "const".
Proof. destruct q as [[]]. reflexivity. Qed.

Lemma tokenize_qualifiers (quals : list Qualifier) (rest : str) :
  tokenize (join " " (map Qualifier_str quals) ++ " "%char :: rest)
  = map (fun _ => list_ascii_of_string "const") quals ++ tokenize rest.
Proof.
  induction quals as [|q quals IH].
  - cbn [map join app]. apply tokenize_space. reflexivity.
  - cbn [map]. destruct quals as [|q' quals].
    + cbn [map join app]. rewrite Qualifier_str_const.
      apply tokenize_word_space; [apply is_word_const | reflexivity].
    + rewrite join_cons by discriminate. rewrite Qualifier_str_const.
      rewrite <- !app_assoc.
      change (list_ascii_of_string " " ++ ?x) with (" "%char :: x).
      rewrite tokenize_word_space by (apply is_word_const || reflexivity).
      rewrite IH. reflexivity.
Qed.

Lemma pointer_nodes_printed (levels : list (list str)) :
  pointer_nodes (printed_levels levels) = pointer_nodes levels.
Proof.
  unfold pointer_nodes, printed_levels. rewrite map_map.
  apply map_ext. intros words. rewrite map_map. reflexivity.
Qed.

Lemma tokenize_pointers (levels : list (list str)) (rest : str) :
  levels <> [] ->
  tokenize (join " " (map Pointer_str (pointer_nodes levels)) ++ " "%char :: rest)
  = pointer_tokens (printed_levels levels) ++ tokenize rest.
Proof.
  induction levels as [|words levels IH]; [congruence|]. intros _.
  unfold printed_levels. cbn [map]. fold (printed_levels levels).
  rewrite pointer_tokens_cons.
  assert (Hq : forall tail,
             tokenize (Pointer_str (mk_Pointer (map (fun _ => mk_Qualifier Const) words))
                       ++ " "%char :: tail)
             = ["*"%char] :: map (fun _ => list_ascii_of_string "const") words
               ++ tokenize tail).
  { intros tail. unfold Pointer_str. cbn [qualifiers].
    change (list_ascii_of_string "*" ++ ?x) with ("*"%char :: x).
    cbn [app]. rewrite tokenize_star, tokenize_qualifiers, map_map. reflexivity. }
  destruct levels as [|words' levels].
  - cbn [pointer_nodes map join]. rewrite Hq. reflexivity.
  - cbn [pointer_nodes map]. rewrite join_cons by discriminate.
    rewrite <- !app_assoc.
    change (list_ascii_of_string " " ++ ?x) with (" "%char :: x).
    rewrite Hq. do 2 f_equal. apply IH. discriminate.
Qed.

Lemma tokenize_Declarator_str (levels : list (list str)) (identifier : str) :
  is_word identifier ->
  tokenize (Declarator_str (mk_Declarator (pointer_nodes levels) (mk_MultiIdent identifier)))
  = pointer_tokens (printed_levels levels) ++ [identifier].
Proof.
  intros Hw. unfold Declarator_str. cbn [pointers ident name].
  destruct levels as [|words levels].
  - cbn. apply tokenize_word, Hw.
  - replace (0 <? length (pointer_nodes (words :: levels))) with true by reflexivity.
    rewrite <- app_assoc.
    change (list_ascii_of_string " " ++ ?x) with (" "%char :: x).
    rewrite tokenize_pointers by discriminate.
    rewrite (tokenize_word Hw). reflexivity.
Qed.

Lemma tokenize_Declaration_str
    (q : option str) (type : str) (levels : list (list str)) (identifier : str) :
  type = ["*"%char] \/ is_word type ->
  is_word identifier ->
  tokenize (Declaration_str (declaration_node q type levels identifier))
  = declaration_tokens
      (match q with Some _ => Some (list_ascii_of_string "const") | None => None end)
      type (printed_levels levels) identifier.
Proof.
  intros Htype Hident. unfold Declaration_str, declaration_node, declaration_tokens.
  cbn [type_qualifier type_specifier declarator name].
  destruct q as [word|]; cbn [app join].
  - change (Qualifier_str {| qualifier := Const |}) with (list_ascii_of_string "const").
    change (list_ascii_of_string " " ++ ?x) with (" "%char :: x).
    rewrite tokenize_word_space by (apply is_word_const || reflexivity).
    change (list_ascii_of_string " " ++ ?x) with (" "%char :: x).
    rewrite (tokenize_token_space _ Htype), tokenize_Declarator_str by assumption.
    reflexivity.
  - change (list_ascii_of_string " " ++ ?x) with (" "%char :: x).
    rewrite (tokenize_token_space _ Htype), tokenize_Declarator_str by assumption.
    reflexivity.
Qed.

(** X13. A declaration that was parsed from text comes back from its
    string form: tokenizing [str(node)] and processing the tokens yields
    the same node again. *)
Theorem Declaration_str_round_trip (code : str) (node : Declaration) :
  parse_declaration_helper code = Ok (Some node) ->
  parse_declaration_helper (Declaration_str node) = Ok (Some node).
Proof.
  unfold parse_declaration_helper.
  destruct (Declaration_process (tokenize code)) as [r final] eqn:E.
  cbn [fst]. intros ->.
  destruct (Declaration_process_inv _ E)
    as (q & type & levels & identifier & Htok & -> & Hcond & _).
  destruct Hcond as (Hq & Hlevels & Hstar & Hident).
  assert (Hin : forall t, In t (declaration_tokens q type levels identifier) ->
                  t = ["*"%char] \/ is_word t)
    by (intros t Ht; apply (tokenize_shape code); rewrite Htok; exact Ht).
  assert (Htype : type = ["*"%char] \/ is_word type).
  { apply Hin. unfold declaration_tokens. apply in_or_app. right. left. reflexivity. }
  assert (Hword : is_word identifier).
  { destruct (Hin identifier) as [H|H]; [|contradiction|assumption].
    unfold declaration_tokens. rewrite !in_app_iff. right. right. right.
    left. reflexivity. }
  rewrite tokenize_Declaration_str by assumption.
  rewrite Declaration_process_grammar.
  - cbn [fst]. do 2 f_equal. unfold declaration_node.
    rewrite pointer_nodes_printed. destruct q; reflexivity.
  - unfold grammar_conditions. split; [destruct q; [reflexivity | assumption]|].
    split.
    + unfold printed_levels. rewrite Forall_map. rewrite Forall_forall.
      intros words _. rewrite Forall_map. rewrite Forall_forall. reflexivity.
    + split; [assumption|]. intros Hne. apply Hident. intros ->. apply Hne. reflexivity.
Qed.

Lemma Declaration_str_round_trip_witness :
  parse_declaration_helper
    (Declaration_str
       (mk_Declaration (Some (mk_Qualifier Const)) (mk_MultiIdent "void")
          (mk_Declarator [mk_Pointer []] (mk_MultiIdent "indices"))))
  = Ok (Some (mk_Declaration (Some (mk_Qualifier Const)) (mk_MultiIdent "void")
                (mk_Declarator [mk_Pointer []] (mk_MultiIdent "indices")))).
Proof.
  apply (@Declaration_str_round_trip "volatile void   *indices").
  reflexivity.
Defined.

(** ** [Signature.check] *)

Lemma find_from_app (c : ascii) (prefix rest : str) (i : Z) :
  mem c prefix = false ->
  find_from c (prefix ++ c :: rest) i = (i + Z.of_nat (length prefix))%Z.
Proof.
  revert i. induction prefix as [|x prefix IH]; intros i Hm.
  - simpl. rewrite Ascii.eqb_refl. lia.
  - unfold mem in Hm. simpl in Hm. apply orb_false_iff in Hm as [Hx Hm].
    simpl. rewrite Ascii.eqb_sym, Hx. rewrite IH by exact Hm.
    simpl length. lia.
Qed.

Lemma find_from_absent (c : ascii) (s : str) (i : Z) :
  mem c s = false -> find_from c s i = (-1)%Z.
Proof.
  revert i. induction s as [|x s IH]; intros i Hm; [reflexivity|].
  unfold mem in Hm. simpl in Hm. apply orb_false_iff in Hm as [Hx Hm].
  simpl. rewrite Ascii.eqb_sym, Hx. apply IH. exact Hm.
Qed.

Lemma ends_with_app (suffix s : str) : ends_with suffix (s ++ suffix) = true.
Proof.
  induction s as [|x s IH].
  - cbn [app]. destruct suffix; cbn [ends_with]; rewrite str_eqb_refl; reflexivity.
  - cbn [app ends_with]. rewrite IH. apply orb_true_r.
Qed.

Lemma py_slice_segment (A : Type) (a b c : list A) (lo hi : Z) :
  lo = Z.of_nat (length a) ->
  clamp_index (Z.of_nat (length (a ++ b ++ c))) hi
  = Z.of_nat (length a + length b) ->
  py_slice lo hi (a ++ b ++ c) = b.
Proof.
  intros -> Hhi. unfold py_slice. rewrite Hhi.
  assert (Hlo : clamp_index (Z.of_nat (length (a ++ b ++ c))) (Z.of_nat (length a))
                = Z.of_nat (length a)).
  { unfold clamp_index. destruct (Z.ltb_spec (Z.of_nat (length a)) 0); [lia|].
    rewrite !length_app. lia. }
  rewrite Hlo, Nat2Z.id.
  replace (Z.to_nat (Z.of_nat (length a + length b) - Z.of_nat (length a)))
    with (length b) by lia.
  rewrite skipn_app, skipn_all, Nat.sub_diag. simpl.
  rewrite firstn_app, firstn_all, Nat.sub_diag. simpl. apply app_nil_r.
Qed.

Lemma Signature_check_found (prefix params : str) :
  mem "(" prefix = false ->
  Signature_check (prefix ++ "(" ++ params ++ ");") = Some (prefix, params).
Proof.
  intros Hm. unfold Signature_check.
  replace (prefix ++ "(" ++ params ++ ");")
    with ((prefix ++ "(" ++ params) ++ ");") by (rewrite <- !app_assoc; reflexivity).
  rewrite ends_with_app. cbn [negb].
  replace ((prefix ++ "(" ++ params) ++ ");")
    with (prefix ++ "("%char :: (params ++ ");")) by (rewrite <- !app_assoc; reflexivity).
  unfold str_find. rewrite find_from_app by exact Hm.
  f_equal. f_equal.
  - apply (@py_slice_segment ascii [] prefix ("("%char :: params ++ ");")); [reflexivity|].
    unfold clamp_index. simpl app. simpl length at 2.
    destruct (Z.ltb_spec (0 + Z.of_nat (length prefix)) 0); [lia|].
    rewrite length_app. simpl (length _). lia.
  - change (prefix ++ "("%char :: params ++ ");")
      with (prefix ++ ["("%char] ++ params ++ ");").
    rewrite app_assoc.
    apply (@py_slice_segment ascii (prefix ++ ["("%char]) params ");").
    + rewrite length_app. simpl (length _). lia.
    + unfold clamp_index. cbn [Z.ltb Z.compare]. rewrite !length_app.
      simpl (length _). lia.
Qed.

(** X14. A line [prefix(params);] whose prefix holds no opening
    parenthesis passes [Signature.check], which hands the text before the
    first parenthesis and the text between it and the closing [");"] on to
    [Signature.assemble]. *)
Theorem Signature_check_splits (prefix params : str) :
  mem "(" prefix = false ->
  Signature_check (prefix ++ "(" ++ params ++ ");") = Some (prefix, params).
Proof. apply Signature_check_found. Qed.

Lemma Signature_check_splits_witness :
  Signature_check ("void Flush" ++ "(" ++ "void" ++ ");")
  = Some ("void Flush" : str, "void" : str).
Proof. apply (@Signature_check_splits "void Flush" "void"). reflexivity. Defined.

Lemma Signature_check_missing (body : str) :
  mem "(" body = false ->
  Signature_check (body ++ ");") = Some (body ++ ")", body).
Proof.
  intros Hm. unfold Signature_check. rewrite ends_with_app. cbn [negb].
  unfold str_find. rewrite find_from_absent
    by (unfold mem in *; rewrite existsb_app, Hm; reflexivity).
  f_equal. f_equal.
  - change (body ++ ");") with (body ++ [")"%char] ++ [";"%char]).
    rewrite app_assoc.
    change ((body ++ [")"%char]) ++ [";"%char])
      with ([] ++ (body ++ [")"%char]) ++ [";"%char]).
    apply (@py_slice_segment ascii [] (body ++ [")"%char]) [";"%char]); [reflexivity|].
    unfold clamp_index. cbn [Z.ltb Z.compare]. cbn [app]. rewrite !length_app.
    simpl (length _). lia.
  - change (body ++ ");") with ([] ++ body ++ ");").
    apply (@py_slice_segment ascii [] body ");"); [reflexivity|].
    unfold clamp_index. cbn [Z.ltb Z.compare]. cbn [app]. rewrite !length_app.
    simpl (length _). lia.
Qed.

(** X15. A line that ends in [");"] and holds no opening parenthesis still
    passes [Signature.check]: [find] answers -1, so the prefix is the line
    without its last character (it keeps the closing parenthesis) and the
    parameter text is the line without [");"]. *)
Theorem Signature_check_without_opening (body : str) :
  mem "(" body = false ->
  Signature_check (body ++ ");") = Some (body ++ ")", body).
Proof. apply Signature_check_missing. Qed.

Lemma Signature_check_without_opening_witness :
  Signature_check ("void Flush" ++ ");")
  = Some ("void Flush" ++ ")", "void Flush" : str).
Proof. apply (@Signature_check_without_opening "void Flush"). reflexivity. Defined.

(** ** The parameters of [Signature.assemble] *)

Lemma mapM_length (A B : Type) (f : A -> result B) (l : list A) (bs : list B) :
  mapM f l = Ok bs -> length bs = length l.
Proof.
  revert bs. induction l as [|a l IH]; simpl; intros bs.
  - intros [= <-]. reflexivity.
  - destruct (f a) as [b|]; [|discriminate].
    destruct (mapM f l) as [bs0|]; [|discriminate].
    intros [= <-]. simpl. f_equal. apply IH. reflexivity.
Qed.

Lemma split_char_loop_count (c : ascii) (s piece : str) :
  length (split_char_loop c s piece) = S (count c s).
Proof.
  revert piece. induction s as [|x s IH]; intros piece; [reflexivity|].
  rewrite count_cons. cbn [split_char_loop]. rewrite Ascii.eqb_sym.
  destruct (Ascii.eqb c x); [cbn [length] | ]; rewrite IH; reflexivity.
Qed.

Lemma Signature_assemble_params (prefix text : str) (node : Signature) :
  Signature_assemble (prefix, text) = Ok node ->
  mapM Signature_assemble_param (Signature_param_fragments text) = Ok (params node).
Proof.
  unfold Signature_assemble.
  destruct (fst (Signature_assemble_prefix (split_on_level prefix " "))) as [[[q t] d]|];
    cbn [rbind]; [|discriminate].
  destruct (mapM Signature_assemble_param (Signature_param_fragments text)) as [ps|];
    cbn [rbind]; [|discriminate].
  intros [= <-]. reflexivity.
Qed.

Lemma Signature_process_assembled (variant : str) (ir : str * str) (node : Signature) :
  Signature_check variant = Some ir ->
  Signature_process variant = Ok (Some node) ->
  Signature_assemble ir = Ok node.
Proof.
  intros Hc. unfold Signature_process. rewrite Hc.
  destruct (Signature_assemble ir) as [n|]; cbn [rbind]; [|discriminate].
  intros [= <-]. reflexivity.
Qed.

(** X16. A signature has one parameter for every comma-separated fragment
    of its parameter text, commas inside braces and brackets included: the
    number of parameters of a node that [Signature.process] builds is the
    number of commas plus one. It is never zero: for an empty parameter
    text the only parameter is the enumeration with the one empty
    variant. *)
Theorem Signature_parameter_count (variant prefix text : str) (node : Signature) :
  Signature_check variant = Some (prefix, text) ->
  Signature_process variant = Ok (Some node) ->
  length (params node) = S (count "," text)
  /\ (text = [] -> params node = [inl (mk_Variant [[]])]).
Proof.
  intros Hc Hp.
  pose proof (Signature_process_assembled _ Hc Hp) as Ha.
  apply Signature_assemble_params in Ha as Hm.
  split.
  - rewrite (mapM_length _ _ Hm). apply split_char_loop_count.
  - intros ->.
    assert (He : mapM Signature_assemble_param (Signature_param_fragments [])
                 = Ok [inl (mk_Variant [[]])]) by (vm_compute; reflexivity).
    congruence.
Qed.

Lemma Signature_parameter_count_witness :
  exists node,
    Signature_process "void GetIntegerv(TIMESTAMP, int *data);" = Ok (Some node)
    /\ length (params node) = 2.
Proof.
  eexists. split; [vm_compute; reflexivity|].
  apply (@Signature_parameter_count "void GetIntegerv(TIMESTAMP, int *data);"
           "void GetIntegerv" "TIMESTAMP, int *data");
    vm_compute; reflexivity.
Defined.

Lemma Signature_assemble_param_inv (p : str) (r : VariantNode + Declaration) :
  Signature_assemble_param p = Ok r ->
  match r with
  | inl v => length (tokenize (strip p)) <= 1 /\ Variant_process p = Ok (Some v)
  | inr d => 1 < length (tokenize (strip p))
             /\ parse_declaration_helper (strip p) = Ok (Some d)
  end.
Proof.
  unfold Signature_assemble_param, parse_declaration_helper.
  destruct (Nat.ltb_spec 1 (length (tokenize (strip p)))) as [Hl|Hl].
  - rewrite (Declaration_process_checked _ Hl).
    destruct (Declaration_assemble (tokenize (strip p))) as [[d|e] final]; cbn [fst].
    + intros [= <-]. split; [exact Hl | reflexivity].
    + discriminate.
  - rewrite Declaration_process_rejects by lia. cbn [fst].
    destruct (Variant_process p) as [[v|]|e]; try discriminate.
    intros [= <-]. split; [lia | reflexivity].
Qed.

(** X17. The parameter loop of [Signature.assemble] reads a fragment as
    an enumeration only when the fragment has at most one token, and then
    through [Variant.process] of the fragment as it stands between the
    commas; a fragment of two or more tokens becomes a parameter only as
    the declaration that [Declaration.process] reads from the tokens of the
    stripped fragment. *)
Theorem Signature_parameter_kinds (p : str) (r : VariantNode + Declaration) :
  Signature_assemble_param p = Ok r ->
  match r with
  | inl v => length (tokenize (strip p)) <= 1 /\ Variant_process p = Ok (Some v)
  | inr d => 1 < length (tokenize (strip p))
             /\ parse_declaration_helper (strip p) = Ok (Some d)
  end.
Proof. apply Signature_assemble_param_inv. Qed.

Lemma Signature_parameter_kinds_witness :
  length (tokenize (strip "TIMESTAMP")) <= 1
  /\ Variant_process "TIMESTAMP" = Ok (Some (mk_Variant (lits ["TIMESTAMP"]))).
Proof.
  apply (@Signature_parameter_kinds "TIMESTAMP" (inl (mk_Variant (lits ["TIMESTAMP"])))).
  vm_compute. reflexivity.
Defined.

(** ** [AssociatedGet] *)

Lemma rfind_from_absent (c : ascii) (s : str) (i last : Z) :
  mem c s = false -> rfind_from c s i last = last.
Proof.
  revert i last. induction s as [|x s IH]; intros i last Hm; [reflexivity|].
  unfold mem in Hm. simpl in Hm. apply orb_false_iff in Hm as [Hx Hm].
  cbn [rfind_from]. rewrite Ascii.eqb_sym, Hx. apply IH. exact Hm.
Qed.

Lemma rfind_from_app (c : ascii) (a b : str) (i last : Z) :
  rfind_from c (a ++ b) i last
  = rfind_from c b (i + Z.of_nat (length a))%Z (rfind_from c a i last).
Proof.
  revert i last. induction a as [|x a IH]; intros i last.
  - cbn [app length rfind_from]. f_equal. simpl. lia.
  - cbn [app rfind_from]. rewrite IH. f_equal. simpl length. lia.
Qed.

Lemma str_rfind_last (c : ascii) (a rest : str) :
  mem c rest = false ->
  str_rfind c (a ++ c :: rest) = Z.of_nat (length a).
Proof.
  intros Hm. unfold str_rfind. rewrite rfind_from_app.
  cbn [rfind_from]. rewrite Ascii.eqb_refl.
  rewrite rfind_from_absent by exact Hm. lia.
Qed.

Lemma starts_with_app (prefix s : str) : starts_with prefix (prefix ++ s) = true.
Proof.
  induction prefix as [|p prefix IH]; [reflexivity|].
  cbn [app starts_with]. rewrite Ascii.eqb_refl. exact IH.
Qed.

Lemma AssociatedGet_parse_str (p : str) :
  AssociatedGet_process (AssociatedGet_str (mk_AssociatedGet p))
  = Some (mk_AssociatedGet p).
Proof.
  unfold AssociatedGet_process, AssociatedGet_check, AssociatedGet_str.
  cbn [param_name].
  replace ("Enable/Disable/IsEnabled(" ++ p ++ ");")
    with ("Enable/Disable/IsEnabled" ++ "(" ++ p ++ ");") by reflexivity.
  rewrite starts_with_app. unfold AssociatedGet_parse. f_equal. f_equal.
  replace (str_find "(" ("Enable/Disable/IsEnabled" ++ "(" ++ p ++ ");")) with 24%Z.
  2:{ unfold str_find.
      change ("Enable/Disable/IsEnabled" ++ "(" ++ p ++ ");")
        with ("Enable/Disable/IsEnabled" ++ "("%char :: (p ++ ");")).
      rewrite find_from_app by reflexivity. reflexivity. }
  replace (str_rfind ")" ("Enable/Disable/IsEnabled" ++ "(" ++ p ++ ");"))
    with (Z.of_nat (length ("Enable/Disable/IsEnabled(" ++ p))).
  2:{ replace ("Enable/Disable/IsEnabled" ++ "(" ++ p ++ ");")
        with (("Enable/Disable/IsEnabled(" ++ p) ++ ")"%char :: ";")
        by (rewrite <- app_assoc; reflexivity).
      rewrite str_rfind_last by reflexivity. reflexivity. }
  replace ("Enable/Disable/IsEnabled" ++ "(" ++ p ++ ");")
    with ("Enable/Disable/IsEnabled(" ++ p ++ ");") by reflexivity.
  apply (@py_slice_segment ascii "Enable/Disable/IsEnabled(" p ");"); [reflexivity|].
  unfold clamp_index. rewrite !length_app.
  destruct (Z.ltb_spec (Z.of_nat (length (list_ascii_of_string "Enable/Disable/IsEnabled(")
                                  + length p)) 0); [lia|].
  simpl (length (list_ascii_of_string _)). lia.
Qed.

(** X18. An [AssociatedGet] comes back from its string form, whatever its
    parameter name holds (parentheses included): the name is read between
    the first opening and the last closing parenthesis of the line. *)
Theorem AssociatedGet_round_trip (node : AssociatedGet) :
  AssociatedGet_process (AssociatedGet_str node) = Some node.
Proof. destruct node as [p]. apply AssociatedGet_parse_str. Qed.

Lemma py_slice_removelast (A : Type) (s : list A) :
  py_slice 0 (-1) s = removelast s.
Proof.
  unfold py_slice, clamp_index. cbn [Z.ltb Z.compare].
  rewrite removelast_firstn_len.
  replace (Z.to_nat (Z.min 0 (Z.of_nat (length s)))) with 0 by lia.
  cbn [skipn]. f_equal. lia.
Qed.

(** X19. A line that starts with the heading of the associated gets and
    holds no parenthesis is still accepted by [AssociatedGet.process]: both
    searches answer -1 and the parameter name is the line without its last
    character. *)
Theorem AssociatedGet_without_parentheses (line : str) :
  AssociatedGet_check line = true ->
  mem "(" line = false -> mem ")" line = false ->
  AssociatedGet_process line = Some (mk_AssociatedGet (removelast line)).
Proof.
  intros Hc Ho Hcl. unfold AssociatedGet_process. rewrite Hc.
  unfold AssociatedGet_parse, str_find, str_rfind.
  rewrite find_from_absent by exact Ho.
  rewrite rfind_from_absent by exact Hcl.
  change (-1 + 1)%Z with 0%Z. rewrite py_slice_removelast. reflexivity.
Qed.

Lemma AssociatedGet_without_parentheses_witness :
  AssociatedGet_process "Enable/Disable/IsEnabled"
  = Some (mk_AssociatedGet "Enable/Disable/IsEnable").
Proof.
  apply (@AssociatedGet_without_parentheses "Enable/Disable/IsEnabled"); reflexivity.
Defined.

(** ** [SeeDelegation] and [SeeParamDelegation] *)

Lemma mem_app (c : ascii) (a b : str) : mem c (a ++ b) = mem c a || mem c b.
Proof. apply existsb_app. Qed.

Lemma mem_cons (c x : ascii) (s : str) : mem c (x :: s) = Ascii.eqb c x || mem c s.
Proof. reflexivity. Qed.

Lemma split_char_loop_word (c : ascii) (a piece : str) :
  mem c a = false -> split_char_loop c a piece = [piece ++ a].
Proof.
  revert piece. induction a as [|x a IH]; intros piece Hm.
  - cbn [split_char_loop]. rewrite app_nil_r. reflexivity.
  - rewrite mem_cons in Hm. apply orb_false_iff in Hm as [Hx Hm].
    cbn [split_char_loop]. rewrite Ascii.eqb_sym, Hx.
    rewrite IH by exact Hm. rewrite <- app_assoc. reflexivity.
Qed.

Lemma split_char_loop_first (c : ascii) (a rest piece : str) :
  mem c a = false ->
  split_char_loop c (a ++ c :: rest) piece
  = (piece ++ a) :: split_char_loop c rest [].
Proof.
  revert piece. induction a as [|x a IH]; intros piece Hm.
  - cbn [app split_char_loop]. rewrite Ascii.eqb_refl, app_nil_r. reflexivity.
  - rewrite mem_cons in Hm. apply orb_false_iff in Hm as [Hx Hm].
    cbn [app split_char_loop]. rewrite Ascii.eqb_sym, Hx.
    rewrite IH by exact Hm. rewrite <- app_assoc. reflexivity.
Qed.

(** The text up to the first occurrence of a character. *)
Lemma first_occurrence (c : ascii) (s : str) :
  mem c s = false
  \/ exists a rest, s = a ++ c :: rest /\ mem c a = false.
Proof.
  induction s as [|x s IH]; [left; reflexivity|].
  destruct (Ascii.eqb_spec c x) as [<-|Hx].
  - right. exists [], s. split; reflexivity.
  - destruct IH as [Hm|(a & rest & -> & Hm)].
    + left. rewrite mem_cons, Hm. destruct (Ascii.eqb_spec c x); [contradiction|reflexivity].
    + right. exists (x :: a), rest. split; [reflexivity|].
      rewrite mem_cons, Hm. destruct (Ascii.eqb_spec c x); [contradiction|reflexivity].
Qed.

Lemma str_split_cases (c : ascii) (s : str) :
  (mem c s = false /\ str_split c s = [s])
  \/ exists a rest, s = a ++ c :: rest /\ mem c a = false
                    /\ str_split c s = a :: str_split c rest.
Proof.
  destruct (first_occurrence c s) as [Hm|(a & rest & -> & Hm)].
  - left. split; [exact Hm|]. unfold str_split.
    rewrite split_char_loop_word by exact Hm. reflexivity.
  - right. exists a, rest. split; [reflexivity|]. split; [exact Hm|].
    unfold str_split. rewrite split_char_loop_first by exact Hm. reflexivity.
Qed.

Lemma SeeDelegation_process_accepts (x : str) :
  mem " " x = false ->
  SeeDelegation_process ("See " ++ x) = Ok (Some (mk_SeeDelegation (mk_MultiIdent x))).
Proof.
  intros Hm. unfold SeeDelegation_process, SeeDelegation_check.
  change ("See " ++ x) with ("See" ++ " "%char :: x).
  unfold str_split. rewrite split_char_loop_first by reflexivity.
  rewrite split_char_loop_word by exact Hm. reflexivity.
Qed.

Lemma SeeDelegation_process_inv (variant : str) (r : result (option SeeDelegation)) :
  SeeDelegation_process variant = r ->
  r = Ok None
  \/ exists x, variant = "See " ++ x /\ mem " " x = false
               /\ r = Ok (Some (mk_SeeDelegation (mk_MultiIdent x))).
Proof.
  intros <-. unfold SeeDelegation_process, SeeDelegation_check.
  destruct (str_split_cases " " variant) as [[_ ->]|(a & rest & -> & Ha & ->)];
    [left; reflexivity|].
  destruct (str_split_cases " " rest) as [[Hr ->]|(b & rest' & -> & Hb & ->)].
  - cbn [length Nat.eqb negb].
    destruct (str_eqb a "See") eqn:Ea; cbn [negb]; [|left; reflexivity].
    apply str_eqb_eq in Ea. subst a. right. exists rest.
    split; [reflexivity|]. split; [exact Hr|]. reflexivity.
  - left. destruct (str_split_cases " " rest') as [[_ ->]|(d & r' & -> & _ & ->)];
      reflexivity.
Qed.

(** X20. [SeeDelegation.process] accepts exactly the lines [See x] with a
    name [x] without a space, which is the string form of its node: it
    never raises, and it builds a node exactly from the string form of that
    node when the name holds no space. *)
Theorem SeeDelegation_process_spec (variant : str) (node : SeeDelegation) :
  (forall e, SeeDelegation_process variant <> Raise e)
  /\ (SeeDelegation_process variant = Ok (Some node)
      <-> variant = SeeDelegation_str node
          /\ mem " " (name (multi_ident node)) = false).
Proof.
  split.
  - intros e He.
    destruct (@SeeDelegation_process_inv _ _ He) as [H|(x & _ & _ & H)]; discriminate.
  - split.
    + intros H. destruct (@SeeDelegation_process_inv _ _ H) as [H'|(x & -> & Hx & H')];
        [discriminate|].
      injection H' as ->. split; [reflexivity | exact Hx].
    + intros [-> Hm]. destruct node as [[x]]. apply SeeDelegation_process_accepts.
      exact Hm.
Qed.

Lemma SeeParamDelegation_process_accepts (p t : str) :
  mem " " p = false -> mem " " t = false ->
  SeeParamDelegation_process ("See " ++ p ++ " for " ++ t)
  = Ok (Some (mk_SeeParamDelegation (mk_MultiIdent p) (mk_MultiIdent t))).
Proof.
  intros Hp Ht. unfold SeeParamDelegation_process, SeeParamDelegation_check.
  change ("See " ++ p ++ " for " ++ t)
    with ("See" ++ " "%char :: (p ++ " "%char :: ("for" ++ " "%char :: t))).
  unfold str_split. rewrite split_char_loop_first by reflexivity.
  rewrite split_char_loop_first by exact Hp.
  rewrite split_char_loop_first by reflexivity.
  rewrite split_char_loop_word by exact Ht. reflexivity.
Qed.

Lemma SeeParamDelegation_process_inv
    (variant : str) (r : result (option SeeParamDelegation)) :
  SeeParamDelegation_process variant = r ->
  r = Ok None
  \/ exists p t, variant = "See " ++ p ++ " for " ++ t
                 /\ mem " " p = false /\ mem " " t = false
                 /\ r = Ok (Some (mk_SeeParamDelegation (mk_MultiIdent p) (mk_MultiIdent t))).
Proof.
  intros <-. unfold SeeParamDelegation_process, SeeParamDelegation_check.
  destruct (str_split_cases " " variant) as [[_ ->]|(a & r1 & -> & Ha & ->)];
    [left; reflexivity|].
  destruct (str_split_cases " " r1) as [[_ ->]|(b & r2 & -> & Hb & ->)];
    [left; reflexivity|].
  destruct (str_split_cases " " r2) as [[_ ->]|(c & r3 & -> & Hc & ->)];
    [left; reflexivity|].
  destruct (str_split_cases " " r3) as [[Hr ->]|(d & r4 & -> & Hd & ->)].
  - cbn [length Nat.eqb negb nth_error].
    destruct (str_eqb a "See") eqn:Ea; cbn [negb]; [|left; reflexivity].
    destruct (str_eqb c "for") eqn:Ec; cbn [negb]; [|left; reflexivity].
    apply str_eqb_eq in Ea, Ec. subst a c. right. exists b, r3.
    split; [reflexivity|]. split; [exact Hb|]. split; [exact Hr|]. reflexivity.
  - left. destruct (str_split_cases " " r4) as [[_ ->]|(x & r' & -> & _ & ->)];
      reflexivity.
Qed.

(** X21. [SeeParamDelegation.process] never raises and builds a node
    exactly from the string form of that node when neither name holds a
    space: the accepted lines are [See p for t] with [p] and [t] free of
    spaces. *)
Theorem SeeParamDelegation_process_spec (variant : str) (node : SeeParamDelegation) :
  (forall e, SeeParamDelegation_process variant <> Raise e)
  /\ (SeeParamDelegation_process variant = Ok (Some node)
      <-> variant = SeeParamDelegation_str node
          /\ mem " " (name (param node)) = false
          /\ mem " " (name (target node)) = false).
Proof.
  split.
  - intros e He.
    destruct (@SeeParamDelegation_process_inv _ _ He) as [H|(p & t & _ & _ & _ & H)];
      discriminate.
  - split.
    + intros H.
      destruct (@SeeParamDelegation_process_inv _ _ H) as [H'|(p & t & -> & Hp & Ht & H')];
        [discriminate|].
      injection H' as ->. split; [reflexivity|]. split; assumption.
    + intros (-> & Hp & Ht). destruct node as [[p] [t]].
      apply SeeParamDelegation_process_accepts; assumption.
Qed.

(** ** [Bitwise] *)

(** [TestBitflags.test_bitflags_with_all_flag] *)
Example test_bitflags_with_all_flag :
  Bitwise_process
    "bitwise OR of all ALL_SHADER_BITS specific TESS_{CONTROL, EVALUATION}_SHADER_BIT, {VERTEX, GEOMETRY, FRAGMENT}_SHADER_BIT, COMPUTE_SHADER_BIT"
  = Built (Some (mk_Bitwise (Some ("ALL_SHADER_BITS" : str))
       (lits ["TESS_CONTROL_SHADER_BIT"; "TESS_EVALUATION_SHADER_BIT";
              "VERTEX_SHADER_BIT"; "GEOMETRY_SHADER_BIT"; "FRAGMENT_SHADER_BIT";
              "COMPUTE_SHADER_BIT"]))).
Proof. vm_compute. reflexivity. Qed.

Lemma Bitwise_process_glued (variant : str) :
  Bitwise_check variant = true ->
  starts_with "bitwise OR of " variant = false ->
  Bitwise_process variant = Failed (ParsingFailure CBitwise variant []).
Proof.
  intros Hc Hs. unfold Bitwise_process. rewrite Hc.
  unfold Bitwise_parse, removeprefix. rewrite Hs.
  destruct variant as [|c v]; [discriminate|].
  unfold Bitwise_check in Hc. cbn [starts_with list_ascii_of_string] in Hc.
  apply andb_true_iff in Hc as [Hb _]. apply Ascii.eqb_eq in Hb. subst c.
  cbn [starts_with list_ascii_of_string Ascii.eqb Bool.eqb andb].
  unfold Variant_process, Variant_check. cbn [forallb].
  change (mem "b" variant_letter_set) with false. reflexivity.
Qed.

(** X22. [Bitwise.check] asks for the heading without the space behind it
    and [Bitwise.parse] removes the heading with the space: for a line that
    passes the check and does not go on with a space, [Bitwise.process]
    neither answers [None] nor builds a node, it raises the
    [ParsingException] that names [Bitwise] and carries the line. *)
Theorem Bitwise_process_needs_space (variant : str) :
  Bitwise_check variant = true ->
  starts_with "bitwise OR of " variant = false ->
  Bitwise_process variant = Failed (ParsingFailure CBitwise variant []).
Proof. apply Bitwise_process_glued. Qed.

Lemma Bitwise_process_needs_space_witness :
  Bitwise_process "bitwise OR of"
  = Failed (ParsingFailure CBitwise ("bitwise OR of" : str) []).
Proof. apply (@Bitwise_process_needs_space "bitwise OR of"); reflexivity. Defined.

Lemma is_flag_char_facts (c : ascii) :
  is_flag_char c = true ->
  mem c variant_letter_set = true /\ mem c ALL_TOKENS = false
  /\ mem "," [c] = false /\ is_space c = false.
Proof.
  each_ascii c; vm_compute; intros H; try discriminate H; repeat split; reflexivity.
Qed.

Lemma in_join (c : ascii) (sep : str) (parts : list str) :
  In c (join sep parts) -> In c sep \/ exists p, In p parts /\ In c p.
Proof.
  induction parts as [|p parts IH]; [intros []|].
  destruct parts as [|q parts].
  - cbn [join]. intros H. right. exists p. split; [left; reflexivity | exact H].
  - rewrite join_cons by discriminate. intros H.
    apply in_app_or in H as [H|H]; [right; exists p; split; [left; reflexivity | exact H]|].
    apply in_app_or in H as [H|H]; [left; exact H|].
    destruct (IH H) as [H'|(p' & Hp' & Hc)]; [left; exact H'|].
    right. exists p'. split; [right; exact Hp' | exact Hc].
Qed.

Lemma mem_false_iff (c : ascii) (s : str) :
  mem c s = false <-> (forall x, In x s -> Ascii.eqb c x = false).
Proof.
  unfold mem. induction s as [|y s IH]; simpl.
  - split; [intros _ x [] | reflexivity].
  - rewrite orb_false_iff, IH. split.
    + intros [Hy Hs] x [<-|Hx]; [exact Hy | apply Hs, Hx].
    + intros H. split; [apply H; left; reflexivity | intros x Hx; apply H; right; exact Hx].
Qed.

Lemma is_flag_no_comma (flag : str) : is_flag flag = true -> mem "," flag = false.
Proof.
  intros H. apply mem_false_iff. intros x Hx.
  unfold is_flag in H. rewrite forallb_forall in H.
  destruct (is_flag_char_facts _ (H x Hx)) as (_ & _ & Hc & _).
  unfold mem in Hc. simpl in Hc. rewrite orb_false_r in Hc. exact Hc.
Qed.

Lemma is_flag_strip (flag : str) : is_flag flag = true -> strip flag = flag.
Proof.
  intros H. apply strip_no_space. intros c Hc.
  unfold is_flag in H. rewrite forallb_forall in H.
  apply (is_flag_char_facts _ (H c Hc)).
Qed.

Lemma split_joined_flags (fs : list str) (f piece : str) :
  (forall flag, In flag (f :: fs) -> is_flag flag = true) ->
  split_char_loop "," (join ", " (f :: fs)) piece
  = (piece ++ f) :: map (fun g => " " ++ g) fs.
Proof.
  revert f piece. induction fs as [|g fs IH]; intros f piece H.
  - cbn [join map]. apply split_char_loop_word, is_flag_no_comma, H. left. reflexivity.
  - rewrite join_cons by discriminate.
    change (f ++ ", " ++ join ", " (g :: fs))
      with (f ++ ","%char :: " "%char :: join ", " (g :: fs)).
    rewrite split_char_loop_first by (apply is_flag_no_comma, H; left; reflexivity).
    f_equal. cbn [split_char_loop Ascii.eqb Bool.eqb]. cbn [app].
    rewrite IH by (intros flag Hf; apply H; right; exact Hf). reflexivity.
Qed.

Lemma strip_leading_space (g : str) : strip (" " ++ g) = strip g.
Proof. reflexivity. Qed.

Lemma Variant_process_flags (fs : list str) :
  fs <> [] ->
  (forall flag, In flag fs -> is_flag flag = true) ->
  Variant_process (join ", " fs) = Ok (Some (mk_Variant fs)).
Proof.
  intros Hne H. destruct fs as [|f fs]; [congruence|].
  assert (Hchars : forall c, In c (join ", " (f :: fs)) ->
            mem c variant_letter_set = true /\ mem c ALL_TOKENS = false).
  { intros c Hc. apply in_join in Hc as [Hc|(p & Hp & Hc)].
    - simpl in Hc. destruct Hc as [<-|[<-|[]]]; split; reflexivity.
    - specialize (H p Hp). unfold is_flag in H. rewrite forallb_forall in H.
      destruct (is_flag_char_facts _ (H c Hc)) as (H1 & H2 & _). split; assumption. }
  rewrite Variant_process_plain.
  - unfold str_split. rewrite split_joined_flags by exact H.
    cbn [app map]. rewrite map_map. do 3 f_equal. f_equal.
    + apply is_flag_strip, H. left. reflexivity.
    + rewrite <- (map_id fs) at 2. apply map_ext_in. intros g Hg.
      rewrite strip_leading_space. apply is_flag_strip, H. right. exact Hg.
  - intros c Hc. apply Hchars, Hc.
  - unfold Variant_check. apply forallb_forall. intros c Hc. apply Hchars, Hc.
Qed.

Lemma find_sub_from_skip (c : ascii) (sub a rest : str) (i : Z) :
  mem c a = false ->
  find_sub_from (c :: sub) (a ++ rest) i
  = find_sub_from (c :: sub) rest (i + Z.of_nat (length a))%Z.
Proof.
  revert i. induction a as [|x a IH]; intros i Hm.
  - cbn [app length]. f_equal. simpl. lia.
  - rewrite mem_cons in Hm. apply orb_false_iff in Hm as [Hx Hm].
    cbn [app find_sub_from starts_with]. rewrite Hx. cbn [andb].
    rewrite IH by exact Hm. f_equal. simpl length. lia.
Qed.

Lemma find_sub_from_here (sub rest : str) (i : Z) :
  find_sub_from sub (sub ++ rest) i = i.
Proof.
  destruct sub as [|c sub]; [destruct rest; reflexivity|].
  change (find_sub_from (c :: sub) ((c :: sub) ++ rest) i)
    with (if starts_with (c :: sub) ((c :: sub) ++ rest) then i
          else find_sub_from (c :: sub) (sub ++ rest) (i + 1)%Z).
  rewrite starts_with_app. reflexivity.
Qed.

(** A word in front of a separator: when the text [f ++ c :: rest] starts
    with [p ++ [c]] and neither [f] nor [p] holds [c], [f] is [p]. *)
Lemma starts_with_word (c : ascii) (p f rest : str) :
  mem c f = false -> mem c p = false ->
  starts_with (p ++ [c]) (f ++ c :: rest) = true -> f = p.
Proof.
  revert f. induction p as [|x p IH]; intros f Hf Hp.
  - destruct f as [|y f]; [reflexivity|].
    cbn [app starts_with]. rewrite mem_cons in Hf.
    apply orb_false_iff in Hf as [Hy _]. rewrite Hy. discriminate.
  - rewrite mem_cons in Hp. apply orb_false_iff in Hp as [Hx Hp].
    destruct f as [|y f].
    + cbn [app starts_with]. rewrite Ascii.eqb_sym, Hx. discriminate.
    + rewrite mem_cons in Hf. apply orb_false_iff in Hf as [_ Hf].
      cbn [app starts_with]. intros H. apply andb_true_iff in H as [Hxy H].
      apply Ascii.eqb_eq in Hxy. subst y. f_equal. apply IH; assumption.
Qed.

Lemma removeprefix_app (prefix s : str) : removeprefix prefix (prefix ++ s) = s.
Proof.
  unfold removeprefix. rewrite starts_with_app.
  rewrite skipn_app, skipn_all, Nat.sub_diag. reflexivity.
Qed.

Lemma find_sub_from_miss (sub s : str) (x : ascii) (i : Z) :
  starts_with sub (x :: s) = false ->
  find_sub_from sub (x :: s) i = find_sub_from sub s (i + 1)%Z.
Proof. intros H. cbn [find_sub_from]. rewrite H. reflexivity. Qed.

Lemma find_specific (f rest : str) :
  mem " " f = false -> f <> "specific" ->
  str_find_sub " specific " ("all " ++ f ++ " specific " ++ rest)
  = Z.of_nat (4 + length f).
Proof.
  intros Hf Hne. unfold str_find_sub.
  assert (Hs : starts_with " specific " (" "%char :: f ++ " specific " ++ rest) = false).
  { destruct (starts_with " specific " (" "%char :: f ++ " specific " ++ rest)) eqn:E;
      [|reflexivity].
    exfalso. apply Hne.
    apply (@starts_with_word " " "specific" f ("specific " ++ rest));
      [exact Hf | reflexivity | exact E]. }
  change ("all " ++ f ++ " specific " ++ rest)
    with ("all" ++ " "%char :: (f ++ " specific " ++ rest)).
  change (list_ascii_of_string " specific ")
    with (" "%char :: list_ascii_of_string "specific ") at 1.
  rewrite find_sub_from_skip by reflexivity.
  change (" "%char :: list_ascii_of_string "specific ")
    with (list_ascii_of_string " specific ").
  rewrite find_sub_from_miss by exact Hs.
  change (list_ascii_of_string " specific ")
    with (" "%char :: list_ascii_of_string "specific ") at 1.
  rewrite find_sub_from_skip by exact Hf.
  change (" "%char :: list_ascii_of_string "specific ")
    with (list_ascii_of_string " specific ").
  rewrite find_sub_from_here. simpl (length (list_ascii_of_string _)). lia.
Qed.

Lemma Bitwise_process_str (node : Bitwise) :
  flags node <> [] ->
  (forall flag, In flag (flags node) -> is_flag flag = true) ->
  (forall f, all_flag node = Some f -> mem " " f = false /\ f <> "specific") ->
  Bitwise_process (Bitwise_str node) = Built (Some node).
Proof.
  destruct node as [all fs]. cbn [flags all_flag]. intros Hne Hfs Hall.
  unfold Bitwise_process, Bitwise_check, Bitwise_str. cbn [flags all_flag].
  set (tail := match all with
               | Some flag => "all " ++ flag ++ " specific "
               | None => []
               end ++ join ", " fs).
  change (list_ascii_of_string "bitwise OR of " ++ tail)
    with (list_ascii_of_string "bitwise OR of" ++ " "%char :: tail) at 1.
  rewrite starts_with_app.
  unfold Bitwise_parse. rewrite removeprefix_app. subst tail.
  destruct all as [f|].
  - destruct (Hall f eq_refl) as [Hf Hne'].
    replace (("all " ++ f ++ " specific ") ++ join ", " fs)
      with ("all " ++ f ++ " specific " ++ join ", " fs)
      by (rewrite <- !app_assoc; reflexivity).
    rewrite starts_with_app.
    rewrite find_specific by assumption.
    assert (Hflag : py_slice 4 (Z.of_nat (4 + length f))
                      ("all " ++ f ++ " specific " ++ join ", " fs) = f).
    { apply (@py_slice_segment ascii "all " f (" specific " ++ join ", " fs));
        [reflexivity|].
      unfold clamp_index. rewrite !length_app.
      destruct (Z.ltb_spec (Z.of_nat (4 + length f)) 0); [lia|].
      simpl (length (list_ascii_of_string _)).
      lia. }
    assert (Hrest : py_slice_from (Z.of_nat (4 + length f) + 10)
                      ("all " ++ f ++ " specific " ++ join ", " fs) = join ", " fs).
    { replace (Z.of_nat (4 + length f) + 10)%Z
        with (Z.of_nat (length ("all " ++ f ++ " specific ")))
        by (rewrite !length_app; simpl (length (list_ascii_of_string _)); lia).
      replace ("all " ++ f ++ " specific " ++ join ", " fs)
        with (("all " ++ f ++ " specific ") ++ join ", " fs)
        by (rewrite <- !app_assoc; reflexivity).
      rewrite py_slice_from_nat by (rewrite !length_app; lia).
      rewrite skipn_app, skipn_all, Nat.sub_diag. reflexivity. }
    rewrite Hflag, Hrest. rewrite Variant_process_flags by assumption. reflexivity.
  - cbn [app].
    assert (Hs : starts_with "all " (join ", " fs) = false).
    { destruct fs as [|g fs]; [congruence|].
      specialize (Hfs g (or_introl eq_refl)).
      destruct g as [|c g].
      - destruct fs; reflexivity.
      - unfold is_flag in Hfs. cbn [forallb] in Hfs.
        apply andb_true_iff in Hfs as [Hc _].
        assert (Ha : Ascii.eqb "a" c = false).
        { destruct (Ascii.eqb_spec "a" c) as [<-|]; [discriminate Hc | reflexivity]. }
        destruct fs; cbn [join app starts_with list_ascii_of_string];
          rewrite Ha; reflexivity. }
    rewrite Hs. rewrite Variant_process_flags by assumption. reflexivity.
Qed.

(** X23. A [Bitwise] node comes back from its string form when it has at
    least one flag, every flag is made of capital letters and underscores,
    and the all-flag (when there is one) holds no space and is not the word
    [specific]. *)
Theorem Bitwise_round_trip (node : Bitwise) :
  flags node <> [] ->
  (forall flag, In flag (flags node) -> is_flag flag = true) ->
  (forall f, all_flag node = Some f -> mem " " f = false /\ f <> "specific") ->
  Bitwise_process (Bitwise_str node) = Built (Some node).
Proof. apply Bitwise_process_str. Qed.

Lemma Bitwise_round_trip_witness :
  Bitwise_process "bitwise OR of all ALL_BITS specific DEPTH_BIT, COLOR_BIT"
  = Built (Some (mk_Bitwise (Some ("ALL_BITS" : str)) (lits ["DEPTH_BIT"; "COLOR_BIT"]))).
Proof.
  apply (@Bitwise_round_trip
           (mk_Bitwise (Some ("ALL_BITS" : str)) (lits ["DEPTH_BIT"; "COLOR_BIT"]))).
  - discriminate.
  - intros flag [<-|[<-|[]]]; reflexivity.
  - intros f [= <-]. split; [reflexivity | discriminate].
Defined.

(** ** [inline_func_signatures] *)

Example inline_func_signatures_joins :
  inline_func_signatures (lits ["Section"; "void f(int a,"; " int b);"; "x: A"])
  = lits ["Section"; "void f(int a, int b);"; "x: A"].
Proof. vm_compute. reflexivity. Qed.

Lemma inline_step_cases (buffer result : list str) (look : bool) (line : str) :
  inline_step (buffer, result, look) line
  = if mem ")" line
    then if mem "(" line || look
         then ([], result ++ [concat (buffer ++ [line])], false)
         else ([], (result ++ [line]) ++ [concat buffer], false)
    else if mem "(" line || look
         then (buffer ++ [line], result, true)
         else (buffer, result ++ [line], false).
Proof.
  unfold inline_step.
  destruct (mem "(" line), look, (mem ")" line); cbn [negb orb];
    rewrite ?join_nil; reflexivity.
Qed.

Lemma inline_invariant (lines buffer result : list str) (look : bool) :
  fold_left inline_step lines ([], [], false) = (buffer, result, look) ->
  (look = false -> buffer = [])
  /\ (forall out, In out result -> mem "(" out = true -> mem ")" out = true)
  /\ concat result ++ concat buffer = concat lines.
Proof.
  revert buffer result look.
  induction lines as [|line lines IH] using rev_ind; intros buffer result look.
  - cbn [fold_left]. intros [= <- <- <-].
    split; [reflexivity|]. split; [intros out []|reflexivity].
  - rewrite fold_left_app. cbn [fold_left].
    destruct (fold_left inline_step lines ([], [], false)) as [[b r] k] eqn:E.
    destruct (IH b r k eq_refl) as (Hb & Hr & Ht).
    rewrite inline_step_cases.
    destruct (mem ")" line) eqn:Hclose; destruct (mem "(" line || k) eqn:Hlook;
      intros [= <- <- <-].
    + split; [reflexivity|]. split.
      * intros out Hin. apply in_app_or in Hin as [Hin|[<-|[]]]; [apply Hr, Hin|].
        intros _. rewrite concat_app. cbn [concat]. rewrite app_nil_r, mem_app, Hclose.
        apply orb_true_r.
      * rewrite !concat_app. cbn [concat]. rewrite !app_nil_r, <- Ht.
        rewrite <- !app_assoc. reflexivity.
    + apply orb_false_iff in Hlook as [Hopen ->]. rewrite (Hb eq_refl) in *.
      split; [reflexivity|]. split.
      * intros out Hin. apply in_app_or in Hin as [Hin|[<-|[]]].
        -- apply in_app_or in Hin as [Hin|[<-|[]]]; [apply Hr, Hin | congruence].
        -- discriminate.
      * rewrite !concat_app. cbn [concat]. rewrite !app_nil_r, <- Ht.
        cbn [concat]. rewrite !app_nil_r. reflexivity.
    + split; [discriminate|]. split; [exact Hr|].
      rewrite !concat_app. cbn [concat]. rewrite !app_nil_r, <- Ht.
      rewrite <- !app_assoc. reflexivity.
    + apply orb_false_iff in Hlook as [Hopen ->]. rewrite (Hb eq_refl) in *.
      split; [reflexivity|]. split.
      * intros out Hin. apply in_app_or in Hin as [Hin|[<-|[]]];
          [apply Hr, Hin | congruence].
      * rewrite !concat_app. cbn [concat]. rewrite !app_nil_r, <- Ht.
        cbn [concat]. rewrite !app_nil_r. reflexivity.
Qed.

(** X24. In the output of [inline_func_signatures] no line holds an
    opening parenthesis without a closing one: the lines of a signature
    are kept back until the line with the closing parenthesis comes. *)
Theorem inline_func_signatures_closes (lines : list str) (out : str) :
  In out (inline_func_signatures lines) ->
  mem "(" out = true -> mem ")" out = true.
Proof.
  unfold inline_func_signatures.
  destruct (fold_left inline_step lines ([], [], false)) as [[b r] k] eqn:E.
  apply (inline_invariant _ E).
Qed.

Lemma inline_func_signatures_closes_witness :
  mem ")" "void f(int a, int b);" = true.
Proof.
  apply (@inline_func_signatures_closes
           (lits ["Section"; "void f(int a,"; " int b);"; "x: A"])
           "void f(int a, int b);").
  - vm_compute. right. left. reflexivity.
  - reflexivity.
Defined.

Lemma inline_looking (pending buffer result : list str) :
  (forall line, In line pending -> mem ")" line = false) ->
  fold_left inline_step pending (buffer, result, true)
  = (buffer ++ pending, result, true).
Proof.
  revert buffer. induction pending as [|line pending IH]; intros buffer H.
  - cbn [fold_left]. rewrite app_nil_r. reflexivity.
  - cbn [fold_left]. rewrite inline_step_cases.
    rewrite (H line (or_introl eq_refl)), orb_true_r.
    rewrite IH by (intros l Hl; apply H; right; exact Hl).
    rewrite <- app_assoc. reflexivity.
Qed.

Lemma inline_pending (pending result : list str) :
  (forall line, In line pending -> mem ")" line = false) ->
  exists buffer look,
    fold_left inline_step pending ([], result, false)
    = (buffer, result ++ lines_before_opening pending, look).
Proof.
  revert result. induction pending as [|line pending IH]; intros result H.
  - exists [], false. cbn [fold_left lines_before_opening]. rewrite app_nil_r. reflexivity.
  - cbn [fold_left lines_before_opening]. rewrite inline_step_cases.
    rewrite (H line (or_introl eq_refl)), orb_false_r.
    destruct (mem "(" line).
    + rewrite inline_looking by (intros l Hl; apply H; right; exact Hl).
      eexists _, _. rewrite app_nil_r. reflexivity.
    + destruct (IH (result ++ [line])) as (b & k & E);
        [intros l Hl; apply H; right; exact Hl|].
      exists b, k. rewrite E, <- app_assoc. reflexivity.
Qed.

Lemma inline_flushed (done : list str) (line : str) :
  mem ")" line = true ->
  exists result,
    fold_left inline_step (done ++ [line]) ([], [], false) = ([], result, false).
Proof.
  intros H. rewrite fold_left_app. cbn [fold_left].
  destruct (fold_left inline_step done ([], [], false)) as [[b r] k].
  rewrite inline_step_cases, H.
  destruct (mem "(" line || k); eexists; reflexivity.
Qed.

Lemma inline_func_signatures_split (done pending : list str) :
  (done = [] \/ exists d line, done = d ++ [line] /\ mem ")" line = true) ->
  (forall line, In line pending -> mem ")" line = false) ->
  inline_func_signatures (done ++ pending)
  = inline_func_signatures done ++ lines_before_opening pending
  /\ concat (inline_func_signatures done) = concat done.
Proof.
  intros Hdone Hpending.
  assert (Hstate : exists result,
             fold_left inline_step done ([], [], false) = ([], result, false)).
  { destruct Hdone as [->|(d & line & -> & Hl)].
    - exists []. reflexivity.
    - apply inline_flushed, Hl. }
  destruct Hstate as (r & E).
  destruct (inline_invariant _ E) as (_ & _ & Ht).
  unfold inline_func_signatures. rewrite fold_left_app, E.
  destruct (@inline_pending pending r Hpending) as (b & k & ->).
  split; [reflexivity|]. rewrite <- Ht. cbn [concat]. symmetry. apply app_nil_r.
Qed.

(** X25. [inline_func_signatures] keeps the text of its input up to the
    last line with a closing parenthesis; of the lines behind it, it keeps
    those in front of the first opening parenthesis, as they are, and drops
    the rest (a signature that is never closed). *)
Theorem inline_func_signatures_text (done pending : list str) :
  (done = [] \/ exists d line, done = d ++ [line] /\ mem ")" line = true) ->
  (forall line, In line pending -> mem ")" line = false) ->
  inline_func_signatures (done ++ pending)
  = inline_func_signatures done ++ lines_before_opening pending
  /\ concat (inline_func_signatures done) = concat done.
Proof. apply inline_func_signatures_split. Qed.

Lemma inline_func_signatures_text_witness :
  inline_func_signatures
    (lits ["void f(int a,"; " int b);"] ++ lits ["x: A"; "void g(int a,"; " int b"])
  = inline_func_signatures (lits ["void f(int a,"; " int b);"])
    ++ lines_before_opening (lits ["x: A"; "void g(int a,"; " int b"])
  /\ concat (inline_func_signatures (lits ["void f(int a,"; " int b);"]))
     = concat (lits ["void f(int a,"; " int b);"]).
Proof.
  apply (@inline_func_signatures_text
           (lits ["void f(int a,"; " int b);"])
           (lits ["x: A"; "void g(int a,"; " int b"])).
  - right. exists (lits ["void f(int a,"]), (" int b);" : str).
    split; reflexivity.
  - intros line [<-|[<-|[<-|[]]]]; reflexivity.
Defined.

(** ** The string form of a [Signature] *)

Lemma Signature_assemble_prefix_inv
    (tokens final : list str) (q : option Qualifier) (ret_type : MultiIdent)
    (d : Declarator) :
  Signature_assemble_prefix tokens = (Ok (q, ret_type, d), final) ->
  exists qw type levels identifier,
    tokens = declaration_tokens qw type levels identifier
    /\ mk_Declaration q ret_type d = declaration_node qw type levels identifier
    /\ grammar_conditions qw type levels identifier.
Proof.
  unfold Signature_assemble_prefix, bind at 1, first_token.
  destruct tokens as [|token rest]; [discriminate|].
  unfold bind at 1, lift. rewrite Qualifier_process_spec.
  destruct (Qualifier_check token) eqn:Eq.
  - unfold bind at 1, bind at 1, del_tokens, del_prefix. cbn [skipn].
    unfold bind at 1, pop_first.
    destruct rest as [|type rest]; [discriminate|].
    unfold bind at 1.
    destruct (Declarator_process rest) as [[[dn|]|e] store'] eqn:Ed; [|discriminate..].
    cbn. intros [= <- <- <- <-].
    destruct (Declarator_process_inv _ Ed)
      as (levels & identifier & -> & -> & Hl & Hs & Hc & ->).
    exists (Some token), type, levels, identifier.
    repeat split; assumption.
  - unfold bind at 1, bind at 1, ret. unfold bind at 1, pop_first, bind at 1.
    destruct (Declarator_process rest) as [[[dn|]|e] store'] eqn:Ed; [|discriminate..].
    cbn. intros [= <- <- <- <-].
    destruct (Declarator_process_inv _ Ed)
      as (levels & identifier & -> & -> & Hl & Hs & Hc & ->).
    exists None, token, levels, identifier.
    repeat split; assumption.
Qed.

Lemma split_on_level_joined (data : str) (sep : ascii) :
  join [sep] (split_on_level data sep) = data.
Proof.
  unfold split_on_level, enumerate.
  apply (@split_on_level_loop_join data sep data 0 0 0%Z); [reflexivity | lia | lia].
Qed.

Lemma in_join_part (c : ascii) (sep p : str) (parts : list str) :
  In p parts -> In c p -> In c (join sep parts).
Proof.
  induction parts as [|x parts IH]; [intros []|].
  intros Hp Hc. destruct parts as [|y parts].
  - destruct Hp as [<-|[]]. exact Hc.
  - rewrite join_cons by discriminate. apply in_or_app.
    destruct Hp as [<-|Hp]; [left; exact Hc|].
    right. apply in_or_app. right. apply IH; assumption.
Qed.

Lemma join_snoc (sep w : str) (l : list str) :
  l <> [] -> join sep (l ++ [w]) = join sep l ++ sep ++ w.
Proof.
  induction l as [|x l IH]; [congruence|]. intros _.
  destruct l as [|y l].
  - reflexivity.
  - change ((x :: y :: l) ++ [w]) with (x :: ((y :: l) ++ [w])).
    rewrite join_cons by (destruct l; discriminate).
    rewrite IH by discriminate.
    rewrite (@join_cons sep x (y :: l)) by discriminate.
    rewrite <- !app_assoc. reflexivity.
Qed.

Lemma mem_true_iff (c : ascii) (s : str) : mem c s = true <-> In c s.
Proof.
  unfold mem. rewrite existsb_exists. split.
  - intros (x & Hx & E). apply Ascii.eqb_eq in E. subst x. exact Hx.
  - intros H. exists c. split; [exact H | apply Ascii.eqb_refl].
Qed.

Lemma mem_false_not_in (c : ascii) (s : str) : mem c s = false <-> ~ In c s.
Proof.
  rewrite <- mem_true_iff. destruct (mem c s); split; congruence.
Qed.

Lemma first_occurrence_unique (c : ascii) (a b r r' : str) :
  mem c a = false -> mem c b = false ->
  a ++ c :: r = b ++ c :: r' -> a = b.
Proof.
  revert b. induction a as [|x a IH]; intros b Ha Hb E.
  - destruct b as [|y b]; [reflexivity|].
    injection E as <- _. rewrite mem_cons, Ascii.eqb_refl in Hb. discriminate.
  - destruct b as [|y b].
    + injection E as -> _. rewrite mem_cons, Ascii.eqb_refl in Ha. discriminate.
    + injection E as <- E. rewrite mem_cons in Ha, Hb.
      apply orb_false_iff in Ha as [_ Ha]. apply orb_false_iff in Hb as [_ Hb].
      f_equal. apply IH; assumption.
Qed.

Lemma Declarator_str_empty_level (levels : list (list str)) (identifier : str) :
  Declarator_str (mk_Declarator (pointer_nodes ([] :: levels)) (mk_MultiIdent identifier))
  = "*"%char :: " "%char
      :: Declarator_str (mk_Declarator (pointer_nodes levels) (mk_MultiIdent identifier)).
Proof.
  unfold Declarator_str. cbn [pointers ident name].
  destruct levels as [|words levels]; [reflexivity|].
  change (0 <? length (pointer_nodes ([] :: words :: levels))) with true.
  change (0 <? length (pointer_nodes (words :: levels))) with true.
  cbv iota.
  change (pointer_nodes ([] :: words :: levels))
    with (mk_Pointer [] :: pointer_nodes (words :: levels)).
  cbn [map]. rewrite join_cons by discriminate.
  change (Pointer_str (mk_Pointer [])) with ["*"%char].
  rewrite <- !app_assoc. reflexivity.
Qed.

(** The tokens of a declarator, joined by spaces, are never its string
    form with a space behind it. *)
Lemma Declarator_str_not_tokens (levels : list (list str)) (identifier : str) :
  join " " (pointer_tokens levels ++ [identifier])
  <> Declarator_str (mk_Declarator (pointer_nodes levels) (mk_MultiIdent identifier))
     ++ " ".
Proof.
  induction levels as [|words levels IH].
  - cbn. intros E. apply (f_equal (@length ascii)) in E.
    rewrite length_app in E. simpl in E. lia.
  - rewrite pointer_tokens_cons.
    rewrite join_cons by (destruct words; [destruct (pointer_tokens levels)|]; discriminate).
    destruct words as [|w words].
    + rewrite Declarator_str_empty_level. cbn [app].
      change (list_ascii_of_string " ") with [" "%char]. cbn [app].
      intros [= E]. apply IH. exact E.
    + unfold Declarator_str. cbn [pointers ident name].
      change (pointer_nodes ((w :: words) :: levels))
        with (mk_Pointer (mk_Qualifier Const :: map (fun _ => mk_Qualifier Const) words)
              :: pointer_nodes levels).
      cbn [map length Nat.ltb Nat.leb].
      assert (Hhead : exists tail,
                 join " " (Pointer_str (mk_Pointer (mk_Qualifier Const
                             :: map (fun _ => mk_Qualifier Const) words))
                           :: map Pointer_str (pointer_nodes levels))
                 = "*"%char :: "c"%char :: tail).
      { set (ps := map Pointer_str (pointer_nodes levels)).
        unfold Pointer_str. cbn [qualifiers map].
        assert (Hq : exists t,
                   join " " (Qualifier_str (mk_Qualifier Const)
                             :: map Qualifier_str (map (fun _ => mk_Qualifier Const) words))
                   = "c"%char :: t).
        { destruct (map Qualifier_str (map (fun _ => mk_Qualifier Const) words));
            eexists; [|rewrite join_cons by discriminate]; reflexivity. }
        destruct Hq as (t & ->).
        destruct ps as [|p ps];
          eexists; [|rewrite join_cons by discriminate]; reflexivity. }
      destruct Hhead as (tail & ->). discriminate.
Qed.

Lemma Signature_str_head (node : Signature) :
  Signature_str node
  = (Signature_head node ++ " ")
    ++ "("%char :: (join ", " (map param_str (params node)) ++ ");").
Proof.
  unfold Signature_str, Signature_head.
  set (qs := match return_type_qualifier node with
             | Some q => [Qualifier_str q]
             | None => []
             end).
  replace (qs ++ [name (return_type node)] ++ [Declarator_str (return_declarator node)]
           ++ ["(" ++ join ", " (map param_str (params node)) ++ ");"])
    with ((qs ++ [name (return_type node)] ++ [Declarator_str (return_declarator node)])
          ++ ["(" ++ join ", " (map param_str (params node)) ++ ");"])
    by (rewrite <- !app_assoc; reflexivity).
  rewrite join_snoc by (destruct qs; discriminate).
  rewrite <- !app_assoc. reflexivity.
Qed.

Lemma Declarator_str_chars (c : ascii) (d : Declarator) :
  In c (Declarator_str d) -> In c (name (ident d)) \/ In c (list_ascii_of_string "* const").
Proof.
  unfold Declarator_str. intros H. apply in_app_or in H as [H|H]; [|left; exact H].
  right. destruct (0 <? length (pointers d)); [|destruct H].
  apply in_app_or in H as [H|H]; [|simpl in H; simpl; tauto].
  apply in_join in H as [H|(p & Hp & H)]; [simpl in H; simpl; tauto|].
  apply in_map_iff in Hp as (x & <- & _). unfold Pointer_str in H.
  apply in_app_or in H as [H|H]; [simpl in H; simpl; tauto|].
  apply in_join in H as [H|(q & Hq & H)]; [simpl in H; simpl; tauto|].
  apply in_map_iff in Hq as (y & <- & _). rewrite Qualifier_str_const in H.
  simpl in H. simpl. tauto.
Qed.

Lemma Signature_check_prefix (a r variant prefix text : str) :
  variant = a ++ "("%char :: r -> mem "(" a = false ->
  Signature_check variant = Some (prefix, text) -> prefix = a.
Proof.
  intros -> Ha. unfold Signature_check.
  destruct (ends_with ");" (a ++ "("%char :: r)); cbn [negb]; [|discriminate].
  intros [= <- _]. unfold str_find. rewrite find_from_app by exact Ha.
  apply (@py_slice_segment ascii [] a ("("%char :: r)); [reflexivity|].
  unfold clamp_index. cbn [app length].
  destruct (Z.ltb_spec (0 + Z.of_nat (length a)) 0); [lia|].
  rewrite length_app. lia.
Qed.

Lemma Signature_reparse_prefix (node : Signature) (prefix text : str) :
  Signature_check (Signature_str node) = Some (prefix, text) ->
  Signature_assemble (prefix, text) = Ok node ->
  False.
Proof.
  intros Hcheck Hasm.
  (* the tokens of the prefix are those of the node *)
  unfold Signature_assemble in Hasm.
  destruct (Signature_assemble_prefix (split_on_level prefix " "))
    as [[[[q r] d]|e] final] eqn:Ehead; cbn [fst rbind] in Hasm; [|discriminate].
  destruct (mapM Signature_assemble_param (Signature_param_fragments text)) as [ps|];
    cbn [rbind] in Hasm; [|discriminate].
  injection Hasm as <-.
  destruct (Signature_assemble_prefix_inv _ Ehead)
    as (qw & type & levels & identifier & Htokens & Hnode & Hcond).
  unfold declaration_node in Hnode. injection Hnode as -> -> ->.
  pose proof (split_on_level_joined prefix " ") as Hjoin. rewrite Htokens in Hjoin.
  (* the prefix is the text up to the first parenthesis *)
  destruct (first_occurrence "(" (Signature_str
              (mk_Signature
                 match qw with Some _ => Some (mk_Qualifier Const) | None => None end
                 (mk_MultiIdent type)
                 (mk_Declarator (pointer_nodes levels) (mk_MultiIdent identifier)) ps)))
    as [Hm|(a & rest & Ea & Ha)].
  { rewrite Signature_str_head, mem_app, mem_cons in Hm.
    rewrite Ascii.eqb_refl in Hm. cbn [orb] in Hm. rewrite orb_true_r in Hm. discriminate. }
  pose proof (@Signature_check_prefix _ _ _ _ _ Ea Ha Hcheck) as ->.
  (* no token holds a parenthesis, so neither does the head of the node *)
  assert (Htok : forall t c, In t (declaration_tokens qw type levels identifier) ->
                   In c t -> c <> "("%char).
  { intros t c Ht Hc ->. apply mem_false_not_in in Ha. apply Ha.
    rewrite <- Hjoin. apply (@in_join_part "(" [" "%char] t); assumption. }
  set (node := mk_Signature
                 match qw with Some _ => Some (mk_Qualifier Const) | None => None end
                 (mk_MultiIdent type)
                 (mk_Declarator (pointer_nodes levels) (mk_MultiIdent identifier)) ps) in *.
  assert (Hhead : mem "(" (Signature_head node ++ " ") = false).
  { apply mem_false_not_in. intros Hin. apply in_app_or in Hin as [Hin|Hin];
      [|simpl in Hin; destruct Hin as [Hin|[]]; discriminate Hin].
    unfold Signature_head in Hin. cbn [node return_type_qualifier return_type
      return_declarator name] in Hin.
    apply in_join in Hin as [Hin|(p & Hp & Hin)];
      [simpl in Hin; destruct Hin as [Hin|[]]; discriminate Hin|].
    apply in_app_or in Hp as [Hp|[<-|[<-|[]]]].
    - destruct qw; [|destruct Hp]. destruct Hp as [<-|[]].
      simpl in Hin. repeat (destruct Hin as [Hin|Hin]; [discriminate Hin|]). destruct Hin.
    - apply (Htok type "("%char); [|exact Hin|reflexivity].
      unfold declaration_tokens. apply in_or_app. right. left. reflexivity.
    - apply Declarator_str_chars in Hin as [Hin|Hin].
      + apply (Htok identifier "("%char); [|exact Hin|reflexivity].
        unfold declaration_tokens. apply in_or_app. right. right.
        cbn [app]. apply in_or_app. right. left. reflexivity.
      + simpl in Hin. repeat (destruct Hin as [Hin|Hin]; [discriminate Hin|]). destruct Hin. }
  rewrite Signature_str_head in Ea.
  pose proof (@first_occurrence_unique _ _ _ _ _ Hhead Ha Ea) as Eprefix.
  rewrite <- Eprefix in Hjoin. clear - Hjoin Hcond.
  (* the tokens joined are not the head with a space behind it *)
  unfold Signature_head, declaration_tokens in Hjoin.
  cbn [node return_type_qualifier return_type return_declarator name] in Hjoin.
  assert (Hrest : join [" "%char] ([type] ++ pointer_tokens levels ++ [identifier])
                  = join " " ([type] ++ [Declarator_str
                       (mk_Declarator (pointer_nodes levels) (mk_MultiIdent identifier))])
                    ++ " ").
  { destruct qw as [w|]; [|exact Hjoin].
    destruct Hcond as (Hw & _). unfold Qualifier_check in Hw.
    apply orb_true_iff in Hw as [Hw|Hw]; apply str_eqb_eq in Hw; subst w.
    - cbn [app] in Hjoin.
      rewrite (@join_cons [" "%char] Qualifier_Const) in Hjoin by discriminate.
      rewrite (@join_cons " " (Qualifier_str (mk_Qualifier Const))) in Hjoin
        by discriminate.
      change (Qualifier_str (mk_Qualifier Const)) with Qualifier_Const in Hjoin.
      rewrite <- !app_assoc in Hjoin. do 2 apply app_inv_head in Hjoin.
      exact Hjoin.
    - cbn [app] in Hjoin.
      rewrite (@join_cons [" "%char] Qualifier_Volatile) in Hjoin by discriminate.
      rewrite (@join_cons " " (Qualifier_str (mk_Qualifier Const))) in Hjoin
        by discriminate.
      discriminate Hjoin. }
  cbn [app] in Hrest.
  rewrite join_cons in Hrest by (destruct (pointer_tokens levels); discriminate).
  rewrite join_cons in Hrest by discriminate.
  rewrite <- !app_assoc in Hrest. do 2 apply app_inv_head in Hrest.
  cbn [join] in Hrest.
  exact (@Declarator_str_not_tokens levels identifier Hrest).
Qed.

(** X26. No [Signature] comes back from its string form. [__str__] puts a
    space between the declarator and the parameter list, so the prefix
    that [Signature.check] cuts off ends in a space, and the tokens that
    [split_on_level] makes of it are never those of the node: whatever the
    node is, [Signature.process] of its string form does not yield it. *)
Theorem Signature_str_never_reparses (node : Signature) :
  Signature_process (Signature_str node) <> Ok (Some node).
Proof.
  intros H. unfold Signature_process in H.
  destruct (Signature_check (Signature_str node)) as [[prefix text]|] eqn:E;
    [|discriminate].
  destruct (Signature_assemble (prefix, text)) as [n|] eqn:Ea; cbn [rbind] in H;
    [|discriminate].
  injection H as ->. exact (@Signature_reparse_prefix node prefix text E Ea).
Qed.

(** ** Section numbers *)

(** [TestSectionDeclaration.test_double_section_number] *)
Example test_double_section_number :
  exists result,
    SectionDeclaration_process "Buffer Object Queries [6, 6.7]" = Built (Some result)
    /\ section_name result = list_ascii_of_string "Buffer Object Queries"
    /\ SectionNumbers_str (section_numbers result) = Ok (list_ascii_of_string "6, 6.7").
Proof. eexists. repeat split; vm_compute; reflexivity. Qed.

Lemma nullable_matches (r : regex) : nullable r = true <-> matches r [].
Proof.
  split.
  - induction r; cbn [nullable]; intros H; try discriminate.
    + constructor.
    + apply andb_true_iff in H as [H1 H2].
      change (@nil ascii) with (@nil ascii ++ []). constructor; auto.
    + apply orb_true_iff in H as [H|H]; [apply m_alt_l | apply m_alt_r]; auto.
    + constructor.
  - intros H. remember [] as w eqn:E. induction H; cbn [nullable]; try discriminate;
      try reflexivity.
    + apply app_eq_nil in E as [-> ->]. rewrite IHmatches1, IHmatches2; reflexivity.
    + rewrite IHmatches by assumption. reflexivity.
    + rewrite IHmatches by assumption. apply orb_true_r.
Qed.

Lemma deriv_sound (c : ascii) (r : regex) (s : str) :
  matches (deriv c r) s -> matches r (c :: s).
Proof.
  revert s. induction r; cbn [deriv]; intros w H.
  - inversion H.
  - inversion H.
  - destruct (Ascii.eqb_spec c0 c) as [->|]; inversion H; subst. constructor.
  - destruct (is_digit c) eqn:E; inversion H; subst. constructor. exact E.
  - destruct (nullable r1) eqn:En.
    + inversion H; subst.
      * match goal with Hs : matches (Seq _ _) _ |- _ => inversion Hs; subst end.
        change (c :: u ++ v) with ((c :: u) ++ v). constructor; auto.
      * change (c :: w) with ([] ++ c :: w). constructor; [|auto].
        apply nullable_matches, En.
    + inversion H; subst. change (c :: u ++ v) with ((c :: u) ++ v). constructor; auto.
  - inversion H; subst; [apply m_alt_l | apply m_alt_r]; auto.
  - inversion H; subst. change (c :: u ++ v) with ((c :: u) ++ v). constructor; auto.
Qed.

Lemma deriv_complete (r : regex) (w : str) :
  matches r w -> forall c s, w = c :: s -> matches (deriv c r) s.
Proof.
  induction 1; intros x t E; cbn [deriv]; try discriminate.
  - injection E as -> <-. rewrite Ascii.eqb_refl. constructor.
  - injection E as -> <-. rewrite H. constructor.
  - destruct u as [|y u].
    + cbn [app] in E. apply nullable_matches in H. rewrite H.
      apply m_alt_r. apply IHmatches2, E.
    + injection E as -> <-.
      destruct (nullable r); [apply m_alt_l|]; constructor; auto.
  - apply m_alt_l. auto.
  - apply m_alt_r. auto.
  - destruct u as [|y u].
    + cbn [app] in E. apply (IHmatches2 _ _ E).
    + injection E as -> <-. constructor; auto.
Qed.

Lemma fullmatch_matches (r : regex) (s : str) :
  fullmatch r s = true <-> matches r s.
Proof.
  unfold fullmatch. revert r. induction s as [|c s IH]; intros r; cbn [fold_left].
  - apply nullable_matches.
  - rewrite IH. split; [apply deriv_sound|].
    intros H. apply (deriv_complete H). reflexivity.
Qed.

Lemma star_digit (v : str) :
  matches (Star Digit) v <-> forallb is_digit v = true.
Proof.
  split.
  - intros H. remember (Star Digit) as r eqn:E. induction H; try discriminate.
    + reflexivity.
    + injection E as ->. inversion H; subst. cbn [app forallb].
      rewrite IHmatches2 by reflexivity.
      match goal with Hd : is_digit _ = true |- _ => rewrite Hd end. reflexivity.
  - induction v as [|c v IH]; cbn [forallb]; intros H; [constructor|].
    apply andb_true_iff in H as [Hc Hv].
    change (c :: v) with ([c] ++ v). constructor; [constructor; exact Hc | auto].
Qed.

Lemma plus_digit (u : str) :
  matches (Plus Digit) u <-> is_number u = true.
Proof.
  unfold is_number, Plus. split.
  - intros H. inversion H; subst.
    match goal with Hd : matches Digit _ |- _ => inversion Hd; subst end.
    match goal with Hs : matches (Star Digit) _ |- _ => apply star_digit in Hs as Hv end.
    cbn [app length Nat.eqb negb forallb andb]. rewrite Hv.
    match goal with Hd : is_digit _ = true |- _ => rewrite Hd end. reflexivity.
  - destruct u as [|c u]; [discriminate|]. cbn [length Nat.eqb negb forallb andb].
    intros H. apply andb_true_iff in H as [Hc Hu].
    change (c :: u) with ([c] ++ u). constructor; [constructor; exact Hc|].
    apply star_digit, Hu.
Qed.

Lemma stage_group (g : str) :
  matches (Seq (Chr ".") (Seq (Plus Digit) (Opt (Seq (Chr "-") (Plus Digit))))) g
  <-> exists body, g = "."%char :: body /\ is_stage body.
Proof.
  split.
  - intros H. inversion H as [| | |r s u w Hdot Hbody| | | |]; subst.
    inversion Hdot; subst.
    inversion Hbody as [| | |r s a t Ha Ht| | | |]; subst.
    apply plus_digit in Ha. exists (a ++ t). split; [reflexivity|].
    inversion Ht as [| | | |r s x Hx|r s x Hx| |]; subst.
    + inversion Hx as [| | |r s h b Hh Hb| | | |]; subst. inversion Hh; subst.
      apply plus_digit in Hb. right. exists a, b. repeat split; assumption.
    + inversion Hx; subst. rewrite app_nil_r. left. exact Ha.
  - intros (body & -> & [Hn|(a & b & -> & Ha & Hb)]).
    + change ("."%char :: body) with (["."%char] ++ body). constructor; [constructor|].
      rewrite <- (app_nil_r body). constructor; [apply plus_digit, Hn|].
      apply m_alt_r. constructor.
    + change ("."%char :: a ++ "-" ++ b) with (["."%char] ++ a ++ "-" ++ b).
      constructor; [constructor|]. constructor; [apply plus_digit, Ha|].
      apply m_alt_l. change (list_ascii_of_string "-" ++ b) with (["-"%char] ++ b).
      constructor; [constructor | apply plus_digit, Hb].
Qed.

Lemma stage_groups (w : str) :
  matches (Star (Seq (Chr ".") (Seq (Plus Digit) (Opt (Seq (Chr "-") (Plus Digit)))))) w
  <-> exists bodies, w = concat (map (cons "."%char) bodies) /\ Forall is_stage bodies.
Proof.
  split.
  - intros H.
    remember (Star (Seq (Chr ".") (Seq (Plus Digit) (Opt (Seq (Chr "-") (Plus Digit))))))
      as r eqn:E.
    induction H; try discriminate.
    + exists []. split; [reflexivity | constructor].
    + injection E as ->. apply stage_group in H as (body & -> & Hb).
      destruct (IHmatches2 eq_refl) as (bodies & -> & Hbs).
      exists (body :: bodies). split; [reflexivity | constructor; assumption].
  - intros (bodies & -> & H). induction H as [|body bodies Hb _ IH]; [constructor|].
    cbn [map concat]. constructor; [|exact IH].
    apply stage_group. exists body. split; [reflexivity | exact Hb].
Qed.

Lemma join_concat (sep x : str) (l : list str) :
  join sep (x :: l) = x ++ concat (map (app sep) l).
Proof.
  revert x. induction l as [|y l IH]; intros x.
  - cbn [join map concat]. rewrite app_nil_r. reflexivity.
  - rewrite join_cons by discriminate. rewrite IH. cbn [map concat].
    rewrite <- app_assoc. reflexivity.
Qed.

Lemma SectionNumber_check_spec (variant : str) :
  SectionNumber_check variant = true
  <-> exists first rest,
        variant = join "." (first :: rest)
        /\ is_number first = true /\ Forall is_stage rest.
Proof.
  unfold SectionNumber_check. rewrite fullmatch_matches. unfold SectionNumber_matcher.
  split.
  - intros H. inversion H as [| | |r s u w Hu Hw| | | |]; subst.
    apply plus_digit in Hu. apply stage_groups in Hw as (bodies & -> & Hb).
    exists u, bodies. rewrite join_concat. repeat split; assumption.
  - intros (first & rest & -> & Hf & Hr). rewrite join_concat.
    constructor; [apply plus_digit, Hf|].
    apply stage_groups. exists rest. split; [reflexivity | exact Hr].
Qed.

Lemma is_digit_facts (c : ascii) :
  is_digit c = true ->
  is_space c = false /\ mem c (list_ascii_of_string "+-._, ") = false.
Proof.
  each_ascii c; vm_compute; intros H; try discriminate H; split; reflexivity.
Qed.

Lemma is_number_chars (d : str) (x : ascii) :
  is_number d = true -> mem x (list_ascii_of_string "+-._, ") = true -> mem x d = false.
Proof.
  unfold is_number. intros H Hx. apply andb_true_iff in H as [_ H].
  rewrite forallb_forall in H. apply mem_false_iff. intros y Hy.
  destruct (Ascii.eqb_spec x y) as [->|]; [|reflexivity].
  destruct (is_digit_facts _ (H y Hy)) as [_ Hm]. congruence.
Qed.

Lemma digits_value_number (d : str) (after_digit : bool) (acc : Z) :
  forallb is_digit d = true -> d <> [] \/ after_digit = true ->
  digits_value d after_digit acc
  = Some (fold_left (fun acc c => (10 * acc + (Z.of_nat (ord c) - Z.of_nat (ord "0")))%Z)
                    d acc).
Proof.
  revert after_digit acc. induction d as [|c d IH]; intros b acc Hd Hne.
  - destruct Hne as [Hne| ->]; [congruence | reflexivity].
  - cbn [forallb] in Hd. apply andb_true_iff in Hd as [Hc Hd].
    cbn [digits_value fold_left]. rewrite Hc. apply IH; [exact Hd | right; reflexivity].
Qed.

Lemma filter_digits (d : str) : forallb is_digit d = true -> filter is_digit d = d.
Proof.
  induction d as [|c d IH]; [reflexivity|]. cbn [forallb filter]. intros H.
  apply andb_true_iff in H as [Hc Hd]. rewrite Hc, IH by exact Hd. reflexivity.
Qed.

Lemma unsigned_body (A : Type) (c : ascii) (d : str) (k : Z -> str -> A) :
  Ascii.eqb "+" c = false -> Ascii.eqb "-" c = false ->
  (let '(sign, body) :=
     match c :: d with
     | "+"%char :: body => (1%Z, body)
     | "-"%char :: body => ((-1)%Z, body)
     | body => (1%Z, body)
     end in
   k sign body)
  = k 1%Z (c :: d).
Proof. each_ascii c; intros Hp Hm; try reflexivity; discriminate. Qed.

Lemma py_int_number (d : str) :
  is_number d = true ->
  py_int d
  = if int_max_str_digits <? length d then Raise ValueError else Ok (number_value d).
Proof.
  intros H. unfold py_int.
  assert (Hs : strip d = d).
  { apply strip_no_space. intros c Hc. unfold is_number in H.
    apply andb_true_iff in H as [_ H]. rewrite forallb_forall in H.
    apply (is_digit_facts _ (H c Hc)). }
  rewrite Hs.
  pose proof (@is_number_chars d "+" H eq_refl) as Hplus.
  pose proof (@is_number_chars d "-" H eq_refl) as Hminus.
  unfold is_number in H. apply andb_true_iff in H as [Hlen Hd].
  destruct d as [|c d]; [discriminate|].
  rewrite mem_cons in Hplus, Hminus.
  apply orb_false_iff in Hplus as [Hplus _]. apply orb_false_iff in Hminus as [Hminus _].
  etransitivity.
  { apply (@unsigned_body _ c d
             (fun sign body =>
                match digits_value body false 0 with
                | Some v =>
                    if int_max_str_digits <? length (filter is_digit body)
                    then Raise ValueError
                    else Ok (sign * v)%Z
                | None => Raise ValueError
                end)); assumption. }
  cbv beta. rewrite digits_value_number by (assumption || (left; discriminate)).
  rewrite filter_digits by exact Hd.
  destruct (int_max_str_digits <? length (c :: d)); [reflexivity|].
  unfold number_value. f_equal. lia.
Qed.

Lemma SectionNumber_parse_stage_spec (s : str) :
  is_stage s ->
  SectionNumber_parse_stage s
  = if forallb (fun number => length number <=? int_max_str_digits) (str_split "-" s)
    then Built (stage_of s)
    else Failed (Propagated ValueError).
Proof.
  unfold SectionNumber_parse_stage, stage_of.
  intros [Hn|(a & b & -> & Ha & Hb)].
  - unfold str_split. rewrite split_char_loop_word by (apply is_number_chars; auto).
    cbn [app forallb]. rewrite py_int_number by exact Hn.
    rewrite Nat.ltb_antisym, andb_true_r.
    destruct (length s <=? int_max_str_digits); reflexivity.
  - unfold str_split. change (a ++ "-" ++ b) with (a ++ "-"%char :: b).
    rewrite split_char_loop_first by (apply is_number_chars; auto).
    rewrite split_char_loop_word by (apply is_number_chars; auto).
    cbn [app forallb]. rewrite !py_int_number by assumption.
    rewrite !Nat.ltb_antisym, andb_true_r.
    destruct (length a <=? int_max_str_digits), (length b <=? int_max_str_digits);
      reflexivity.
Qed.

Lemma is_stage_no_dot (s : str) : is_stage s -> mem "." s = false.
Proof.
  intros [Hn|(a & b & -> & Ha & Hb)].
  - apply is_number_chars; auto.
  - rewrite mem_app, mem_app.
    rewrite (@is_number_chars a "."%char), (@is_number_chars b "."%char) by auto.
    reflexivity.
Qed.

Lemma split_dotted (x piece : str) (l : list str) :
  mem "." x = false -> Forall (fun s => mem "." s = false) l ->
  split_char_loop "." (x ++ concat (map (cons "."%char) l)) piece = (piece ++ x) :: l.
Proof.
  revert x piece. induction l as [|y l IH]; intros x piece Hx Hl.
  - cbn [map concat]. rewrite app_nil_r. apply split_char_loop_word, Hx.
  - inversion Hl; subst. cbn [map concat].
    change (("."%char :: y) ++ concat (map (cons "."%char) l))
      with ("."%char :: (y ++ concat (map (cons "."%char) l))).
    rewrite split_char_loop_first by exact Hx. f_equal.
    apply (IH y []); assumption.
Qed.

(** A loop every turn of which builds its item or fails in one and the
    same way. *)
Lemma omapM_uniform (A B : Type) (f : A -> outcome B) (g : A -> B) (ok : A -> bool)
    (failed : failure) (l : list A) :
  Forall (fun a => f a = if ok a then Built (g a) else Failed failed) l ->
  omapM f l = if forallb ok l then Built (map g l) else Failed failed.
Proof.
  induction 1 as [|a l Ha _ IH]; [reflexivity|].
  cbn [omapM map forallb]. rewrite Ha, IH.
  destruct (ok a), (forallb ok l); reflexivity.
Qed.

Lemma forallb_flat_map (A B : Type) (p : B -> bool) (h : A -> list B) (l : list A) :
  forallb p (flat_map h l) = forallb (fun a => forallb p (h a)) l.
Proof.
  induction l as [|a l IH]; [reflexivity|].
  cbn [flat_map forallb]. rewrite forallb_app, IH. reflexivity.
Qed.

Lemma SectionNumber_parse_spec (variant : str) :
  SectionNumber_check variant = true ->
  SectionNumber_parse variant
  = if forallb (fun number => length number <=? int_max_str_digits)
         (flat_map (str_split "-") (str_split "." variant))
    then Built (mk_SectionNumber (map stage_of (str_split "." variant)))
    else Failed (Propagated ValueError).
Proof.
  intros H. apply SectionNumber_check_spec in H as (first & rest & -> & Hf & Hr).
  unfold SectionNumber_parse, str_split. rewrite join_concat.
  rewrite split_dotted.
  - cbn [app]. rewrite forallb_flat_map.
    rewrite (@omapM_uniform _ _ SectionNumber_parse_stage stage_of
               (fun s => forallb (fun number => length number <=? int_max_str_digits)
                           (split_char_loop "-" s []))
               (Propagated ValueError)).
    + match goal with
      | |- obind (if ?b then _ else _) _ = (if ?b' then _ else _) =>
          change b' with b; destruct b; reflexivity
      end.
    + constructor.
      * apply SectionNumber_parse_stage_spec. left. exact Hf.
      * apply Forall_impl with (P := is_stage); [|exact Hr].
        apply SectionNumber_parse_stage_spec.
  - apply is_number_chars; auto.
  - apply Forall_impl with (P := is_stage); [|exact Hr]. apply is_stage_no_dot.
Qed.

(** X27. What [SectionNumber.process] does is decided by the pattern and
    by the length of the numbers. The strings the pattern accepts are a
    number followed by dot-separated stages, each a number or two numbers
    with a hyphen. On them no stage is rejected and the path has one
    element per dot-separated piece (the value of a number, the range of a
    pair), unless a number has more digits than [int] reads: then it
    raises [ValueError]. Nothing else is raised. *)
Theorem SectionNumber_process_outcomes (variant : str) :
  (SectionNumber_check variant = true
   <-> exists first rest,
         variant = join "." (first :: rest)
         /\ is_number first = true /\ Forall is_stage rest)
  /\ SectionNumber_process variant
     = if SectionNumber_check variant
       then if forallb (fun number => length number <=? int_max_str_digits)
                 (flat_map (str_split "-") (str_split "." variant))
            then Built (Some (mk_SectionNumber (map stage_of (str_split "." variant))))
            else Failed (Propagated ValueError)
       else Built None.
Proof.
  split; [apply SectionNumber_check_spec|].
  unfold SectionNumber_process.
  destruct (SectionNumber_check variant) eqn:E; [|reflexivity].
  rewrite SectionNumber_parse_spec by exact E.
  match goal with |- context [if ?b then _ else _] => destruct b end; reflexivity.
Qed.

(** *** Integers and their decimal form *)

Lemma uint_digits (d : Decimal.uint) :
  forallb is_digit (list_ascii_of_string (NilEmpty.string_of_uint d)) = true.
Proof.
  induction d; cbn [NilEmpty.string_of_uint list_ascii_of_string forallb];
    [reflexivity | rewrite IHd; reflexivity ..].
Qed.

Lemma uint_value_acc (d : Decimal.uint) (acc : positive) :
  fold_left (fun acc c => (10 * acc + (Z.of_nat (ord c) - Z.of_nat (ord "0")))%Z)
            (list_ascii_of_string (NilEmpty.string_of_uint d)) (Z.pos acc)
  = Z.pos (Pos.of_uint_acc d acc).
Proof.
  revert acc. induction d; intros acc;
    cbn [NilEmpty.string_of_uint list_ascii_of_string fold_left Pos.of_uint_acc];
    [reflexivity | digit_value; rewrite <- IHd; f_equal; lia ..].
Qed.

Lemma uint_value (d : Decimal.uint) :
  fold_left (fun acc c => (10 * acc + (Z.of_nat (ord c) - Z.of_nat (ord "0")))%Z)
            (list_ascii_of_string (NilEmpty.string_of_uint d)) 0%Z
  = Z.of_N (Pos.of_uint d).
Proof.
  induction d;
    cbn [NilEmpty.string_of_uint list_ascii_of_string fold_left Pos.of_uint];
    [reflexivity | digit_value ..].
  - exact IHd.
  - apply (uint_value_acc d 1).
  - apply (uint_value_acc d 2).
  - apply (uint_value_acc d 3).
  - apply (uint_value_acc d 4).
  - apply (uint_value_acc d 5).
  - apply (uint_value_acc d 6).
  - apply (uint_value_acc d 7).
  - apply (uint_value_acc d 8).
  - apply (uint_value_acc d 9).
Qed.

Lemma decimal_number (n : Z) :
  (0 <= n)%Z -> is_number (decimal n) = true /\ number_value (decimal n) = n.
Proof.
  intros Hn. destruct n as [|p|p]; [split; reflexivity | | lia].
  unfold decimal, number_value, is_number. cbn [Z.abs Z.to_int NilZero.string_of_int].
  pose proof (DecimalPos.Unsigned.to_uint_nonnil p) as Hnil.
  assert (Hs : NilZero.string_of_uint (Pos.to_uint p)
               = NilEmpty.string_of_uint (Pos.to_uint p)).
  { destruct (Pos.to_uint p); [congruence | reflexivity ..]. }
  rewrite Hs. split.
  - rewrite uint_digits, andb_true_r.
    destruct (Pos.to_uint p); [congruence | reflexivity ..].
  - rewrite uint_value, DecimalPos.Unsigned.of_to. reflexivity.
Qed.

Lemma int_str_ok (n : Z) (s : str) :
  (0 <= n)%Z -> int_str n = Ok s ->
  s = decimal n /\ (int_max_str_digits <? length s) = false.
Proof.
  intros Hn. unfold int_str.
  destruct (int_max_str_digits <? length (decimal n)) eqn:E; [discriminate|].
  destruct (Z.ltb_spec n 0); [lia|]. cbn [app]. intros [= <-]. split; [reflexivity | exact E].
Qed.

Lemma py_int_int_str (n : Z) (s : str) :
  (0 <= n)%Z -> int_str n = Ok s -> is_number s = true /\ py_int s = Ok n.
Proof.
  intros Hn Hs. destruct (int_str_ok Hn Hs) as [-> Hlen].
  destruct (decimal_number Hn) as [Hnum Hval]. split; [exact Hnum|].
  rewrite py_int_number by exact Hnum. rewrite Hlen, Hval. reflexivity.
Qed.

Lemma SectionNumber_check_no_comma (s : str) :
  SectionNumber_check s = true -> mem "," s = false.
Proof.
  intros H. apply SectionNumber_check_spec in H as (first & rest & -> & Hf & Hr).
  apply mem_false_not_in. intros Hin.
  apply in_join in Hin as [Hin|(p & Hp & Hin)].
  - simpl in Hin. destruct Hin as [Hin|[]]. discriminate Hin.
  - assert (Hp' : is_stage p).
    { destruct Hp as [<-|Hp]; [left; exact Hf|].
      rewrite Forall_forall in Hr. apply Hr, Hp. }
    apply mem_true_iff in Hin.
    destruct Hp' as [Hn|(a & b & -> & Ha & Hb)].
    + rewrite (@is_number_chars p ","%char) in Hin by auto. discriminate.
    + rewrite !mem_app in Hin.
      rewrite (@is_number_chars a ","%char), (@is_number_chars b ","%char) in Hin by auto.
      discriminate.
Qed.

Lemma split_str_loop_word (c : ascii) (sep x piece : str) :
  mem c x = false ->
  split_str_loop (c :: sep) x piece 0 = [piece ++ x].
Proof.
  revert piece. induction x as [|y x IH]; intros piece Hm.
  - cbn [split_str_loop]. rewrite app_nil_r. reflexivity.
  - rewrite mem_cons in Hm. apply orb_false_iff in Hm as [Hy Hm].
    cbn [split_str_loop starts_with]. rewrite Hy. cbn [andb].
    rewrite IH by exact Hm. rewrite <- app_assoc. reflexivity.
Qed.

Lemma split_str_loop_skip (sep rest piece : str) :
  forall skipped : str,
    split_str_loop sep (skipped ++ rest) piece (length skipped)
    = split_str_loop sep rest piece 0.
Proof.
  induction skipped as [|y skipped IH]; [reflexivity|].
  cbn [app length split_str_loop]. exact IH.
Qed.

Lemma split_str_loop_first (c : ascii) (sep x rest piece : str) :
  mem c x = false ->
  split_str_loop (c :: sep) (x ++ (c :: sep) ++ rest) piece 0
  = (piece ++ x) :: split_str_loop (c :: sep) rest [] 0.
Proof.
  revert piece. induction x as [|y x IH]; intros piece Hm.
  - cbn [app]. rewrite app_nil_r.
    change (split_str_loop (c :: sep) (c :: sep ++ rest) piece 0)
      with (if starts_with (c :: sep) ((c :: sep) ++ rest)
            then piece :: split_str_loop (c :: sep) (sep ++ rest) []
                            (length (c :: sep) - 1)
            else split_str_loop (c :: sep) (sep ++ rest) (piece ++ [c]) 0).
    rewrite starts_with_app.
    replace (length (c :: sep) - 1) with (length sep) by (cbn [length]; lia).
    rewrite split_str_loop_skip. reflexivity.
  - rewrite mem_cons in Hm. apply orb_false_iff in Hm as [Hy Hm].
    cbn [app split_str_loop starts_with]. rewrite Hy. cbn [andb].
    rewrite IH by exact Hm. rewrite <- app_assoc. reflexivity.
Qed.

Lemma str_split_str_join (c : ascii) (sep x : str) (l : list str) :
  Forall (fun p => mem c p = false) (x :: l) ->
  str_split_str (c :: sep) (join (c :: sep) (x :: l)) = x :: l.
Proof.
  unfold str_split_str. revert x. induction l as [|y l IH]; intros x H.
  - cbn [join]. inversion H; subst. rewrite split_str_loop_word by assumption.
    reflexivity.
  - inversion H; subst. rewrite join_cons by discriminate.
    rewrite split_str_loop_first by assumption. cbn [app]. f_equal.
    apply IH. assumption.
Qed.

(** *** String forms that read back *)

Lemma stage_str_spec (elem : stage) (s : str) :
  stage_ok elem -> stage_str elem = Ok s ->
  is_stage s /\ SectionNumber_parse_stage s = Built elem.
Proof.
  destruct elem as [n|a b]; cbn [stage_ok stage_str].
  - intros Hn Hs. destruct (py_int_int_str Hn Hs) as [Hnum Hint].
    split; [left; exact Hnum|].
    unfold SectionNumber_parse_stage, str_split.
    rewrite split_char_loop_word by (apply is_number_chars; auto).
    cbn [app]. rewrite Hint. reflexivity.
  - intros [Ha Hb].
    destruct (int_str a) as [sa|] eqn:Ea; cbn [rbind]; [|discriminate].
    destruct (int_str b) as [sb|] eqn:Eb; cbn [rbind]; [|discriminate].
    intros [= <-].
    destruct (py_int_int_str Ha Ea) as [Hna Hia].
    destruct (py_int_int_str Hb Eb) as [Hnb Hib]. split.
    + right. exists sa, sb. repeat split; assumption.
    + unfold SectionNumber_parse_stage, str_split.
      change (sa ++ "-" ++ sb) with (sa ++ "-"%char :: sb).
      rewrite split_char_loop_first by (apply is_number_chars; auto).
      rewrite split_char_loop_word by (apply is_number_chars; auto).
      cbn [app]. rewrite Hia, Hib. reflexivity.
Qed.

Lemma mapM_Forall (A B : Type) (f : A -> result B) (P : B -> Prop)
    (l : list A) (bs : list B) :
  mapM f l = Ok bs ->
  (forall a b, In a l -> f a = Ok b -> P b) -> Forall P bs.
Proof.
  revert bs. induction l as [|a l IH]; cbn [mapM]; intros bs.
  - intros [= <-] _. constructor.
  - destruct (f a) as [b|] eqn:Ea; [|discriminate].
    destruct (mapM f l) as [bs0|]; [|discriminate].
    intros [= <-] H. constructor.
    + apply (H a b); [left; reflexivity | exact Ea].
    + apply IH; [reflexivity|]. intros a' b' Hin. apply H. right. exact Hin.
Qed.

Lemma mapM_omapM (A B : Type) (f : A -> result B) (g : B -> outcome A)
    (l : list A) (bs : list B) :
  mapM f l = Ok bs ->
  (forall a b, In a l -> f a = Ok b -> g b = Built a) ->
  omapM g bs = Built l.
Proof.
  revert bs. induction l as [|a l IH]; cbn [mapM]; intros bs.
  - intros [= <-] _. reflexivity.
  - destruct (f a) as [b|] eqn:Ea; [|discriminate].
    destruct (mapM f l) as [bs0|]; [|discriminate].
    intros [= <-] H. cbn [omapM].
    rewrite (H a b) by (left; reflexivity) || exact Ea.
    rewrite (IH bs0 eq_refl) by (intros a' b' Hin; apply H; right; exact Hin).
    reflexivity.
Qed.

Lemma SectionNumber_str_spec (node : SectionNumber) (s : str) :
  SectionNumber_ok node -> SectionNumber_str node = Ok s ->
  SectionNumber_check s = true /\ SectionNumber_parse s = Built node.
Proof.
  destruct node as [stages]. unfold SectionNumber_ok, SectionNumber_str. cbn [path].
  destruct stages as [|[n|] rest]; try contradiction. intros [Hn Hrest].
  destruct (mapM stage_str (StageInt n :: rest)) as [texts|] eqn:Em; cbn [rbind];
    [|discriminate].
  intros [= <-].
  assert (Hok : forall e t, In e (StageInt n :: rest) -> stage_str e = Ok t ->
                  is_stage t /\ SectionNumber_parse_stage t = Built e).
  { intros e t [<-|He] Ht; [apply stage_str_spec; cbn; assumption|].
    rewrite Forall_forall in Hrest. apply stage_str_spec; auto. }
  pose proof (@mapM_Forall _ _ stage_str is_stage _ _ Em
                (fun e t He Ht => proj1 (Hok e t He Ht))) as Hstages.
  pose proof (@mapM_omapM _ _ stage_str SectionNumber_parse_stage _ _ Em
                (fun e t He Ht => proj2 (Hok e t He Ht))) as Hparse.
  cbn [mapM] in Em. cbn [stage_str] in Em.
  destruct (int_str n) as [first|] eqn:En; [|discriminate].
  destruct (mapM stage_str rest) as [others|]; [|discriminate].
  injection Em as <-.
  destruct (py_int_int_str Hn En) as [Hnum _].
  inversion Hstages as [|? ? _ Hothers]; subst.
  assert (Hcheck : SectionNumber_check (join "." (first :: others)) = true).
  { apply SectionNumber_check_spec. exists first, others. repeat split; assumption. }
  split; [exact Hcheck|].
  unfold SectionNumber_parse, str_split. rewrite join_concat, split_dotted.
  - match goal with
    | |- obind ?x _ = _ =>
        replace x with (Built (StageInt n :: rest)) by (symmetry; exact Hparse)
    end.
    reflexivity.
  - apply is_number_chars; auto.
  - apply Forall_impl with (P := is_stage); [|exact Hothers]. apply is_stage_no_dot.
Qed.

Lemma SectionNumbers_str_spec (node : SectionNumbers) (s : str) :
  SectionNumbers_ok node -> SectionNumbers_str node = Ok s ->
  SectionNumbers_process s = Built (Some node).
Proof.
  destruct node as [ns]. unfold SectionNumbers_ok, SectionNumbers_str. cbn [numbers].
  intros [Hne Hok].
  destruct (mapM SectionNumber_str ns) as [texts|] eqn:Em; cbn [rbind]; [|discriminate].
  intros [= <-]. rewrite Forall_forall in Hok.
  pose proof (@mapM_Forall _ _ SectionNumber_str
                (fun t => SectionNumber_check t = true) _ _ Em
                (fun n t Hn Ht => proj1 (@SectionNumber_str_spec n t (Hok n Hn) Ht)))
    as Hchecks.
  pose proof (@mapM_omapM _ _ SectionNumber_str SectionNumber_parse _ _ Em
                (fun n t Hn Ht => proj2 (@SectionNumber_str_spec n t (Hok n Hn) Ht)))
    as Hparse.
  destruct texts as [|t ts].
  { destruct ns; [congruence|]. cbn [mapM] in Em.
    destruct (SectionNumber_str s); [|discriminate].
    destruct (mapM SectionNumber_str ns); discriminate. }
  unfold SectionNumbers_process, SectionNumbers_check.
  change (list_ascii_of_string ", ") with (","%char :: list_ascii_of_string " ").
  rewrite str_split_str_join.
  - assert (Hall : existsb (fun number => negb (SectionNumber_check number)) (t :: ts)
                   = false).
    { apply not_true_is_false. intros H. apply existsb_exists in H as (x & Hx & Hc).
      rewrite Forall_forall in Hchecks. rewrite (Hchecks x Hx) in Hc. discriminate. }
    rewrite Hall. unfold SectionNumbers_assemble.
    match goal with
    | |- obind (obind ?x _) _ = _ =>
        replace x with (Built ns) by (symmetry; exact Hparse)
    end.
    reflexivity.
  - apply Forall_impl with (P := fun t => SectionNumber_check t = true);
      [|exact Hchecks].
    apply SectionNumber_check_no_comma.
Qed.

Lemma Ok_inj (A : Type) (a b : A) : Ok a = Ok b -> a = b.
Proof. intros [= ->]. reflexivity. Qed.

Lemma py_slice_inner (A : Type) (a b c : list A) :
  length c = 1 ->
  py_slice (Z.of_nat (length a)) (-1) (a ++ b ++ c) = b.
Proof.
  intros Hc. apply py_slice_segment; [reflexivity|].
  unfold clamp_index. cbn [Z.ltb Z.compare]. rewrite !length_app, Hc. lia.
Qed.

Lemma TableDelegation_str_spec (node : TableDelegation) (s : str) :
  SectionNumbers_ok (table_numbers node) ->
  TableDelegation_str node = Ok s ->
  TableDelegation_process s = Built (Some node).
Proof.
  destruct node as [ns]. cbn [table_numbers]. intros Hok.
  unfold TableDelegation_str. cbn [table_numbers].
  destruct (SectionNumbers_str ns) as [text|] eqn:Etext; cbn [rbind]; [|discriminate].
  intros Hs. apply Ok_inj in Hs. subst s. unfold TableDelegation_process.
  destruct (1 <? length (numbers ns)).
  - assert (Hcheck : TableDelegation_check ("[Tables " ++ text ++ "]") = true).
    { unfold TableDelegation_check.
      change ("[Tables " ++ text ++ "]") with ("[Table" ++ "s " ++ text ++ "]") at 1.
      rewrite starts_with_app. cbn [negb].
      replace ("[Tables " ++ text ++ "]") with (("[Tables " ++ text) ++ "]")
        by (rewrite <- app_assoc; reflexivity).
      rewrite ends_with_app. reflexivity. }
    rewrite Hcheck. unfold TableDelegation_parse.
    change ("[Tables " ++ text ++ "]") with ("[Tables" ++ " " ++ text ++ "]") at 1.
    rewrite starts_with_app.
    change ("[Tables" ++ " " ++ text ++ "]") with ("[Tables " ++ text ++ "]").
    replace (py_slice 8 (-1) ("[Tables " ++ text ++ "]")) with text
      by (symmetry; apply (@py_slice_inner ascii "[Tables " text "]" eq_refl)).
    rewrite (@SectionNumbers_str_spec _ _ Hok Etext). reflexivity.
  - assert (Hcheck : TableDelegation_check ("[Table " ++ text ++ "]") = true).
    { unfold TableDelegation_check.
      change ("[Table " ++ text ++ "]") with ("[Table" ++ " " ++ text ++ "]") at 1.
      rewrite starts_with_app. cbn [negb].
      replace ("[Table " ++ text ++ "]") with (("[Table " ++ text) ++ "]")
        by (rewrite <- app_assoc; reflexivity).
      rewrite ends_with_app. reflexivity. }
    rewrite Hcheck. unfold TableDelegation_parse.
    change (starts_with "[Tables" ("[Table " ++ text ++ "]")) with false.
    cbv iota.
    replace (py_slice 7 (-1) ("[Table " ++ text ++ "]")) with text
      by (symmetry; apply (@py_slice_inner ascii "[Table " text "]" eq_refl)).
    rewrite (@SectionNumbers_str_spec _ _ Hok Etext). reflexivity.
Qed.

(** X28. A [TableDelegation] comes back from its string form when it has
    at least one section number, every path begins with a number and no
    number is negative: whenever [__str__] returns a text for such a node
    (it raises [ValueError] for a number of too many digits),
    [TableDelegation.process] of the text is the node. *)
Theorem TableDelegation_round_trip (node : TableDelegation) (text : str) :
  SectionNumbers_ok (table_numbers node) ->
  TableDelegation_str node = Ok text ->
  TableDelegation_process text = Built (Some node).
Proof. apply TableDelegation_str_spec. Qed.

Lemma TableDelegation_round_trip_witness :
  TableDelegation_process "[Tables 6.2, 6.7-9]"
  = Built (Some (mk_TableDelegation (mk_SectionNumbers
      [mk_SectionNumber [StageInt 6; StageInt 2];
       mk_SectionNumber [StageInt 6; StageRange 7 9]]))).
Proof.
  apply (@TableDelegation_round_trip
           (mk_TableDelegation (mk_SectionNumbers
              [mk_SectionNumber [StageInt 6; StageInt 2];
               mk_SectionNumber [StageInt 6; StageRange 7 9]]))).
  - split; [discriminate|]. repeat constructor; cbn; lia.
  - vm_compute. reflexivity.
Defined.

Lemma SectionDeclaration_str_spec (node : SectionDeclaration) (s : str) :
  mem "[" (section_name node) = false ->
  SectionNumbers_ok (section_numbers node) ->
  SectionDeclaration_str node = Ok s ->
  SectionDeclaration_process s = Built (Some node).
Proof.
  destruct node as [name ns]. cbn [section_name section_numbers]. intros Hname Hok.
  unfold SectionDeclaration_str. cbn [section_name section_numbers].
  destruct (SectionNumbers_str ns) as [text|] eqn:Etext; cbn [rbind]; [|discriminate].
  intros Hs. apply Ok_inj in Hs. subst s. unfold SectionDeclaration_process.
  assert (Hfind : str_find "[" (name ++ " [" ++ text ++ "]")
                  = Z.of_nat (length (name ++ " "))).
  { unfold str_find.
    replace (name ++ " [" ++ text ++ "]") with ((name ++ " ") ++ "["%char :: (text ++ "]"))
      by (rewrite <- app_assoc; reflexivity).
    rewrite find_from_app; [lia|]. rewrite mem_app, Hname. reflexivity. }
  assert (Hcheck : SectionDeclaration_check (name ++ " [" ++ text ++ "]")
                   = Some (name, text)).
  { unfold SectionDeclaration_check. rewrite Hfind. cbn [forallb].
    replace (mem "[" (name ++ " [" ++ text ++ "]")) with true
      by (rewrite !mem_app; cbn; rewrite !orb_true_r; reflexivity).
    replace (mem "]" (name ++ " [" ++ text ++ "]")) with true
      by (rewrite !mem_app; cbn; rewrite !orb_true_r; reflexivity).
    cbn [andb negb]. f_equal. f_equal.
    - apply (@py_slice_segment ascii [] name (" [" ++ text ++ "]")); [reflexivity|].
      unfold clamp_index. rewrite !length_app. cbn [app length].
      simpl (length (list_ascii_of_string _)).
      destruct (Z.ltb_spec (Z.of_nat (length name + 1) - 1) 0); lia.
    - replace (name ++ " [" ++ text ++ "]") with ((name ++ " [") ++ text ++ "]")
        by (rewrite <- app_assoc; reflexivity).
      replace (Z.of_nat (length (name ++ " ")) + 1)%Z
        with (Z.of_nat (length (name ++ " [")))
        by (rewrite !length_app; simpl (length (list_ascii_of_string _)); lia).
      apply py_slice_inner. reflexivity. }
  rewrite Hcheck. unfold SectionDeclaration_assemble.
  rewrite (@SectionNumbers_str_spec _ _ Hok Etext). reflexivity.
Qed.

(** X29. A [SectionDeclaration] comes back from its string form when its
    name holds no opening bracket and its numbers read back (at least one,
    every path beginning with a number, no number negative): whenever
    [__str__] returns a text for such a node, [SectionDeclaration.process]
    of the text is the node. The name is the text in front of the first
    bracket without the character before it, the numbers are the text
    between that bracket and the last character. *)
Theorem SectionDeclaration_round_trip (node : SectionDeclaration) (text : str) :
  mem "[" (section_name node) = false ->
  SectionNumbers_ok (section_numbers node) ->
  SectionDeclaration_str node = Ok text ->
  SectionDeclaration_process text = Built (Some node).
Proof. apply SectionDeclaration_str_spec. Qed.

Lemma SectionDeclaration_round_trip_witness :
  SectionDeclaration_process "Buffer Object Queries [6, 6.7]"
  = Built (Some (mk_SectionDeclaration "Buffer Object Queries"
      (mk_SectionNumbers
         [mk_SectionNumber [StageInt 6]; mk_SectionNumber [StageInt 6; StageInt 7]]))).
Proof.
  apply (@SectionDeclaration_round_trip
           (mk_SectionDeclaration "Buffer Object Queries"
              (mk_SectionNumbers
                 [mk_SectionNumber [StageInt 6];
                  mk_SectionNumber [StageInt 6; StageInt 7]]))).
  - reflexivity.
  - split; [discriminate|]. repeat constructor; cbn; lia.
  - vm_compute. reflexivity.
Defined.

(** ** [parse_variant] *)

Example parse_variant_kinds :
  parse_variant "See target for GetIntegerv"
  = Built (ESeeParamDelegation
             (mk_SeeParamDelegation (mk_MultiIdent "target") (mk_MultiIdent "GetIntegerv")))
  /\ parse_variant "LOD level" = Built (ELodLevel mk_LodLevel)
  /\ parse_variant "[Table 8.2]"
     = Built (ETableDelegation (mk_TableDelegation (mk_SectionNumbers
                [mk_SectionNumber [StageInt 8; StageInt 2]])))
  /\ parse_variant "{FRONT, BACK}_FACE"
     = Built (EVariant (mk_Variant (lits ["FRONT_FACE"; "BACK_FACE"])))
  /\ parse_variant "any pname"
     = Failed (Propagated (ParsingException NVariant ("any pname" : str) [])).
Proof. repeat split; vm_compute; reflexivity. Qed.

Lemma starts_with_inv (prefix s : str) :
  starts_with prefix s = true -> s = prefix ++ skipn (length prefix) s.
Proof.
  revert s. induction prefix as [|p prefix IH]; intros s H; [reflexivity|].
  destruct s as [|c s]; [discriminate|]. cbn [starts_with] in H.
  apply andb_true_iff in H as [Hc H]. apply Ascii.eqb_eq in Hc. subst c.
  cbn [app length skipn]. f_equal. apply IH, H.
Qed.

Lemma Variant_check_app (a b : str) :
  Variant_check (a ++ b) = Variant_check a && Variant_check b.
Proof. apply forallb_app. Qed.

Lemma quiet_Variant (v : str) :
  Variant_check v = false ->
  processor EVariant (fun v => of_result (Variant_process v)) v = Built None.
Proof. intros H. unfold processor, Variant_process. rewrite H. reflexivity. Qed.

Lemma quiet_SeeParamDelegation (v : str) :
  starts_with "See " v = false ->
  processor ESeeParamDelegation (fun v => of_result (SeeParamDelegation_process v)) v
  = Built None.
Proof.
  intros H. unfold processor.
  destruct (@SeeParamDelegation_process_inv v _ eq_refl) as [->|(p & t & -> & _)];
    [reflexivity|].
  rewrite starts_with_app in H. discriminate.
Qed.

Lemma quiet_SeeDelegation (v : str) :
  starts_with "See " v = false ->
  processor ESeeDelegation (fun v => of_result (SeeDelegation_process v)) v = Built None.
Proof.
  intros H. unfold processor.
  destruct (@SeeDelegation_process_inv v _ eq_refl) as [->|(x & -> & _)];
    [reflexivity|].
  rewrite starts_with_app in H. discriminate.
Qed.

Lemma quiet_TableDelegation (v : str) :
  starts_with "[Table" v = false ->
  processor ETableDelegation TableDelegation_process v = Built None.
Proof.
  intros H. unfold processor, TableDelegation_process, TableDelegation_check.
  rewrite H. reflexivity.
Qed.

Lemma quiet_Bitwise (v : str) :
  Bitwise_check v = false -> processor EBitwise Bitwise_process v = Built None.
Proof. intros H. unfold processor, Bitwise_process. rewrite H. reflexivity. Qed.

Lemma quiet_LodLevel (v : str) :
  LodLevel_check v = false ->
  processor ELodLevel (fun v => Built (LodLevel_process v)) v = Built None.
Proof. intros H. unfold processor, LodLevel_process. rewrite H. reflexivity. Qed.

Lemma quiet_SeeDelegation_param (p t : str) :
  processor ESeeDelegation (fun v => of_result (SeeDelegation_process v))
    ("See " ++ p ++ " for " ++ t) = Built None.
Proof.
  unfold processor.
  destruct (@SeeDelegation_process_inv ("See " ++ p ++ " for " ++ t) _ eq_refl)
    as [->|(x & E & Hx & _)]; [reflexivity|].
  apply app_inv_head in E. subst x.
  rewrite mem_app, mem_app in Hx. cbn in Hx. rewrite orb_true_r in Hx. discriminate.
Qed.

(** For every string, all node types but one answer [None]. *)
Lemma node_types_exclusive (v : str) :
  exists a t b,
    node_types = a ++ t :: b /\ Forall (fun t' => t' v = Built None) (a ++ b).
Proof.
  unfold node_types.
  destruct (starts_with "See " v) eqn:Esee.
  { apply starts_with_inv in Esee. set (x := skipn (length "See ") v) in Esee.
    clearbody x. subst v.
    assert (Hvar : Variant_check ("See " ++ x) = false)
      by (rewrite Variant_check_app; reflexivity).
    assert (Htab : starts_with "[Table" ("See " ++ x) = false) by reflexivity.
    assert (Hbit : Bitwise_check ("See " ++ x) = false) by reflexivity.
    assert (Hlod : LodLevel_check ("See " ++ x) = false)
      by (apply str_eqb_neq; discriminate).
    destruct (@SeeParamDelegation_process_inv ("See " ++ x) _ eq_refl)
      as [Hnone|(p & t & E & _)].
    - eexists [_; _], _, [_; _; _]. split; [reflexivity|].
      cbn [app]; repeat apply Forall_cons;
        [apply quiet_Variant, Hvar | unfold processor; rewrite Hnone; reflexivity
        | apply quiet_TableDelegation, Htab | apply quiet_Bitwise, Hbit
        | apply quiet_LodLevel, Hlod | apply Forall_nil].
    - eexists [_], _, [_; _; _; _]. split; [reflexivity|].
      cbn [app]; repeat apply Forall_cons;
        [apply quiet_Variant, Hvar | rewrite E; apply quiet_SeeDelegation_param
        | apply quiet_TableDelegation, Htab | apply quiet_Bitwise, Hbit
        | apply quiet_LodLevel, Hlod | apply Forall_nil]. }
  destruct (starts_with "[Table" v) eqn:Etab.
  { eexists [_; _; _], _, [_; _]. split; [reflexivity|].
    apply starts_with_inv in Etab. set (x := skipn (length "[Table") v) in Etab.
    clearbody x. subst v.
    cbn [app]; repeat apply Forall_cons;
      [apply quiet_Variant; rewrite Variant_check_app; reflexivity
      | apply quiet_SeeParamDelegation, Esee | apply quiet_SeeDelegation, Esee
      | apply quiet_Bitwise; reflexivity
      | apply quiet_LodLevel, str_eqb_neq; discriminate | apply Forall_nil]. }
  destruct (Bitwise_check v) eqn:Ebit.
  { eexists [_; _; _; _], _, [_]. split; [reflexivity|].
    apply starts_with_inv in Ebit. set (x := skipn (length "bitwise OR of") v) in Ebit.
    clearbody x.
    cbn [app]; repeat apply Forall_cons;
      [apply quiet_Variant; rewrite Ebit, Variant_check_app; reflexivity
      | apply quiet_SeeParamDelegation, Esee | apply quiet_SeeDelegation, Esee
      | apply quiet_TableDelegation, Etab
      | apply quiet_LodLevel; rewrite Ebit; apply str_eqb_neq; discriminate
      | apply Forall_nil]. }
  destruct (LodLevel_check v) eqn:Elod.
  { eexists [_; _; _; _; _], _, []. split; [reflexivity|].
    apply str_eqb_eq in Elod.
    cbn [app]; repeat apply Forall_cons;
      [apply quiet_Variant; rewrite Elod; reflexivity
      | apply quiet_SeeParamDelegation, Esee | apply quiet_SeeDelegation, Esee
      | apply quiet_TableDelegation, Etab | apply quiet_Bitwise, Ebit
      | apply Forall_nil]. }
  eexists [], _, [_; _; _; _; _]. split; [reflexivity|].
  cbn [app]; repeat apply Forall_cons;
    [apply quiet_SeeParamDelegation, Esee | apply quiet_SeeDelegation, Esee
    | apply quiet_TableDelegation, Etab | apply quiet_Bitwise, Ebit
    | apply quiet_LodLevel, Elod | apply Forall_nil].
Qed.

Lemma parse_variant_loop_quiet
    (types : list (str -> outcome (option Enumeration)))
    (fallback : str -> outcome Enumeration) (v : str) :
  Forall (fun t => t v = Built None) types ->
  parse_variant_loop types fallback v = fallback v.
Proof.
  induction 1 as [|t types Ht _ IH]; [reflexivity|].
  cbn [parse_variant_loop]. rewrite Ht. exact IH.
Qed.

Lemma parse_variant_loop_one
    (a b : list (str -> outcome (option Enumeration)))
    (t : str -> outcome (option Enumeration))
    (fallback : str -> outcome Enumeration) (v : str) :
  Forall (fun t' => t' v = Built None) (a ++ b) ->
  parse_variant_loop (a ++ t :: b) fallback v
  = obind (t v) (fun result =>
      match result with
      | Some result => Built result
      | None => fallback v
      end).
Proof.
  intros H. apply Forall_app in H as [Ha Hb].
  induction Ha as [|t' a Ht' _ IH].
  - cbn [app parse_variant_loop]. destruct (t v) as [[n|]|f]; cbn [obind]; try reflexivity.
    apply parse_variant_loop_quiet, Hb.
  - cbn [app parse_variant_loop]. rewrite Ht'. exact IH.
Qed.

Lemma parse_variant_loop_permutation
    (types : list (str -> outcome (option Enumeration)))
    (fallback : str -> outcome Enumeration) (v : str) :
  Permutation types node_types ->
  parse_variant_loop types fallback v = parse_variant_with fallback v.
Proof.
  intros Hp. unfold parse_variant_with.
  destruct (node_types_exclusive v) as (a & t & b & E & Hq).
  rewrite E in *.
  assert (Hin : In t types).
  { apply (Permutation_in t (Permutation_sym Hp)). apply in_elt. }
  apply in_split in Hin as (l1 & l2 & ->).
  apply Permutation_app_inv in Hp.
  assert (Hq' : Forall (fun t' => t' v = Built None) (l1 ++ l2)).
  { rewrite Forall_forall in *. intros t' Ht'. apply Hq.
    apply (Permutation_in t' Hp Ht'). }
  rewrite !parse_variant_loop_one by assumption. reflexivity.
Qed.

(** X30. The node types of [parse_variant] exclude each other: for every
    string all of them but one answer [None], so the order in which the
    loop tries them does not matter. With the node types in any order,
    and with any fallback, the loop returns (or raises) what
    [parse_variant] does. *)
Theorem parse_variant_order_irrelevant
    (types : list (str -> outcome (option Enumeration)))
    (fallback : str -> outcome Enumeration) (v : str) :
  Permutation types node_types ->
  parse_variant_loop types fallback v = parse_variant_with fallback v.
Proof. apply parse_variant_loop_permutation. Qed.

Lemma parse_variant_order_irrelevant_witness :
  parse_variant_loop (rev node_types) unsupported_variant "See target for GetIntegerv"
  = parse_variant "See target for GetIntegerv".
Proof.
  apply (@parse_variant_order_irrelevant (rev node_types) unsupported_variant
           "See target for GetIntegerv").
  apply Permutation_sym, Permutation_rev.
Defined.
